(** * Scene graph, spatial index and renderer selection of the design tool

    A shallow embedding of the core classes of the editor
    (Transform, AABB, QuadTree, SceneNode, Scene, LayerManager and the
    renderer selection of RenderingEngine) together with the properties
    that its specification states about them.

    JavaScript numbers are idealised as exact rationals ([Q]); objects
    that the code mutates in place are modelled by the value of the
    object after the call, and objects that are shared by reference
    (scene nodes) live in an explicit heap. *)

From Stdlib Require Import QArith Qminmax Qfield Lqa ZArith List String Sorted.
From stdpp Require Import base option list gmap strings pretty.

Local Open Scope Q_scope.
Local Set Warnings "-register-all".

(** ** Numbers *)

Module Num.

(** [x < y] on JavaScript numbers. *)
Definition ltb (x y : Q) : bool := negb (Qle_bool y x).

(** [x > y]. *)
Definition gtb (x y : Q) : bool := ltb y x.

(** [x <= y] and [x >= y]. *)
Definition leb (x y : Q) : bool := Qle_bool x y.
Definition geb (x y : Q) : bool := Qle_bool y x.

(** [x === y] on numbers. *)
Definition eqb (x y : Q) : bool := Qeq_bool x y.

End Num.

(** ** Transform (js/core/Transform.js) *)

Module Transform.

(** The memoised result of [decompose()]. *)
Record Decomposed := mkDecomposed {
  dec_x : Q; dec_y : Q; dec_rotation : Q;
  dec_scaleX : Q; dec_scaleY : Q; dec_skewX : Q; dec_skewY : Q
}.

Record t := mk {
  x : Q; y : Q; rotation : Q; scaleX : Q; scaleY : Q;
  a : Q; b : Q; c : Q; d : Q; e : Q; f : Q;
  _decomposed : option Decomposed;
  _pooled : bool
}.

(** [{x, y}] objects taken and returned by [transformPoint]. *)
Record Point := mkPoint { px : Q; py : Q }.

(** [new Transform(x = 0, y = 0, rotation = 0, scaleX = 1, scaleY = 1)]:
    the matrix components always start as the identity. *)
Definition new (x0 y0 rotation0 scaleX0 scaleY0 : Q) : t :=
  {| x := x0; y := y0; rotation := rotation0;
     scaleX := scaleX0; scaleY := scaleY0;
     a := 1; b := 0; c := 0; d := 1; e := 0; f := 0;
     _decomposed := None; _pooled := false |}.

Definition new_default : t := new 0 0 0 1 1.

Definition identity (this : t) : t :=
  {| x := x this; y := y this; rotation := rotation this;
     scaleX := scaleX this; scaleY := scaleY this;
     a := 1; b := 0; c := 0; d := 1; e := 0; f := 0;
     _decomposed := None; _pooled := _pooled this |}.

(** [copy(transform)]: only the matrix and the cached decomposition
    are copied. *)
Definition copy (this transform : t) : t :=
  {| x := x this; y := y this; rotation := rotation this;
     scaleX := scaleX this; scaleY := scaleY this;
     a := a transform; b := b transform; c := c transform;
     d := d transform; e := e transform; f := f transform;
     _decomposed := _decomposed transform; _pooled := _pooled this |}.

Definition translate (this : t) (tx ty : Q) : t :=
  {| x := x this; y := y this; rotation := rotation this;
     scaleX := scaleX this; scaleY := scaleY this;
     a := a this; b := b this; c := c this; d := d this;
     e := e this + tx; f := f this + ty;
     _decomposed :=
       match _decomposed this with
       | Some dc =>
           Some {| dec_x := dec_x dc + tx; dec_y := dec_y dc + ty;
                   dec_rotation := dec_rotation dc;
                   dec_scaleX := dec_scaleX dc; dec_scaleY := dec_scaleY dc;
                   dec_skewX := dec_skewX dc; dec_skewY := dec_skewY dc |}
       | None => None
       end;
     _pooled := _pooled this |}.

Definition multiply (this transform : t) : t :=
  let a0 := a this in let b0 := b this in
  let c0 := c this in let d0 := d this in
  let e0 := e this in let f0 := f this in
  {| x := x this; y := y this; rotation := rotation this;
     scaleX := scaleX this; scaleY := scaleY this;
     a := a0 * a transform + b0 * c transform;
     b := a0 * b transform + b0 * d transform;
     c := c0 * a transform + d0 * c transform;
     d := c0 * b transform + d0 * d transform;
     e := e0 * a transform + f0 * c transform + e transform;
     f := e0 * b transform + f0 * d transform + f transform;
     _decomposed := None; _pooled := _pooled this |}.

Definition det (this : t) : Q := a this * d this - b this * c this.

Definition invert (this : t) : t :=
  let a0 := a this in let b0 := b this in
  let c0 := c this in let d0 := d this in
  let e0 := e this in let f0 := f this in
  let det0 := a0 * d0 - b0 * c0 in
  if Num.eqb det0 0 then identity this
  else
    let invDet := 1 / det0 in
    {| x := x this; y := y this; rotation := rotation this;
       scaleX := scaleX this; scaleY := scaleY this;
       a := d0 * invDet;
       b := - b0 * invDet;
       c := - c0 * invDet;
       d := a0 * invDet;
       e := (c0 * f0 - d0 * e0) * invDet;
       f := (b0 * e0 - a0 * f0) * invDet;
       _decomposed := None; _pooled := _pooled this |}.

Definition transformPoint (this : t) (point : Point) : Point :=
  let x0 := px point in
  let y0 := py point in
  {| px := x0 * a this + y0 * c this + e this;
     py := x0 * b this + y0 * d this + f this |}.

(** The expression [T.invert().transformPoint(T.transformPoint(P))] on
    one object [T]: [invert] changes [T] in place and is evaluated
    first, so the inner call already sees the inverted matrix. *)
Definition invertThenTransformInPlace (T : t) (P : Point) : Point :=
  let T1 := invert T in
  transformPoint T1 (transformPoint T1 P).

(** Equality of points up to the equality of rationals. *)
Definition point_eq (p q : Point) : Prop :=
  px p == px q /\ py p == py q.

(** [scale(x, y)]. *)
Definition scale (this : t) (sx sy : Q) : t :=
  {| x := x this; y := y this; rotation := rotation this;
     scaleX := scaleX this; scaleY := scaleY this;
     a := a this * sx; b := b this * sx;
     c := c this * sy; d := d this * sy;
     e := e this; f := f this;
     _decomposed := None; _pooled := _pooled this |}.

(** [set(a, b, c, d, e, f)]. *)
Definition set (this : t) (a0 b0 c0 d0 e0 f0 : Q) : t :=
  {| x := x this; y := y this; rotation := rotation this;
     scaleX := scaleX this; scaleY := scaleY this;
     a := a0; b := b0; c := c0; d := d0; e := e0; f := f0;
     _decomposed := None; _pooled := _pooled this |}.

(** [setPosition(x, y)]: the fields [x] and [y], not the matrix. *)
Definition setPosition (this : t) (x0 y0 : Q) : t :=
  {| x := x0; y := y0; rotation := rotation this;
     scaleX := scaleX this; scaleY := scaleY this;
     a := a this; b := b this; c := c this; d := d this;
     e := e this; f := f this;
     _decomposed := _decomposed this; _pooled := _pooled this |}.

(** [clone()]: [new Transform(this.x, this.y, this.rotation,
    this.scaleX, this.scaleY)]. *)
Definition clone (this : t) : t :=
  new (x this) (y this) (rotation this) (scaleX this) (scaleY this).

(** The object written by [toJSON()] and read by [fromJSON(json)]. *)
Record Json := mkJson {
  ja : Q; jb : Q; jc : Q; jd : Q; je : Q; jf : Q
}.

Definition toJSON (this : t) : Json :=
  {| ja := a this; jb := b this; jc := c this;
     jd := d this; je := e this; jf := f this |}.

Definition fromJSON (this : t) (json : Json) : t :=
  set this (ja json) (jb json) (jc json) (jd json) (je json) (jf json).


(** The matrix of a transform is the identity. *)
Definition is_identity (T : t) : Prop :=
  a T == 1 /\ b T == 0 /\ c T == 0 /\ d T == 1 /\ e T == 0 /\ f T == 0.

End Transform.

(** ** Completions of JavaScript calls *)

Module JS.

(** The run-time errors the modelled code can raise: calling a method
    that the receiver does not have, or reading a property of
    [undefined], is a [TypeError]. *)
Inductive Error := TypeError.

(** The outcome of a call: a normal return, a thrown error, or (for the
    recursive methods, which are run with a step budget) a budget that
    was too small. *)
Inductive Outcome (A : Type) : Type :=
| Return (v : A)
| Throw (err : Error)
| OutOfFuel.

Arguments Return {A} v.
Arguments Throw {A} err.
Arguments OutOfFuel {A}.

Definition bind {A B : Type} (m : Outcome A) (k : A -> Outcome B) : Outcome B :=
  match m with
  | Return v => k v
  | Throw err => Throw err
  | OutOfFuel => OutOfFuel
  end.

(** The primitive values held by property bags and option objects. *)
Inductive Value :=
| Undefined
| Null
| Bool (b : bool)
| Number (q : Q)
| Str (s : string).

(** Truthiness, as tested by [if (v)] and [v && ...]. *)
Definition truthy (v : Value) : bool :=
  match v with
  | Undefined | Null => false
  | Bool b => b
  | Number q => negb (Qeq_bool q 0)
  | Str s => negb (String.eqb s EmptyString)
  end.

(** [v === w]. *)
Definition strictEq (v w : Value) : bool :=
  match v, w with
  | Undefined, Undefined => true
  | Null, Null => true
  | Bool b1, Bool b2 => Bool.eqb b1 b2
  | Number q1, Number q2 => Qeq_bool q1 q2
  | Str s1, Str s2 => String.eqb s1 s2
  | _, _ => false
  end.

(** The text of a number.  Integers print in decimal, as in
    JavaScript; a number that is not an integer is printed as its
    reduced fraction, which stands for its decimal expansion. *)
Definition numberToString (q : Q) : string :=
  let r := Qred q in
  if Pos.eqb (Qden r) 1 then pretty (Qnum r)
  else String.append (pretty (Qnum r))
         (String.append "/" (pretty (Z.pos (Qden r)))).

(** The text [Array.prototype.join] uses for an element: [undefined]
    and [null] give the empty string. *)
Definition joinText (v : Value) : string :=
  match v with
  | Undefined | Null => EmptyString
  | Bool true => "true"
  | Bool false => "false"
  | Number q => numberToString q
  | Str s => s
  end.

(** [array.join(sep)]. *)
Definition join (sep : string) (vs : list Value) : string :=
  String.concat sep (map joinText vs).

End JS.

#[global] Instance outcome_ret : MRet JS.Outcome := @JS.Return.
#[global] Instance outcome_bind : MBind JS.Outcome :=
  fun A B k m => JS.bind m k.

(** ** AABB (js/core/AABB.js) *)

Module AABB.

Record t := mk { _x : Q; _y : Q; _width : Q; _height : Q }.

(** [new AABB(x = 0, y = 0, width = 0, height = 0)]. *)
Definition new (x y width height : Q) : t :=
  {| _x := x; _y := y; _width := width; _height := height |}.

Definition set (this : t) (x y width height : Q) : t :=
  {| _x := x; _y := y; _width := width; _height := height |}.

Definition copy (this aabb : t) : t :=
  {| _x := _x aabb; _y := _y aabb;
     _width := _width aabb; _height := _height aabb |}.

Definition clone (this : t) : t :=
  new (_x this) (_y this) (_width this) (_height this).

(** The getters [width] and [height]. *)
Definition width (this : t) : Q := _width this.
Definition height (this : t) : Q := _height this.


Definition containsPoint (this : t) (x y : Q) : bool :=
  Num.geb x (_x this) && Num.leb x (_x this + _width this) &&
  Num.geb y (_y this) && Num.leb y (_y this + _height this).

Definition containsAABB (this aabb : t) : bool :=
  Num.geb (_x aabb) (_x this) &&
  Num.leb (_x aabb + _width aabb) (_x this + _width this) &&
  Num.geb (_y aabb) (_y this) &&
  Num.leb (_y aabb + _height aabb) (_y this + _height this).

Definition intersectsAABB (this aabb : t) : bool :=
  Num.ltb (_x this) (_x aabb + _width aabb) &&
  Num.gtb (_x this + _width this) (_x aabb) &&
  Num.ltb (_y this) (_y aabb + _height aabb) &&
  Num.gtb (_y this + _height this) (_y aabb).

(** QuadTree.js reads [minX], [minY], [maxX] and [maxY] from every
    bounds object, but the AABB class of js/core/AABB.js declares none
    of them.  The specification's AABB is [(x, y, width, height)], so
    the minimum corner is [(x, y)] and the maximum corner is
    [(x + width, y + height)]. *)

(** Modelled from the spec: the accessor [minX], missing from AABB.js;
    the x coordinate of the minimum corner. *)
Definition minX (this : t) : Q := _x this.

(** Modelled from the spec: the accessor [minY], missing from AABB.js;
    the y coordinate of the minimum corner. *)
Definition minY (this : t) : Q := _y this.

(** Modelled from the spec: the accessor [maxX], missing from AABB.js;
    the x coordinate of the maximum corner. *)
Definition maxX (this : t) : Q := _x this + _width this.

(** Modelled from the spec: the accessor [maxY], missing from AABB.js;
    the y coordinate of the maximum corner. *)
Definition maxY (this : t) : Q := _y this + _height this.

(** Two boxes touch exactly along an edge: an edge of one lies on the
    line of the facing edge of the other, and their ranges on the
    other axis overlap. *)
Definition touchAlongEdge (A B : t) : Prop :=
  ((_x A + _width A == _x B \/ _x B + _width B == _x A)
   /\ _y A < _y B + _height B /\ _y B < _y A + _height A)
  \/
  ((_y A + _height A == _y B \/ _y B + _height B == _y A)
   /\ _x A < _x B + _width B /\ _x B < _x A + _width A).

(** [clear()]. *)
Definition clear (this : t) : t :=
  {| _x := 0; _y := 0; _width := 0; _height := 0 |}.



(** [Math.min(...values)] and [Math.max(...values)] on four values. *)
Definition min4 (p q r s : Q) : Q := Qmin (Qmin (Qmin p q) r) s.
Definition max4 (p q r s : Q) : Q := Qmax (Qmax (Qmax p q) r) s.

(** [transform(transform)]: the box of the four mapped corners. *)
Definition transform (this : t) (tr : Transform.t) : t :=
  let p1 := Transform.transformPoint tr
              (Transform.mkPoint (_x this) (_y this)) in
  let p2 := Transform.transformPoint tr
              (Transform.mkPoint (_x this + _width this) (_y this)) in
  let p3 := Transform.transformPoint tr
              (Transform.mkPoint (_x this) (_y this + _height this)) in
  let p4 := Transform.transformPoint tr
              (Transform.mkPoint (_x this + _width this) (_y this + _height this)) in
  let minX' := min4 (Transform.px p1) (Transform.px p2)
                    (Transform.px p3) (Transform.px p4) in
  let minY' := min4 (Transform.py p1) (Transform.py p2)
                    (Transform.py p3) (Transform.py p4) in
  let maxX' := max4 (Transform.px p1) (Transform.px p2)
                    (Transform.px p3) (Transform.px p4) in
  let maxY' := max4 (Transform.py p1) (Transform.py p2)
                    (Transform.py p3) (Transform.py p4) in
  set this minX' minY' (maxX' - minX') (maxY' - minY').

(** [expand(margin)]. *)
Definition expand (this : t) (margin : Q) : t :=
  {| _x := _x this - margin; _y := _y this - margin;
     _width := _width this + margin * 2;
     _height := _height this + margin * 2 |}.


(** [intersect(aabb)].  The four fields are assigned one after the
    other: the new [_width] and [_height] are computed from the new
    [_x] and [_y]. *)
Definition intersect (this aabb : t) : t :=
  let x1 := Qmax (_x this) (_x aabb) in
  let y1 := Qmax (_y this) (_y aabb) in
  let width1 := Qmin (x1 + _width this) (_x aabb + _width aabb) - x1 in
  let height1 := Qmin (y1 + _height this) (_y aabb + _height aabb) - y1 in
  {| _x := x1; _y := y1; _width := width1; _height := height1 |}.

(** [getIntersectionArea(aabb)]. *)
Definition getIntersectionArea (this aabb : t) : Q :=
  if negb (intersectsAABB this aabb) then 0
  else
    let intersectionWidth :=
      Qmin (_x this + _width this) (_x aabb + _width aabb)
      - Qmax (_x this) (_x aabb) in
    let intersectionHeight :=
      Qmin (_y this + _height this) (_y aabb + _height aabb)
      - Qmax (_y this) (_y aabb) in
    intersectionWidth * intersectionHeight.

(** [getClosestPoint(x, y)]. *)
Definition getClosestPoint (this : t) (x y : Q) : Transform.Point :=
  {| Transform.px := Qmax (_x this) (Qmin (_x this + _width this) x);
     Transform.py := Qmax (_y this) (Qmin (_y this + _height this) y) |}.

(** Two boxes are equal up to the equality of rationals. *)
Definition box_eq (A B : t) : Prop :=
  _x A == _x B /\ _y A == _y B
  /\ _width A == _width B /\ _height A == _height B.

End AABB.

(** ** QuadTree (js/core/QuadTree.js) *)

Module QuadTree.

(** An indexed object: anything with a [bounds] property.  [oid] stands
    for the identity of the JavaScript object, which is what the [Set]
    of results and the [objectsMap] compare. *)
Record Obj := mkObj { oid : nat; obounds : AABB.t }.

(** A tree node.  [nodes] is the array of children (empty until the
    node is split); [objectsMap] is the [Map] from objects to the node
    holding them, of which only the keys matter: the value is always
    the node itself. *)
Inductive t := mk {
  bounds : AABB.t;
  maxObjects : nat;
  maxLevels : nat;
  level : nat;
  objects : list Obj;
  nodes : list t;
  objectsMap : list nat
}.

(** [new QuadTree(bounds, maxObjects = 10, maxLevels = 5, level = 0)]. *)
Definition new (bounds0 : AABB.t) (maxObjects0 maxLevels0 level0 : nat) : t :=
  {| bounds := bounds0; maxObjects := maxObjects0; maxLevels := maxLevels0;
     level := level0; objects := []; nodes := []; objectsMap := [] |}.

Definition new_default (bounds0 : AABB.t) : t := new bounds0 10 5 0.

(** [split()]: the four assignments [this.nodes[0..3] = new QuadTree(...)].
    Each child box is [new AABB(...)] with the four arguments of the
    source, in the order of the source, given to the constructor of
    js/core/AABB.js, which takes [(x, y, width, height)]. *)
Definition split (this : t) : t :=
  let subWidth := AABB.width (bounds this) / 2 in
  let subHeight := AABB.height (bounds this) / 2 in
  let x := AABB.minX (bounds this) in
  let y := AABB.minY (bounds this) in
  let child (b : AABB.t) :=
    new b (maxObjects this) (maxLevels this) (level this + 1) in
  {| bounds := bounds this; maxObjects := maxObjects this;
     maxLevels := maxLevels this; level := level this;
     objects := objects this;
     nodes :=
       [ child (AABB.new (x + subWidth) y (x + subWidth * 2) (y + subHeight));
         child (AABB.new x y (x + subWidth) (y + subHeight));
         child (AABB.new x (y + subHeight) (x + subWidth) (y + subHeight * 2));
         child (AABB.new (x + subWidth) (y + subHeight)
                         (x + subWidth * 2) (y + subHeight * 2)) ]
       ++ drop 4 (nodes this);
     objectsMap := objectsMap this |}.

(** [getIndices(object)], on the [bounds] of the object. *)
Definition getIndices (this : t) (ob : AABB.t) : list nat :=
  let verticalMidpoint := AABB.minX (bounds this) + AABB.width (bounds this) / 2 in
  let horizontalMidpoint := AABB.minY (bounds this) + AABB.height (bounds this) / 2 in
  let startIsNorth := Num.ltb (AABB.maxY ob) horizontalMidpoint in
  let startIsWest := Num.ltb (AABB.maxX ob) verticalMidpoint in
  let endIsEast := Num.gtb (AABB.minX ob) verticalMidpoint in
  let endIsSouth := Num.gtb (AABB.minY ob) horizontalMidpoint in
  (if startIsNorth && endIsEast then [0%nat] else []) ++
  (if startIsWest && startIsNorth then [1%nat] else []) ++
  (if startIsWest && endIsSouth then [2%nat] else []) ++
  (if endIsEast && endIsSouth then [3%nat] else []).

(** [map.set(object, this)] on the keys of [objectsMap]. *)
Definition mapSet (keys : list nat) (o : Obj) : list nat :=
  if existsb (Nat.eqb (oid o)) keys then keys else keys ++ [oid o].

(** [this.nodes[i].insert(object)] for one index [i], given the method
    [ins] of the children: an index without a child is a call on
    [undefined]. *)
Definition insertAt (ins : t -> Obj -> JS.Outcome t)
    (children : list t) (i : nat) (o : Obj) : JS.Outcome (list t) :=
  match children !! i with
  | None => JS.Throw JS.TypeError
  | Some ch => ch' ← ins ch o; JS.Return (<[i := ch']> children)
  end.

(** The loop [for (i ...) this.nodes[indices[i]].insert(object)]. *)
Definition insertAll (ins : t -> Obj -> JS.Outcome t)
    (children : list t) (indices : list nat) (o : Obj) : JS.Outcome (list t) :=
  fold_left (fun acc i => cs ← acc; insertAt ins cs i o)
            indices (JS.Return children).

(** [insert(object)].  The recursion into the children follows the
    source; [fuel] bounds its depth. *)
Fixpoint insert (fuel : nat) (this : t) (object : Obj) : JS.Outcome t :=
  match fuel with
  | O => JS.OutOfFuel
  | S fuel' =>
      if (0 <? length (nodes this))%nat then
        nodes' ← insertAll (insert fuel') (nodes this)
                               (getIndices this (obounds object)) object;
        JS.Return {| bounds := bounds this; maxObjects := maxObjects this;
                     maxLevels := maxLevels this; level := level this;
                     objects := objects this; nodes := nodes';
                     objectsMap := objectsMap this |}
      else
        let objects1 := objects this ++ [object] in
        let map1 := mapSet (objectsMap this) object in
        let this1 :=
          {| bounds := bounds this; maxObjects := maxObjects this;
             maxLevels := maxLevels this; level := level this;
             objects := objects1; nodes := nodes this;
             objectsMap := map1 |} in
        if (maxObjects this <? length objects1)%nat
           && (level this <? maxLevels this)%nat then
          let this2 :=
            if (length (nodes this1) =? 0)%nat then split this1 else this1 in
          nodes' ←
            fold_left
              (fun acc o =>
                 cs ← acc;
                 insertAll (insert fuel') cs (getIndices this2 (obounds o)) o)
              (objects this2) (JS.Return (nodes this2));
          JS.Return {| bounds := bounds this2; maxObjects := maxObjects this2;
                       maxLevels := maxLevels this2; level := level this2;
                       objects := []; nodes := nodes';
                       objectsMap := [] |}
        else JS.Return this1
  end.

(** [result.add(object)] on a [Set], kept in insertion order. *)
Definition setAdd (result : list Obj) (o : Obj) : list Obj :=
  if existsb (fun r => Nat.eqb (oid r) (oid o)) result then result
  else result ++ [o].

(** [retrieve(bounds, result = new Set())]. *)
Fixpoint retrieve (fuel : nat) (this : t) (qbounds : AABB.t)
    (result : list Obj) : JS.Outcome (list Obj) :=
  match fuel with
  | O => JS.OutOfFuel
  | S fuel' =>
      result1 ←
        (if (0 <? length (nodes this))%nat then
           fold_left
             (fun acc i =>
                r ← acc;
                match nodes this !! i with
                | None => JS.Throw JS.TypeError
                | Some ch => retrieve fuel' ch qbounds r
                end)
             (getIndices this qbounds) (JS.Return result)
         else JS.Return result);
      JS.Return
        (fold_left
           (fun r o =>
              if AABB.intersectsAABB qbounds (obounds o) then setAdd r o else r)
           (objects this) result1)
  end.

(** Inserting a sequence of objects, one call of [insert] after the
    other. *)
Definition insertMany (fuel : nat) (this : t) (os : list Obj) : JS.Outcome t :=
  fold_left (fun acc o => q ← acc; insert fuel q o) os (JS.Return this).

(** The brute-force cross-check of the specification: the inserted
    objects whose box intersects the query. *)
Definition bruteForce (qbounds : AABB.t) (os : list Obj) : list Obj :=
  filter (fun o => AABB.intersectsAABB qbounds (obounds o) = true) os.

(** The quadrant regions as the specification describes them: the exact
    bisection of a node's box into top-right (0), top-left (1),
    bottom-left (2) and bottom-right (3). *)
Definition quadrantRegion (this : t) (i : nat) : AABB.t :=
  let w := AABB.width (bounds this) / 2 in
  let h := AABB.height (bounds this) / 2 in
  let x := AABB.minX (bounds this) in
  let y := AABB.minY (bounds this) in
  match i with
  | 0%nat => AABB.new (x + w) y w h
  | 1%nat => AABB.new x y w h
  | 2%nat => AABB.new x (y + h) w h
  | _ => AABB.new (x + w) (y + h) w h
  end.

(** The quadrants (in index order) whose region a box overlaps. *)
Definition overlappedQuadrants (this : t) (ob : AABB.t) : list nat :=
  filter (fun i => AABB.intersectsAABB ob (quadrantRegion this i) = true)
         [0%nat; 1%nat; 2%nat; 3%nat].

(** [clear()]: the objects, the map and the children are dropped. *)
Definition clear (this : t) : t :=
  {| bounds := bounds this; maxObjects := maxObjects this;
     maxLevels := maxLevels this; level := level this;
     objects := []; nodes := []; objectsMap := [] |}.

(** [array.splice(array.indexOf(object), 1)]: the first entry that is
    the object [o] goes. *)
Fixpoint spliceObject (o : Obj) (l : list Obj) : list Obj :=
  match l with
  | [] => []
  | y :: l' => if Nat.eqb (oid y) (oid o) then l' else y :: spliceObject o l'
  end.

(** [map.delete(object)] on the keys of [objectsMap]. *)
Definition mapDelete (keys : list nat) (o : Obj) : list nat :=
  filter (fun k => k <> oid o) keys.

(** A loop that calls a method on every element of an array and
    stores what becomes of each. *)
Fixpoint forEachNode (g : t -> JS.Outcome t) (l : list t) : JS.Outcome (list t) :=
  match l with
  | [] => JS.Return []
  | ch :: l' =>
      ch' ← g ch;
      rest ← forEachNode g l';
      JS.Return (ch' :: rest)
  end.

(** [remove(object)].  The value that [objectsMap] holds for a key is
    the node itself, so [node] is [this] when the key is present. *)
Fixpoint remove (fuel : nat) (this : t) (object : Obj) : JS.Outcome t :=
  match fuel with
  | O => JS.OutOfFuel
  | S fuel' =>
      if existsb (Nat.eqb (oid object)) (objectsMap this) then
        if existsb (fun y => Nat.eqb (oid y) (oid object)) (objects this) then
          JS.Return {| bounds := bounds this; maxObjects := maxObjects this;
                       maxLevels := maxLevels this; level := level this;
                       objects := spliceObject object (objects this);
                       nodes := nodes this;
                       objectsMap := mapDelete (objectsMap this) object |}
        else JS.Return this
      else
        nodes' ← forEachNode (fun ch => remove fuel' ch object) (nodes this);
        JS.Return {| bounds := bounds this; maxObjects := maxObjects this;
                     maxLevels := maxLevels this; level := level this;
                     objects := objects this; nodes := nodes';
                     objectsMap := objectsMap this |}
  end.

(** [update(object, oldBounds)]: [remove] does not read the bounds of
    the object, so the swap of the bounds around it has no effect. *)
Definition update (fuel : nat) (this : t) (object : Obj) (oldBounds : AABB.t)
    : JS.Outcome t :=
  this1 ← remove fuel this object;
  insert fuel this1 object.

(** A node that has not been split and takes one more object without
    splitting. *)
Definition hasRoom (this : t) : Prop :=
  nodes this = []
  /\ ((length (objects this) < maxObjects this)%nat
      \/ (maxLevels this <= level this)%nat).


End QuadTree.

(** ** The object store

    Scene nodes are shared by reference (a parent lists its children,
    a child points back to its parent, the scene maps ids to nodes), so
    they live in a heap indexed by reference.  The world holds one
    [Scene] object. *)

Module Store.

(** A reference to a [SceneNode] object: its identity. *)
Definition ref := nat.

(** Node ids: the value of [crypto.randomUUID()], of which the [k]-th
    call returns a fresh one, or a string passed to the constructor. *)
Inductive Id := Uuid (k : nat) | Given (s : string).

#[global] Instance Id_eq_dec : EqDecision Id.
Proof. solve_decision. Defined.

#[global] Instance Id_countable : Countable Id :=
  inj_countable'
    (fun i => match i with Uuid k => inl k | Given s => inr s end)
    (fun v => match v with inl k => Uuid k | inr s => Given s end)
    (fun i => match i with Uuid _ => eq_refl | Given _ => eq_refl end).

(** The reference to the scene of the world, as held by [node.scene]. *)
Inductive SceneRef := TheScene.

(** Effects, constraints and layouts are external collaborators; the
    model keeps what the core reads: the [type] of an effect and the
    back-reference [node] that [addEffect], [addConstraint] and
    [setLayout] set. *)
Record Effect := mkEffect { etype : JS.Value; enode : option ref }.
Record Constraint := mkConstraint { cnode : option ref }.
Record Layout := mkLayout { lnode : option ref }.

(** The fields of a [SceneNode] that the modelled methods read or
    write.  [type] is never assigned by the constructor.  The
    interaction flags, [masks] and the node's private emitter are left
    out: no modelled method reads them. *)
Record Node := mkNode {
  id : Id;
  name : string;
  type : JS.Value;
  transform : Transform.t;
  parent : option ref;
  children : list ref;
  visible : bool;
  scene : option SceneRef;
  bounds : AABB.t;
  properties : gmap string JS.Value;
  worldTransform : Transform.t;
  worldBounds : AABB.t;
  layer : JS.Value;
  zIndex : Q;
  effects : list Effect;
  constraints : list Constraint;
  layout : option Layout;
  isDirty : bool;
  isTransformDirty : bool;
  isBoundsDirty : bool
}.

Definition set_transform (v : Transform.t) (n : Node) : Node :=
  mkNode (id n) (name n) (type n) v (parent n) (children n) (visible n)
    (scene n) (bounds n) (properties n) (worldTransform n) (worldBounds n)
    (layer n) (zIndex n) (effects n) (constraints n) (layout n)
    (isDirty n) (isTransformDirty n) (isBoundsDirty n).

Definition set_parent (v : option ref) (n : Node) : Node :=
  mkNode (id n) (name n) (type n) (transform n) v (children n) (visible n)
    (scene n) (bounds n) (properties n) (worldTransform n) (worldBounds n)
    (layer n) (zIndex n) (effects n) (constraints n) (layout n)
    (isDirty n) (isTransformDirty n) (isBoundsDirty n).

Definition set_children (v : list ref) (n : Node) : Node :=
  mkNode (id n) (name n) (type n) (transform n) (parent n) v (visible n)
    (scene n) (bounds n) (properties n) (worldTransform n) (worldBounds n)
    (layer n) (zIndex n) (effects n) (constraints n) (layout n)
    (isDirty n) (isTransformDirty n) (isBoundsDirty n).

Definition set_scene (v : option SceneRef) (n : Node) : Node :=
  mkNode (id n) (name n) (type n) (transform n) (parent n) (children n)
    (visible n) v (bounds n) (properties n) (worldTransform n)
    (worldBounds n) (layer n) (zIndex n) (effects n) (constraints n)
    (layout n) (isDirty n) (isTransformDirty n) (isBoundsDirty n).

Definition set_properties (v : gmap string JS.Value) (n : Node) : Node :=
  mkNode (id n) (name n) (type n) (transform n) (parent n) (children n)
    (visible n) (scene n) (bounds n) v (worldTransform n)
    (worldBounds n) (layer n) (zIndex n) (effects n) (constraints n)
    (layout n) (isDirty n) (isTransformDirty n) (isBoundsDirty n).

Definition set_worldTransform (v : Transform.t) (n : Node) : Node :=
  mkNode (id n) (name n) (type n) (transform n) (parent n) (children n)
    (visible n) (scene n) (bounds n) (properties n) v
    (worldBounds n) (layer n) (zIndex n) (effects n) (constraints n)
    (layout n) (isDirty n) (isTransformDirty n) (isBoundsDirty n).

Definition set_effects (v : list Effect) (n : Node) : Node :=
  mkNode (id n) (name n) (type n) (transform n) (parent n) (children n)
    (visible n) (scene n) (bounds n) (properties n) (worldTransform n)
    (worldBounds n) (layer n) (zIndex n) v (constraints n)
    (layout n) (isDirty n) (isTransformDirty n) (isBoundsDirty n).

Definition set_constraints (v : list Constraint) (n : Node) : Node :=
  mkNode (id n) (name n) (type n) (transform n) (parent n) (children n)
    (visible n) (scene n) (bounds n) (properties n) (worldTransform n)
    (worldBounds n) (layer n) (zIndex n) (effects n) v
    (layout n) (isDirty n) (isTransformDirty n) (isBoundsDirty n).

Definition set_layout (v : option Layout) (n : Node) : Node :=
  mkNode (id n) (name n) (type n) (transform n) (parent n) (children n)
    (visible n) (scene n) (bounds n) (properties n) (worldTransform n)
    (worldBounds n) (layer n) (zIndex n) (effects n) (constraints n)
    v (isDirty n) (isTransformDirty n) (isBoundsDirty n).

Definition set_isDirty (v : bool) (n : Node) : Node :=
  mkNode (id n) (name n) (type n) (transform n) (parent n) (children n)
    (visible n) (scene n) (bounds n) (properties n) (worldTransform n)
    (worldBounds n) (layer n) (zIndex n) (effects n) (constraints n)
    (layout n) v (isTransformDirty n) (isBoundsDirty n).

Definition set_isTransformDirty (v : bool) (n : Node) : Node :=
  mkNode (id n) (name n) (type n) (transform n) (parent n) (children n)
    (visible n) (scene n) (bounds n) (properties n) (worldTransform n)
    (worldBounds n) (layer n) (zIndex n) (effects n) (constraints n)
    (layout n) (isDirty n) v (isBoundsDirty n).

Definition set_isBoundsDirty (v : bool) (n : Node) : Node :=
  mkNode (id n) (name n) (type n) (transform n) (parent n) (children n)
    (visible n) (scene n) (bounds n) (properties n) (worldTransform n)
    (worldBounds n) (layer n) (zIndex n) (effects n) (constraints n)
    (layout n) (isDirty n) (isTransformDirty n) v.

(** What [scene.spatialIndex] holds: the empty [Map] that the Scene
    constructor creates, or the [QuadTree] that [clear()] assigns. *)
Inductive SpatialIndex :=
| JsMap
| JsQuadTree (q : QuadTree.t).

(** The [Scene] object: the root, the id-map [nodes], the [Set] of
    selected nodes, the spatial index and the [Set] of dirty nodes. *)
Record Scene := mkScene {
  root : option ref;
  nodes : gmap Id ref;
  selectedNodes : list ref;
  sceneTransform : Transform.t;
  spatialIndex : SpatialIndex;
  dirtyNodes : list ref
}.

(** The world: the heap of nodes, the next free reference, the number
    of UUIDs drawn so far, and the scene. *)
Record World := mkWorld {
  heap : gmap ref Node;
  nextRef : ref;
  uuids : nat;
  theScene : Scene
}.

Definition set_heap (h : gmap ref Node) (w : World) : World :=
  mkWorld h (nextRef w) (uuids w) (theScene w).

Definition set_theScene (s : Scene) (w : World) : World :=
  mkWorld (heap w) (nextRef w) (uuids w) s.

(** Assignment to the fields of the node at [r]; a reference that a
    program holds is always live, and for any other reference the heap
    is left as it is. *)
Definition update (r : ref) (g : Node -> Node) (w : World) : World :=
  set_heap (alter g r (heap w)) w.

End Store.

(** ** Scene (class [Scene], in js/tools/PenTool.js)

    [emit] runs the listeners registered for an event inside a
    [try]/[catch]; the Scene registers none, so [emit] has no effect
    on the modelled state. *)

Module Scene.
Import Store.

Definition set_root (v : option ref) (s : Scene) : Scene :=
  mkScene v (nodes s) (selectedNodes s) (sceneTransform s)
          (spatialIndex s) (dirtyNodes s).

Definition set_nodes (v : gmap Id ref) (s : Scene) : Scene :=
  mkScene (root s) v (selectedNodes s) (sceneTransform s)
          (spatialIndex s) (dirtyNodes s).

Definition set_selectedNodes (v : list ref) (s : Scene) : Scene :=
  mkScene (root s) (nodes s) v (sceneTransform s)
          (spatialIndex s) (dirtyNodes s).

(** [new Scene()]. *)
Definition new : Scene :=
  {| root := None; nodes := ∅; selectedNodes := [];
     sceneTransform := Transform.new_default;
     spatialIndex := JsMap; dirtyNodes := [] |}.

(** The world in which nothing but the scene has been constructed. *)
Definition emptyWorld : World :=
  {| heap := ∅; nextRef := 0%nat; uuids := 0%nat; theScene := new |}.

(** [set.delete(node)] on a [Set] of nodes. *)
Definition setDelete (node : ref) (s : list ref) : list ref :=
  filter (fun r => r ≠ node) s.

(** [sceneObserver.onNodeAdded(node)]. *)
Definition onNodeAdded (node : ref) (w : World) : World :=
  match heap w !! node with
  | Some n =>
      set_theScene (set_nodes (<[id n := node]> (nodes (theScene w)))
                              (theScene w)) w
  | None => w
  end.

(** [sceneObserver.onNodeRemoved(node)]. *)
Definition onNodeRemoved (node : ref) (w : World) : World :=
  match heap w !! node with
  | Some n =>
      let s1 := set_nodes (delete (id n) (nodes (theScene w))) (theScene w) in
      let s2 := set_selectedNodes (setDelete node (selectedNodes s1)) s1 in
      set_theScene s2 w
  | None => w
  end.

(** [addNode(node, parent = this.root)]; [parentArg] is [None] when
    the argument is omitted and [Some p] when [p] (possibly [null]) is
    passed. *)
Definition addNode (node : ref) (parentArg : option (option ref))
    (w : World) : World :=
  let parent0 := default (root (theScene w)) parentArg in
  let w1 :=
    match root (theScene w) with
    | None => set_theScene (set_root (Some node) (theScene w)) w
    | Some _ =>
        match parent0 with
        | Some p =>
            if bool_decide (p ≠ node) then
              match heap w !! p with
              | Some pn =>
                  if bool_decide (node ∈ children pn) then w
                  else
                    update node (set_parent (Some p))
                      (update p (fun n => set_children (children n ++ [node]) n) w)
              | None => w
              end
            else w
        | None => w
        end
    end in
  let w2 := update node (set_scene (Some TheScene)) w1 in
  match heap w2 !! node with
  | Some n =>
      set_theScene (set_nodes (<[id n := node]> (nodes (theScene w2)))
                              (theScene w2)) w2
  | None => w2
  end.

(** [removeNode(node)]. *)
Definition removeNode (node : ref) (w : World) : World :=
  let w1 :=
    if bool_decide (Some node = root (theScene w))
    then set_theScene (set_root None (theScene w)) w
    else w in
  let w2 := update node (set_scene None) w1 in
  onNodeRemoved node w2.

(** [getNodeById(id)]. *)
Definition getNodeById (i : Id) (w : World) : option ref :=
  nodes (theScene w) !! i.

(** A node is registered when the id-map sends its id to it. *)
Definition registered (w : World) (node : ref) : Prop :=
  exists n, heap w !! node = Some n /\ nodes (theScene w) !! id n = Some node.

(** The [options] object of [queryRegion]; a missing key reads as
    [undefined]. *)
Record QueryOptions := mkOptions {
  qtype : JS.Value;
  qlayer : JS.Value;
  qtag : JS.Value;
  qvisible : JS.Value
}.

(** [options = {}]. *)
Definition noOptions : QueryOptions :=
  mkOptions JS.Undefined JS.Undefined JS.Undefined JS.Undefined.

(** [nodeMatchesQuery(node, options)].  A [SceneNode] has no [tags]
    property, so [node.tags.has(...)] reads a property of
    [undefined]. *)
Definition nodeMatchesQuery (n : Node) (options : QueryOptions)
    : JS.Outcome bool :=
  if JS.truthy (qtype options)
     && negb (JS.strictEq (type n) (qtype options)) then JS.Return false
  else if JS.truthy (qlayer options)
     && negb (JS.strictEq (layer n) (qlayer options)) then JS.Return false
  else if JS.truthy (qtag options) then JS.Throw JS.TypeError
  else if negb (JS.strictEq (qvisible options) JS.Undefined)
     && negb (JS.strictEq (JS.Bool (visible n)) (qvisible options))
  then JS.Return false
  else JS.Return true.

(** The methods of the object held by [spatialIndex]: those of the
    built-in [Map], or those that class [QuadTree] declares. *)
Definition methods (si : SpatialIndex) : list string :=
  match si with
  | JsMap =>
      ["get"; "set"; "has"; "delete"; "clear"; "forEach";
       "keys"; "values"; "entries"]
  | JsQuadTree _ =>
      ["clear"; "split"; "getIndices"; "insert"; "remove"; "update";
       "getPotentialColliders"; "retrieve"; "queryRadius"; "queryRay";
       "rayIntersectsAABB"; "getStats"]
  end.

Definition hasMethod (si : SpatialIndex) (m : string) : bool :=
  existsb (String.eqb m) (methods si).

(** [set.add(node)] on a [Set] of nodes, in insertion order. *)
Definition setAdd (s : list ref) (node : ref) : list ref :=
  if bool_decide (node ∈ s) then s else s ++ [node].

Section QueryRegion.

(** What a [query] method would return, for a spatial index that had
    one; neither [Map] nor [QuadTree] does. *)
Variable queryResult : SpatialIndex -> AABB.t -> list ref.

(** [this.spatialIndex.query(bounds)]: calling a method the receiver
    does not have is a [TypeError]. *)
Definition callQuery (si : SpatialIndex) (bounds : AABB.t)
    : JS.Outcome (list ref) :=
  if hasMethod si "query" then JS.Return (queryResult si bounds)
  else JS.Throw JS.TypeError.

(** [queryRegion(bounds, options = {})]. *)
Definition queryRegion (w : World) (bounds : AABB.t)
    (options : QueryOptions) : JS.Outcome (list ref) :=
  candidates ← callQuery (spatialIndex (theScene w)) bounds;
  fold_left
    (fun acc node =>
       result ← acc;
       match heap w !! node with
       | Some n =>
           m ← nodeMatchesQuery n options;
           JS.Return (if m : bool then setAdd result node else result)
       | None => JS.Throw JS.TypeError
       end)
    candidates (JS.Return []).

End QueryRegion.

(** [selectNode(node)]. *)
Definition selectNode (node : ref) (w : World) : World :=
  if bool_decide (node ∈ selectedNodes (theScene w)) then w
  else set_theScene
         (set_selectedNodes (selectedNodes (theScene w) ++ [node]) (theScene w)) w.

(** [deselectNode(node)]. *)
Definition deselectNode (node : ref) (w : World) : World :=
  if bool_decide (node ∈ selectedNodes (theScene w)) then
    set_theScene
      (set_selectedNodes (setDelete node (selectedNodes (theScene w)))
                         (theScene w)) w
  else w.

(** [clearSelection()]. *)
Definition clearSelection (w : World) : World :=
  if (0 <? length (selectedNodes (theScene w)))%nat then
    set_theScene (set_selectedNodes [] (theScene w)) w
  else w.

(** The [options] of [traverse] as its callers pass them: a boolean
    for [visibleOnly], and a number for [maxDepth] ([None] when the
    key is missing). *)
Record TraverseOptions := mkTraverseOptions {
  visibleOnly : bool;
  maxDepth : option Q
}.

(** [options.maxDepth && depth > options.maxDepth]: zero is falsy. *)
Definition beyondMaxDepth (options : TraverseOptions) (depth : nat) : bool :=
  match maxDepth options with
  | Some q => negb (Num.eqb q 0) && Num.gtb (inject_Z (Z.of_nat depth)) q
  | None => false
  end.

(** The closure [traverseNode(node, depth = 0)] of [traverse], for a
    callback that leaves the graph alone: the calls
    [callback(child, depth + 1)] it makes, in order.  [fuel] bounds the
    depth of the recursion. *)
Fixpoint traverseNode (fuel : nat) (w : World) (options : TraverseOptions)
    (node : ref) (depth : nat) : JS.Outcome (list (ref * nat)) :=
  match fuel with
  | O => JS.OutOfFuel
  | S fuel' =>
      match heap w !! node with
      | None => JS.Throw JS.TypeError
      | Some n =>
          if visibleOnly options && negb (visible n) then JS.Return []
          else if beyondMaxDepth options depth then JS.Return []
          else
            fold_left
              (fun acc child =>
                 visits ← acc;
                 below ← traverseNode fuel' w options child (S depth);
                 JS.Return (visits ++ (child, S depth) :: below))
              (children n) (JS.Return [])
      end
  end.

(** [traverse(callback, options = {})] on a scene that has a root:
    [callback(this.root, 0)], then [traverseNode(this.root)]. *)
Definition traverseFrom (fuel : nat) (w : World) (options : TraverseOptions)
    (root0 : ref) : JS.Outcome (list (ref * nat)) :=
  below ← traverseNode fuel w options root0 0;
  JS.Return ((root0, 0%nat) :: below).

End Scene.

(** ** SceneNode (class [SceneNode]) *)

Module SceneNode.
Import Store.

(** The [properties] every node starts with. *)
Definition coreProperties : gmap string JS.Value :=
  <["visible" := JS.Bool true]>
  (<["locked" := JS.Bool false]>
  (<["opacity" := JS.Number 1]>
  (<["blendMode" := JS.Str "normal"]> ∅))).

(** [new SceneNode(id = crypto.randomUUID())]: [idArg] is [None] when
    no argument is passed.  [this.type] is not set, so
    [initializeByType] takes no branch. *)
Definition new (idArg : option Id) (w : World) : World * ref :=
  let r := nextRef w in
  let '(i, u) :=
    match idArg with
    | Some i => (i, uuids w)
    | None => (Uuid (uuids w), S (uuids w))
    end in
  let n :=
    {| id := i; name := EmptyString; type := JS.Undefined;
       transform := Transform.new_default;
       parent := None; children := []; visible := true; scene := None;
       bounds := AABB.new 0 0 0 0;
       properties := coreProperties;
       worldTransform := Transform.new_default;
       worldBounds := AABB.new 0 0 0 0;
       layer := JS.Number 0; zIndex := 0;
       effects := []; constraints := []; layout := None;
       isDirty := true; isTransformDirty := true; isBoundsDirty := true |} in
  ({| heap := <[r := n]> (heap w); nextRef := S r; uuids := u;
      theScene := theScene w |}, r).

(** [updateTransform()].  The world transform of the parent is read
    as it is cached; the parent is another node than [this], so its
    world transform is another object than the one being written. *)
Definition updateTransform (this : ref) (w : World) : World :=
  match heap w !! this with
  | None => w
  | Some n =>
      if negb (isTransformDirty n) then w
      else
        let wt1 := Transform.copy (worldTransform n) (transform n) in
        let wt2 :=
          match parent n with
          | Some p =>
              match heap w !! p with
              | Some pn => Transform.multiply wt1 (worldTransform pn)
              | None => wt1
              end
          | None => wt1
          end in
        let w1 := update this (set_worldTransform wt2) w in
        let w2 :=
          fold_left (fun acc child => update child (set_isTransformDirty true) acc)
                    (children n) w1 in
        let w3 := update this (set_isTransformDirty false) w2 in
        update this (set_isBoundsDirty true) w3
  end.

(** [array.splice(array.indexOf(x), 1)] when [x] occurs. *)
Fixpoint removeFirst (x : ref) (l : list ref) : list ref :=
  match l with
  | [] => []
  | y :: l' => if bool_decide (y = x) then l' else y :: removeFirst x l'
  end.

(** [removeChild(child)]. *)
Definition removeChild (this child : ref) (w : World) : World :=
  match heap w !! this with
  | None => w
  | Some n =>
      if bool_decide (child ∈ children n) then
        let w1 := update this (fun m => set_children (removeFirst child (children m)) m) w in
        let w2 := update child (set_parent None) w1 in
        let w3 := update this (set_isBoundsDirty true) w2 in
        match scene n with
        | Some TheScene => Scene.onNodeRemoved child w3
        | None => w3
        end
      else w
  end.

(** [addChild(child)]. *)
Definition addChild (this child : ref) (w : World) : World :=
  let w1 :=
    match heap w !! child with
    | Some c =>
        match parent c with
        | Some p => removeChild p child w
        | None => w
        end
    | None => w
    end in
  let w2 := update child (set_parent (Some this)) w1 in
  let w3 := update this (fun m => set_children (children m ++ [child]) m) w2 in
  let w4 := update child (set_isTransformDirty true) w3 in
  let w5 := update this (set_isBoundsDirty true) w4 in
  match heap w5 !! this with
  | Some n =>
      match scene n with
      | Some TheScene => Scene.onNodeAdded child w5
      | None => w5
      end
  | None => w5
  end.

(** [addEffect(effect)]. *)
Definition addEffect (this : ref) (effect : Effect) (w : World) : World :=
  let w1 :=
    update this
      (fun m => set_effects (effects m ++ [mkEffect (etype effect) (Some this)]) m) w in
  let w2 := update this (set_isDirty true) w1 in
  update this (set_isBoundsDirty true) w2.

(** [addConstraint(constraint)]. *)
Definition addConstraint (this : ref) (constraint : Constraint) (w : World)
    : World :=
  update this
    (fun m => set_constraints (constraints m ++ [mkConstraint (Some this)]) m) w.

(** [setLayout(layout)]; disposing the previous layout has no effect on
    the modelled state. *)
Definition setLayout (this : ref) (l : option Layout) (w : World) : World :=
  update this
    (set_layout (match l with
                 | Some _ => Some (mkLayout (Some this))
                 | None => None
                 end)) w.

(** [effect.clone()], [constraint.clone()] and [layout.clone()]: a new
    object of the same kind, attached to no node yet. *)
Definition cloneEffect (e : Effect) : Effect := mkEffect (etype e) None.
Definition cloneConstraint (c : Constraint) : Constraint := mkConstraint None.
Definition cloneLayout (l : Layout) : Layout := mkLayout None.

(** [clone(deep = true)].  [fuel] bounds the depth of the recursion
    into the children. *)
Fixpoint clone (fuel : nat) (this : ref) (deep : bool) (w : World)
    : JS.Outcome (World * ref) :=
  match fuel with
  | O => JS.OutOfFuel
  | S fuel' =>
      match heap w !! this with
      | None => JS.Throw JS.TypeError
      | Some n =>
          let '(w1, c) := new (Some (id n)) w in
          let w2 := update c (set_properties (properties n)) w1 in
          let w3 :=
            update c (fun m => set_transform
                                 (Transform.copy (transform m) (transform n)) m) w2 in
          let w4 :=
            fold_left (fun acc e => addEffect c (cloneEffect e) acc)
                      (effects n) w3 in
          let w5 :=
            fold_left (fun acc k => addConstraint c (cloneConstraint k) acc)
                      (constraints n) w4 in
          let w6 :=
            match layout n with
            | Some l => setLayout c (Some (cloneLayout l)) w5
            | None => w5
            end in
          if deep then
            w7 ← fold_left
                   (fun acc child =>
                      wa ← acc;
                      r ← clone fuel' child true wa;
                      JS.Return (addChild c (snd r) (fst r)))
                   (children n) (JS.Return w6);
            JS.Return (w7, c)
          else JS.Return (w6, c)
      end
  end.

(** The loop of [getWorldTransform()]: [current] walks up the parents
    and the fields [x], [y], [rotation], [scaleX] and [scaleY] of each
    are accumulated.  [fuel] bounds the number of turns. *)
Fixpoint accumulate (fuel : nat) (w : World) (worldTransform0 : Transform.t)
    (current : option ref) : JS.Outcome Transform.t :=
  match current with
  | None => JS.Return worldTransform0
  | Some cur =>
      match fuel with
      | O => JS.OutOfFuel
      | S fuel' =>
          match heap w !! cur with
          | None => JS.Throw JS.TypeError
          | Some cn =>
              let parentTransform := transform cn in
              let wt :=
                {| Transform.x := Transform.x worldTransform0
                                  + Transform.x parentTransform;
                   Transform.y := Transform.y worldTransform0
                                  + Transform.y parentTransform;
                   Transform.rotation := Transform.rotation worldTransform0
                                         + Transform.rotation parentTransform;
                   Transform.scaleX := Transform.scaleX worldTransform0
                                       * Transform.scaleX parentTransform;
                   Transform.scaleY := Transform.scaleY worldTransform0
                                       * Transform.scaleY parentTransform;
                   Transform.a := Transform.a worldTransform0;
                   Transform.b := Transform.b worldTransform0;
                   Transform.c := Transform.c worldTransform0;
                   Transform.d := Transform.d worldTransform0;
                   Transform.e := Transform.e worldTransform0;
                   Transform.f := Transform.f worldTransform0;
                   Transform._decomposed := Transform._decomposed worldTransform0;
                   Transform._pooled := Transform._pooled worldTransform0 |} in
              accumulate fuel' w wt (parent cn)
          end
      end
  end.

(** [getWorldTransform()]. *)
Definition getWorldTransform (fuel : nat) (this : ref) (w : World)
    : JS.Outcome Transform.t :=
  match heap w !! this with
  | None => JS.Throw JS.TypeError
  | Some n => accumulate fuel w (Transform.clone (transform n)) (parent n)
  end.

End SceneNode.

(** ** LayerManager (class [LayerManager], in js/core/Effects.js)

    The arrays of the manager hold scene nodes; [getSortedNodes] and
    [getBatchedNodes] only read them, so the model keeps the value of
    each node. *)

Module LayerManager.
Import Store.

Record Layer := mkLayer {
  lid : string;
  lname : string;
  lzIndex : Q;
  lvisible : bool;
  lopacity : Q;
  blendMode : string
}.

(** The [options] of [createLayer]; [None] is a missing key. *)
Record LayerOptions := mkLayerOptions {
  oname : option string;
  ozIndex : option Q;
  ovisible : option bool;
  oopacity : option Q;
  oblendMode : option string
}.

(** One entry of the result of [getSortedNodes]. *)
Record SortedEntry := mkEntry { slayer : Layer; snodes : list Node }.

Record Material := mkMaterial {
  mblendMode : string;
  mopacity : option Q;
  mfill : JS.Value;
  mstroke : JS.Value;
  mstrokeWidth : JS.Value;
  meffects : list Effect
}.

Record Batch := mkBatch {
  blayer : Layer;
  material : Material;
  bnodes : list Node
}.

(** The manager.  The two [Map]s are kept as association lists in
    insertion order, which is the order [Map.values()] iterates in. *)
Record t := mk {
  layers : list (string * Layer);
  nodesByLayer : list (string * list Node);
  _sortedNodes : option (list SortedEntry);
  _sortedNodesVersion : nat;
  _currentVersion : nat
}.

Section JsMap.
Context {V : Type}.

(** [map.get(key)]. *)
Fixpoint mapGet (key : string) (m : list (string * V)) : option V :=
  match m with
  | [] => None
  | (k, v) :: m' => if String.eqb k key then Some v else mapGet key m'
  end.

(** [map.has(key)]. *)
Definition mapHas (key : string) (m : list (string * V)) : bool :=
  match mapGet key m with Some _ => true | None => false end.

(** [map.set(key, value)]: an existing key keeps its position. *)
Fixpoint mapSet (key : string) (v : V) (m : list (string * V))
    : list (string * V) :=
  match m with
  | [] => [(key, v)]
  | (k, v0) :: m' =>
      if String.eqb k key then (k, v) :: m' else (k, v0) :: mapSet key v m'
  end.

(** The effect of mutating the value stored under [key] in place. *)
Fixpoint mapAlter (g : V -> V) (key : string) (m : list (string * V))
    : list (string * V) :=
  match m with
  | [] => []
  | (k, v0) :: m' =>
      if String.eqb k key then (k, g v0) :: m' else (k, v0) :: mapAlter g key m'
  end.

End JsMap.

(** [a || b] on an optional string: the empty string is falsy. *)
Definition orString (a : option string) (b : string) : string :=
  match a with
  | Some s => if String.eqb s EmptyString then b else s
  | None => b
  end.

(** [createLayer(id, options = {})]. *)
Definition createLayer (id0 : string) (options : LayerOptions) (this : t) : t :=
  let layer :=
    {| lid := id0;
       lname := orString (oname options) id0;
       lzIndex := match ozIndex options with
                  | Some z => if Num.eqb z 0 then 0 else z
                  | None => 0
                  end;
       lvisible := default true (ovisible options);
       lopacity := default 1 (oopacity options);
       blendMode := orString (oblendMode options) "normal" |} in
  {| layers := mapSet id0 layer (layers this);
     nodesByLayer := mapSet id0 [] (nodesByLayer this);
     _sortedNodes := _sortedNodes this;
     _sortedNodesVersion := _sortedNodesVersion this;
     _currentVersion := S (_currentVersion this) |}.

(** [initializeDefaultLayers()]. *)
Definition initializeDefaultLayers (this : t) : t :=
  let bg := mkLayerOptions (Some "Background") (Some (-1000)) (Some true)
                           (Some 1) (Some "normal") in
  let df := mkLayerOptions (Some "Layer 1") (Some 0) (Some true)
                           (Some 1) (Some "normal") in
  let ui := mkLayerOptions (Some "UI") (Some 1000) (Some true)
                           (Some 1) (Some "normal") in
  createLayer "ui" ui (createLayer "default" df (createLayer "background" bg this)).

(** [new LayerManager()]. *)
Definition new : t :=
  initializeDefaultLayers
    {| layers := []; nodesByLayer := []; _sortedNodes := None;
       _sortedNodesVersion := 0; _currentVersion := 0 |}.

(** [node.layer || 'default'] as a key of [nodesByLayer]: the keys of
    that [Map] are strings, so a truthy value that is not a string
    finds no entry ([None]). *)
Definition layerIdOf (node : Node) : option string :=
  if JS.truthy (layer node) then
    match layer node with
    | JS.Str s => Some s
    | _ => None
    end
  else Some "default".

(** [addNode(node)]. *)
Definition addNode (node : Node) (this : t) : t :=
  match layerIdOf node with
  | Some layerId =>
      match mapGet layerId (nodesByLayer this) with
      | Some _ =>
          {| layers := layers this;
             nodesByLayer :=
               mapAlter (fun ns => ns ++ [node]) layerId (nodesByLayer this);
             _sortedNodes := _sortedNodes this;
             _sortedNodesVersion := _sortedNodesVersion this;
             _currentVersion := S (_currentVersion this) |}
      | None => this
      end
  | None => this
  end.

Section Sort.
Context {A : Type}.
Variable key : A -> Q.

(** [array.sort((a, b) => key(a) - key(b))].  The sort is stable:
    [x], which stood before every element of the sorted rest [l], goes
    before the first element whose key is not smaller. *)
Fixpoint insertSorted (x : A) (l : list A) : list A :=
  match l with
  | [] => [x]
  | y :: l' =>
      if Num.leb (key x) (key y) then x :: y :: l'
      else y :: insertSorted x l'
  end.

Definition sortBy (l : list A) : list A :=
  fold_right insertSorted [] l.

End Sort.

(** [node.properties.visible], as a condition. *)
Definition propertyVisible (node : Node) : bool :=
  JS.truthy (default JS.Undefined (properties node !! "visible")).

(** The body of [getSortedNodes()] below the cache test. *)
Definition computeSortedNodes (this : t) : list SortedEntry :=
  let sortedLayers := sortBy lzIndex (map snd (layers this)) in
  flat_map
    (fun layer =>
       if negb (lvisible layer) then []
       else
         let nodes := default [] (mapGet (lid layer) (nodesByLayer this)) in
         let sortedNodes :=
           sortBy zIndex (filter (fun n => propertyVisible n = true) nodes) in
         [ {| slayer := layer; snodes := sortedNodes |} ])
    sortedLayers.

(** [getSortedNodes()]: the result and the manager with its cache. *)
Definition getSortedNodes (this : t) : list SortedEntry * t :=
  match _sortedNodes this with
  | Some cached =>
      if (_sortedNodesVersion this =? _currentVersion this)%nat
      then (cached, this)
      else
        let result := computeSortedNodes this in
        (result,
         {| layers := layers this; nodesByLayer := nodesByLayer this;
            _sortedNodes := Some result;
            _sortedNodesVersion := _currentVersion this;
            _currentVersion := _currentVersion this |})
  | None =>
      let result := computeSortedNodes this in
      (result,
       {| layers := layers this; nodesByLayer := nodesByLayer this;
          _sortedNodes := Some result;
          _sortedNodesVersion := _currentVersion this;
          _currentVersion := _currentVersion this |})
  end.

(** A property of the bag; a missing key reads as [undefined]. *)
Definition property (node : Node) (k : string) : JS.Value :=
  default JS.Undefined (properties node !! k).

(** [getBatchKey(node, layer)]. *)
Definition getBatchKey (node : Node) (layer : Layer) : string :=
  JS.join "|"
    [ type node;
      JS.Str (blendMode layer);
      property node "fill";
      property node "stroke";
      property node "strokeWidth";
      JS.Str (JS.join "," (map etype (effects node))) ].

(** [getMaterialProperties(node, layer)].  The product for [opacity]
    is computed when the node's opacity is a number. *)
Definition getMaterialProperties (node : Node) (layer : Layer) : Material :=
  {| mblendMode := blendMode layer;
     mopacity := match property node "opacity" with
                 | JS.Number q => Some (lopacity layer * q)
                 | _ => None
                 end;
     mfill := property node "fill";
     mstroke := property node "stroke";
     mstrokeWidth := property node "strokeWidth";
     meffects := effects node |}.

(** One turn of the inner loop of [getBatchedNodes()]. *)
Definition addToBatches (batches : list (string * Batch))
    (layer : Layer) (node : Node) : list (string * Batch) :=
  let key := getBatchKey node layer in
  let batches1 :=
    if negb (mapHas key batches) then
      mapSet key {| blayer := layer;
                    material := getMaterialProperties node layer;
                    bnodes := [] |} batches
    else batches in
  mapAlter (fun b => mkBatch (blayer b) (material b) (bnodes b ++ [node]))
           key batches1.

(** The stream that the two loops of [getBatchedNodes()] walk: every
    node of the sorted entries with the layer of its entry. *)
Definition stream (sorted : list SortedEntry) : list (Layer * Node) :=
  flat_map (fun en => map (fun n => (slayer en, n)) (snodes en)) sorted.

(** The batches built from the sorted entries. *)
Definition batchesOf (sorted : list SortedEntry) : list (string * Batch) :=
  fold_left
    (fun batches en =>
       fold_left (fun bs node => addToBatches bs (slayer en) node)
                 (snodes en) batches)
    sorted [].

(** [getBatchedNodes()]: the batches and the manager with its cache. *)
Definition getBatchedNodes (this : t) : list Batch * t :=
  let '(sortedNodes, this') := getSortedNodes this in
  (map snd (batchesOf sortedNodes), this').

(** One turn of the loops, on an element of the stream. *)
Definition step (batches : list (string * Batch)) (ln : Layer * Node)
    : list (string * Batch) :=
  addToBatches batches (fst ln) (snd ln).

(** The keys of the batches with the nodes of each. *)
Definition view (batches : list (string * Batch)) : list (string * list Node) :=
  map (fun kb => (fst kb, bnodes (snd kb))) batches.

(** The paint order: the nodes of the sorted stream. *)
Definition paintOrder (this : t) : list Node :=
  flat_map snodes (fst (getSortedNodes this)).

(** The order in which the batches list the nodes. *)
Definition batchOrder (this : t) : list Node :=
  flat_map bnodes (fst (getBatchedNodes this)).

(** The key of an element of the stream. *)
Definition keyOf (ln : Layer * Node) : string := getBatchKey (snd ln) (fst ln).

(** The keys of a stream in the order of their first occurrence. *)
Fixpoint firstKeys (ks : list string) : list string :=
  match ks with
  | [] => []
  | k :: ks' => k :: filter (fun k' => k' ≠ k) (firstKeys ks')
  end.

(** The nodes of a stream that carry the key [k], in stream order. *)
Definition nodesWithKey (s : list (Layer * Node)) (k : string) : list Node :=
  map snd (filter (fun ln => keyOf ln = k) s).

(** The batching that the specification describes: only adjacent nodes
    that share a key are merged into one run. *)
Fixpoint mergeAdjacentRuns (s : list (Layer * Node)) : list (string * list Node) :=
  match s with
  | [] => []
  | ln :: s' =>
      match mergeAdjacentRuns s' with
      | (k, ns) :: runs =>
          if String.eqb (keyOf ln) k then (k, snd ln :: ns) :: runs
          else (keyOf ln, [snd ln]) :: (k, ns) :: runs
      | [] => [(keyOf ln, [snd ln])]
      end
  end.

(** No key comes back after a node with another key. *)
Fixpoint keysAdjacent (ks : list string) : bool :=
  match ks with
  | [] => true
  | k :: ks' =>
      match ks' with
      | [] => true
      | k' :: _ =>
          (String.eqb k k' || negb (existsb (String.eqb k) ks')) && keysAdjacent ks'
      end
  end.

(** [map.delete(key)]. *)
Fixpoint mapDelete {V : Type} (key : string) (m : list (string * V))
    : list (string * V) :=
  match m with
  | [] => []
  | (k, v) :: m' =>
      if String.eqb k key then mapDelete key m' else (k, v) :: mapDelete key m'
  end.

(** [node.layer = v]. *)
Definition set_layer (v : JS.Value) (n : Node) : Node :=
  mkNode (id n) (name n) (type n) (transform n) (parent n) (children n)
    (visible n) (scene n) (bounds n) (properties n) (worldTransform n)
    (worldBounds n) v (zIndex n) (effects n) (constraints n) (layout n)
    (isDirty n) (isTransformDirty n) (isBoundsDirty n).

(** [deleteLayer(id)].  [defaultNodes.push(...nodes)] reads a property
    of [undefined] when there is no ['default'] entry.  The nodes of
    the deleted layer are the objects pushed to the default layer, so
    the assignment [node.layer = 'default'] shows there.  The cached
    list is not touched; the version moves on. *)
Definition deleteLayer (id0 : string) (this : t) : JS.Outcome t :=
  let nodes := default [] (mapGet id0 (nodesByLayer this)) in
  match mapGet "default" (nodesByLayer this) with
  | None => JS.Throw JS.TypeError
  | Some _ =>
      let moved := map (set_layer (JS.Str "default")) nodes in
      JS.Return
        {| layers := mapDelete id0 (layers this);
           nodesByLayer :=
             mapDelete id0
               (mapAlter (fun ns => ns ++ moved) "default" (nodesByLayer this));
           _sortedNodes := _sortedNodes this;
           _sortedNodesVersion := _sortedNodesVersion this;
           _currentVersion := S (_currentVersion this) |}
  end.

(** [getLayer(id)]. *)
Definition getLayer (id0 : string) (this : t) : option Layer :=
  mapGet id0 (layers this).

(** [clear()]. *)
Definition clear (this : t) : t :=
  initializeDefaultLayers
    {| layers := []; nodesByLayer := []; _sortedNodes := None;
       _sortedNodesVersion := _sortedNodesVersion this;
       _currentVersion := S (_currentVersion this) |}.

End LayerManager.

(** ** Renderer selection (class [RenderingEngine]) *)

Module RenderingEngine.

(** The render strategies held by [this.strategies]. *)
Inductive Strategy := webgl | canvas | hybrid.

(** The part of [this.state] that the selection reads. *)
Record State := mkState {
  isWebGLEnabled : bool;
  renderMode : string;
  dirty : bool
}.

(** The engine with what its collaborators report for the frame:
    [perfMonitor.getMetrics().fps] and [scene.getComplexityScore()]. *)
Record t := mk {
  state : State;
  fps : Q;
  complexity : Q
}.

(** [this.strategies[key]]. *)
Definition strategies (key : string) : option Strategy :=
  if String.eqb key "webgl" then Some webgl
  else if String.eqb key "canvas" then Some canvas
  else if String.eqb key "hybrid" then Some hybrid
  else None.

(** [getOptimalRenderer()]. *)
Definition getOptimalRenderer (this : t) : Strategy :=
  if Num.gtb (complexity this) 1000 && isWebGLEnabled (state this)
     && Num.gtb (fps this) 30 then webgl
  else if Num.gtb (complexity this) 500 && isWebGLEnabled (state this) then hybrid
  else canvas.

(** [getCurrentRenderer()]; [None] is [undefined]. *)
Definition getCurrentRenderer (this : t) : option Strategy :=
  if String.eqb (renderMode (state this)) "auto"
  then Some (getOptimalRenderer this)
  else strategies (renderMode (state this)).

(** A property of a plain object: a primitive value, or a function of
    the renderer. *)
Inductive Property :=
| Data (v : JS.Value)
| Method (body : Strategy -> JS.Outcome unit).

(** [this.state.transform]: the object literal
    [{ scale: 1, x: 0, y: 0 }] of the constructor, which no statement
    assigns again. *)
Definition stateTransform : list (string * Property) :=
  [("scale", Data (JS.Number 1)); ("x", Data (JS.Number 0));
   ("y", Data (JS.Number 0))].

(** [object.name(renderer)] on a plain object: a missing property
    reads as [undefined], and neither [undefined] nor a primitive value
    can be called. *)
Definition callMethod (object : list (string * Property)) (name : string)
    (renderer : Strategy) : JS.Outcome unit :=
  match LayerManager.mapGet name object with
  | Some (Method body) => body renderer
  | _ => JS.Throw JS.TypeError
  end.

(** The methods that class [RenderingEngine] declares. *)
Definition methods : list string :=
  ["initialize"; "initializeWebGL"; "setupEventHandling"; "startRenderLoop";
   "updateSystems"; "render"; "getCurrentRenderer"; "getOptimalRenderer";
   "beginBatch"; "endBatch"; "handleContextLoss"; "tryRestoreContext";
   "handleResize"; "pause"; "resume"; "dispose"].

(** [this.name.bind(this)]: a name that the class does not declare
    reads as [undefined], whose property [bind] cannot be read. *)
Definition bindMethod (name : string) : JS.Outcome string :=
  if existsb (String.eqb name) methods then JS.Return name
  else JS.Throw JS.TypeError.

Section Collaborators.

(** The calls into the collaborators, with what each of them does:
    [renderer.beginBatch()], [this.viewport.apply(renderer)],
    [this.pipeline.execute(...)], [renderer.endBatch()] followed by
    [renderer.flush()], [new EventManager()], [debounce(...)] and
    [addEventListener(type, ...)]. *)
Variable rendererBeginBatch : Strategy -> JS.Outcome unit.
Variable viewportApply : Strategy -> JS.Outcome unit.
Variable pipelineExecute : option Strategy -> JS.Outcome unit.
Variable rendererEndBatch : Strategy -> JS.Outcome unit.
Variable newEventManager : JS.Outcome unit.
Variable debounce : JS.Outcome unit.
Variable addEventListener : string -> JS.Outcome unit.

(** [beginBatch()]. *)
Definition beginBatch (this : t) : JS.Outcome unit :=
  match getCurrentRenderer this with
  | None => JS.Throw JS.TypeError
  | Some renderer =>
      _ ← rendererBeginBatch renderer;
      _ ← viewportApply renderer;
      callMethod stateTransform "apply" renderer
  end.

(** [endBatch()]. *)
Definition endBatch (this : t) : JS.Outcome unit :=
  match getCurrentRenderer this with
  | None => JS.Throw JS.TypeError
  | Some renderer => rendererEndBatch renderer
  end.

(** [render()]. *)
Definition render (this : t) : JS.Outcome unit :=
  _ ← beginBatch this;
  _ ← pipelineExecute (getCurrentRenderer this);
  endBatch this.

(** [setupEventHandling()]. *)
Definition setupEventHandling : JS.Outcome unit :=
  _ ← newEventManager;
  _ ← bindMethod "handleResize";
  _ ← debounce;
  _ ← addEventListener "resize";
  _ ← addEventListener "visibilitychange";
  _ ← bindMethod "handleContextLoss";
  _ ← addEventListener "webglcontextlost";
  _ ← bindMethod "handleContextRestore";
  addEventListener "webglcontextrestored".

End Collaborators.

(** The engine with its frame loop: [frameRequest] is [true] while a
    frame is requested. *)
Record Loop := mkLoop {
  engine : t;
  frameRequest : bool
}.

Definition set_state (st : State) (l : Loop) : Loop :=
  mkLoop (mk st (fps (engine l)) (complexity (engine l))) (frameRequest l).

(** [pause()]. *)
Definition pause (l : Loop) : Loop :=
  if frameRequest l then mkLoop (engine l) false else l.

(** [resume()]; [startRenderLoop()] requests a frame. *)
Definition resume (l : Loop) : Loop :=
  if negb (frameRequest l) then mkLoop (engine l) true else l.

(** [tryRestoreContext()], once its promise has settled;
    [restored] tells whether [initializeWebGL] succeeded. *)
Definition tryRestoreContext (restored : bool) (l : Loop) : Loop :=
  let st := state (engine l) in
  if restored then
    resume (set_state (mkState true (renderMode st) (dirty st)) l)
  else set_state (mkState (isWebGLEnabled st) "canvas" (dirty st)) l.

(** [handleContextLoss(event)] with the restore it starts. *)
Definition handleContextLoss (restored : bool) (l : Loop) : Loop :=
  let l1 := pause l in
  let st := state (engine l1) in
  let l2 := set_state (mkState false (renderMode st) (dirty st)) l1 in
  tryRestoreContext restored l2.

End RenderingEngine.

(** ** Predicates and scenarios used by the properties *)

Module Chain.
Import Store.

(** The matrix of a transform is the translation by [(tx, ty)]. *)
Definition isTranslation (T : Transform.t) (tx ty : Q) : bool :=
  Num.eqb (Transform.a T) 1 && Num.eqb (Transform.b T) 0
  && Num.eqb (Transform.c T) 0 && Num.eqb (Transform.d T) 1
  && Num.eqb (Transform.e T) tx && Num.eqb (Transform.f T) ty.

(** The node at [r] has parent [p], a local transform that translates
    by [(tx, ty)], and is transform-dirty. *)
Definition dirtyTranslated (w : World) (r : ref) (p : option ref)
    (tx ty : Q) : bool :=
  match heap w !! r with
  | Some n =>
      bool_decide (parent n = p) && isTranslation (transform n) tx ty
      && isTransformDirty n
  | None => false
  end.

(** The cached world transform of the node at [r] is the identity
    matrix, as the constructor leaves it. *)
Definition worldIsIdentity (w : World) (r : ref) : bool :=
  match heap w !! r with
  | Some n => isTranslation (worldTransform n) 0 0
  | None => false
  end.

(** The X translation component of the world transform of the node at
    [r] is [v]. *)
Definition worldX (w : World) (r : ref) (v : Q) : Prop :=
  exists n, heap w !! r = Some n /\ Transform.e (worldTransform n) == v.

(** What the loop that marks the children dirty leaves of a node: the
    node itself, or the node with its transform flag set. *)
Definition markedFrom (m m' : Node) : Prop :=
  m' = m \/ m' = set_isTransformDirty true m.

(** The world transform that [updateTransform] stores: the local
    transform, multiplied by the cached world transform of the parent
    when there is one. *)
Definition composedWith (w : World) (n : Node) : Transform.t :=
  let wt1 := Transform.copy (worldTransform n) (transform n) in
  match parent n with
  | Some p =>
      match heap w !! p with
      | Some pn => Transform.multiply wt1 (worldTransform pn)
      | None => wt1
      end
  | None => wt1
  end.

End Chain.

Module Scenarios.
Import Store.

(** Ten unit boxes in the top-left quadrant of (0, 0, 100, 100) and
    one box across its centre. *)
Definition smallBoxes : list QuadTree.Obj :=
  map (fun i => QuadTree.mkObj i
                  (AABB.new (inject_Z (Z.of_nat i)) (inject_Z (Z.of_nat i)) 1 1))
      (seq 1 10).

Definition centreBox : QuadTree.Obj := QuadTree.mkObj 11 (AABB.new 40 40 20 20).


(** [node.transform.translate(tx, ty)]. *)
Definition translateNode (r : ref) (tx ty : Q) (w : World) : World :=
  update r (fun n => set_transform (Transform.translate (transform n) tx ty) n) w.

(** Three nodes as constructed, each translated by (10, 0), linked
    root -> child -> grandchild with [addChild]. *)
Definition chainWorld : World :=
  let '(w1, r) := SceneNode.new None Scene.emptyWorld in
  let '(w2, c) := SceneNode.new None w1 in
  let '(w3, g) := SceneNode.new None w2 in
  let w4 := translateNode g 10 0 (translateNode c 10 0 (translateNode r 10 0 w3)) in
  SceneNode.addChild c g (SceneNode.addChild r c w4).

Definition chainRoot : ref := 0%nat.
Definition chainChild : ref := 1%nat.
Definition chainGrandchild : ref := 2%nat.

(** A scene with a root and one child, both added with [addNode]. *)
Definition familyWorld : World :=
  let '(w1, r) := SceneNode.new None Scene.emptyWorld in
  let '(w2, c) := SceneNode.new None w1 in
  Scene.addNode c None (Scene.addNode r None w2).

Definition familyRoot : ref := 0%nat.
Definition familyChild : ref := 1%nat.

(** A node as the constructor leaves it, named, with a fill colour and
    a z-index. *)
Definition paintedNode (i : nat) (nm fill : string) (z : Q) : Node :=
  {| id := Uuid i; name := nm; type := JS.Undefined;
     transform := Transform.new_default;
     parent := None; children := []; visible := true; scene := None;
     bounds := AABB.new 0 0 0 0;
     properties := <["fill" := JS.Str fill]> SceneNode.coreProperties;
     worldTransform := Transform.new_default;
     worldBounds := AABB.new 0 0 0 0;
     layer := JS.Number 0; zIndex := z;
     effects := []; constraints := []; layout := None;
     isDirty := true; isTransformDirty := true; isBoundsDirty := true |}.

(** Three nodes on the default layer: red, blue, red from back to
    front. *)
Definition interleavedLayers : LayerManager.t :=
  LayerManager.addNode (paintedNode 2 "C" "red" 2)
    (LayerManager.addNode (paintedNode 1 "B" "blue" 1)
       (LayerManager.addNode (paintedNode 0 "A" "red" 0) LayerManager.new)).

(** Three nodes on the default layer: red, red, blue from back to
    front. *)
Definition groupedLayers : LayerManager.t :=
  LayerManager.addNode (paintedNode 2 "B" "blue" 2)
    (LayerManager.addNode (paintedNode 1 "C" "red" 1)
       (LayerManager.addNode (paintedNode 0 "A" "red" 0) LayerManager.new)).

End Scenarios.

Module Heap.
Import Store.

(** The allocator invariant: no node lives at or above the next free
    reference. *)
Definition wf (w : World) : Prop :=
  forall r : ref, (nextRef w <= r)%nat -> heap w !! r = None.

(** The same, as a test on the entries of the heap. *)
Definition wfb (w : World) : bool :=
  forallb (fun p => (fst p <? nextRef w)%nat) (map_to_list (heap w)).

(** The subtree below [r] is made of live nodes and has depth at most
    [d]. *)
Fixpoint treeDepth (d : nat) (w : World) (r : ref) : bool :=
  match heap w !! r with
  | None => false
  | Some n =>
      match d with
      | O => bool_decide (children n = [])
      | S d' => forallb (treeDepth d' w) (children n)
      end
  end.

(** What [clone(deep)] needs of the receiver: a live node, and for a
    deep clone a subtree of depth at most [d]. *)
Definition cloneable (d : nat) (w : World) (r : ref) (deep : bool) : bool :=
  if deep then treeDepth d w r else bool_decide (is_Some (heap w !! r)).

(** The fields of a node that cloning its children never changes. *)
Definition sameCore (m m' : Node) : Prop :=
  id m' = id m /\ parent m' = parent m /\ scene m' = scene m.

(** [w'] differs from [w] at most in the node at [c], which keeps its
    id, parent and scene. *)
Definition touches (c : ref) (w w' : World) : Prop :=
  nextRef w' = nextRef w /\ uuids w' = uuids w /\ theScene w' = theScene w
  /\ (forall r : ref, r <> c -> heap w' !! r = heap w !! r)
  /\ option_Forall2 sameCore (heap w !! c) (heap w' !! c).

(** The result [(w', c)] of cloning the node at [this] in [w]: [c] is
    a new reference, the nodes of [w] are as they were, and the node
    at [c] carries the id of the node at [this], with no parent and no
    scene. *)
Definition cloned (w : World) (this : ref) (w' : World) (c : ref) : Prop :=
  c = nextRef w /\ wf w' /\ (S (nextRef w) <= nextRef w')%nat
  /\ theScene w' = theScene w
  /\ (forall r : ref, (r < nextRef w)%nat -> heap w' !! r = heap w !! r)
  /\ exists n nc, heap w !! this = Some n /\ heap w' !! c = Some nc
                  /\ id nc = id n /\ parent nc = None /\ scene nc = None.

(** The state of a clone [c] of the node [n] while its children are
    being cloned into it. *)
Definition cloning (w : World) (n : Node) (c : ref) (wa : World) : Prop :=
  wf wa /\ (S c <= nextRef wa)%nat /\ theScene wa = theScene w
  /\ (forall r : ref, (r < c)%nat -> heap wa !! r = heap w !! r)
  /\ exists nc, heap wa !! c = Some nc
                /\ id nc = id n /\ parent nc = None /\ scene nc = None.

End Heap.

Module Session.
Import Store LayerManager.

(** The calls a client makes on a [LayerManager]. *)
Inductive Call :=
| CreateLayer (id0 : string) (options : LayerOptions)
| DeleteLayer (id0 : string)
| AddNode (node : Node)
| GetSortedNodes
| GetBatchedNodes
| Clear.

Definition call (c : Call) (this : t) : JS.Outcome t :=
  match c with
  | CreateLayer id0 options => JS.Return (createLayer id0 options this)
  | DeleteLayer id0 => deleteLayer id0 this
  | AddNode node => JS.Return (addNode node this)
  | GetSortedNodes => JS.Return (snd (getSortedNodes this))
  | GetBatchedNodes => JS.Return (snd (getBatchedNodes this))
  | Clear => JS.Return (clear this)
  end.

(** The manager after a sequence of calls on a new manager. *)
Definition run (cs : list Call) : JS.Outcome t :=
  fold_left (fun acc c => this ← acc; call c this) cs (JS.Return LayerManager.new).

(** The cache invariant: the cached version is not ahead, and a cache
    that carries the current version holds the freshly computed
    list. *)
Definition cacheValid (this : t) : Prop :=
  (_sortedNodesVersion this <= _currentVersion this)%nat
  /\ forall cached,
       _sortedNodes this = Some cached ->
       _sortedNodesVersion this = _currentVersion this ->
       cached = computeSortedNodes this.

(** A session: a node on the default layer, a layer created and
    deleted again, with the sorted list and the batches read in
    between. *)
Definition sessionCalls : list Call :=
  [GetSortedNodes;
   AddNode (Scenarios.paintedNode 0 "A" "red" 0);
   CreateLayer "top" (mkLayerOptions None (Some 5) None None None);
   GetBatchedNodes;
   DeleteLayer "top"].

Definition sessionManager : t :=
  match run sessionCalls with
  | JS.Return this => this
  | _ => LayerManager.new
  end.

End Session.

(** * Properties *)

(** ** Numbers *)

Lemma ltb_lt x y : Num.ltb x y = true <-> x < y.
Proof.
  unfold Num.ltb. rewrite negb_true_iff.
  destruct (Qle_bool y x) eqn:E.
  - apply Qle_bool_iff in E. split; [discriminate | intros H; lra].
  - split; [intros _ | reflexivity].
    destruct (Qlt_le_dec x y) as [H | H]; [exact H |].
    apply Qle_bool_iff in H. congruence.
Qed.

Lemma ltb_ge x y : Num.ltb x y = false <-> y <= x.
Proof. unfold Num.ltb. rewrite negb_false_iff. apply Qle_bool_iff. Qed.

Lemma gtb_gt x y : Num.gtb x y = true <-> y < x.
Proof. apply ltb_lt. Qed.

Lemma gtb_le x y : Num.gtb x y = false <-> x <= y.
Proof. apply ltb_ge. Qed.

Lemma eqb_neq x y : ~ x == y -> Num.eqb x y = false.
Proof.
  intros H. unfold Num.eqb. destruct (Qeq_bool x y) eqn:E; [| reflexivity].
  apply Qeq_bool_iff in E. contradiction.
Qed.

(** ** Transform *)

Section TransformFacts.
Import Transform.

(** The inverse computed by [invert] undoes the matrix: composing a
    non-singular transform with its inverse maps every point to
    itself. *)
Lemma invert_matrix (T : t) (x0 y0 : Q) :
  ~ det T == 0 ->
  let I := invert T in
  (x0 * a T + y0 * c T + e T) * a I + (x0 * b T + y0 * d T + f T) * c I + e I == x0
  /\ (x0 * a T + y0 * c T + e T) * b I + (x0 * b T + y0 * d T + f T) * d I + f I == y0.
Proof.
  intros Hdet. unfold det in Hdet. cbv zeta. unfold invert.
  rewrite (eqb_neq _ _ Hdet). cbn [a b c d e f].
  split; field; exact Hdet.
Qed.

(** C10. Invert round-trip: for every transform [T] with a non-zero
    determinant and every point [P], transforming [P] by [T] and then
    transforming the result by the inverted transform gives [P] back
    (exactly, over exact arithmetic). *)
Theorem invert_round_trip (T : t) (P : Point) :
  ~ det T == 0 ->
  point_eq (transformPoint (invert T) (transformPoint T P)) P.
Proof.
  intros Hdet. unfold point_eq, transformPoint. cbn [px py].
  exact (invert_matrix T (px P) (py P) Hdet).
Qed.

End TransformFacts.

(** A transform with a non-zero determinant, and a point. *)
Lemma invert_round_trip_witness :
  let T := Transform.mk 0 0 0 1 1 2 1 1 3 10 (-4) None false in
  let P := Transform.mkPoint 5 7 in
  ~ Transform.det T == 0
  /\ Transform.point_eq
       (Transform.transformPoint (Transform.invert T) (Transform.transformPoint T P)) P.
Proof.
  cbv zeta.
  assert (H : ~ Transform.det (Transform.mk 0 0 0 1 1 2 1 1 3 10 (-4) None false) == 0)
    by (vm_compute; discriminate).
  split; [exact H | exact (invert_round_trip _ _ H)].
Defined.

(** When the receiver of [invert()] is the object that is also used for
    the inner [transformPoint], both calls see the inverted matrix:
    the translation by (10, 0) sends the origin to (-20, 0). *)
Example invert_in_place_is_shared :
  Transform.invertThenTransformInPlace
    (Transform.translate Transform.new_default 10 0) (Transform.mkPoint 0 0)
  = Transform.mkPoint (-20) 0.
Proof. vm_compute. reflexivity. Qed.

(** ** AABB *)

(** The comparison of [intersectsAABB] is strict on every edge. *)
Lemma intersectsAABB_spec (A B : AABB.t) :
  AABB.intersectsAABB A B = true <->
  AABB._x A < AABB._x B + AABB._width B
  /\ AABB._x B < AABB._x A + AABB._width A
  /\ AABB._y A < AABB._y B + AABB._height B
  /\ AABB._y B < AABB._y A + AABB._height A.
Proof.
  unfold AABB.intersectsAABB.
  rewrite !andb_true_iff, !ltb_lt, !gtb_gt. tauto.
Qed.

(** C6, as stated, fails: the right edge of [A] lies on the left edge
    of [B] and their y-ranges overlap, yet [A.intersectsAABB(B)] is
    false. *)
Lemma intersectsAABB_touching_counterexample :
  let A := AABB.new 0 0 10 10 in
  let B := AABB.new 10 0 10 10 in
  AABB.touchAlongEdge A B /\ AABB.intersectsAABB A B <> true.
Proof.
  cbv zeta. split.
  - left. cbn. split; [left; reflexivity | split; reflexivity].
  - vm_compute. discriminate.
Qed.

(** C6 (amended). For every pair of boxes that touch exactly along an
    edge, [A.intersectsAABB(B)] returns false: the comparison is strict
    on each edge, so touching edges do not count as intersecting. *)
Theorem intersectsAABB_touching_false (A B : AABB.t) :
  AABB.touchAlongEdge A B -> AABB.intersectsAABB A B = false.
Proof.
  intros H.
  destruct (AABB.intersectsAABB A B) eqn:E; [| reflexivity].
  apply intersectsAABB_spec in E.
  unfold AABB.touchAlongEdge in H. exfalso.
  destruct H as [[[H | H] _] | [[H | H] _]]; lra.
Qed.

Lemma intersectsAABB_touching_false_witness :
  let A := AABB.new 0 0 10 10 in
  let B := AABB.new 10 0 10 10 in
  AABB.touchAlongEdge A B /\ AABB.intersectsAABB A B = false.
Proof.
  cbv zeta.
  assert (H : AABB.touchAlongEdge (AABB.new 0 0 10 10) (AABB.new 10 0 10 10)).
  { left. cbn. split; [left; reflexivity | split; reflexivity]. }
  split; [exact H | exact (intersectsAABB_touching_false _ _ H)].
Defined.

(** ** Renderer selection *)

Section RendererSelection.
Import RenderingEngine.

(** C7. In auto render mode the backend chosen for the frame is the
    hardware one iff complexity > 1000, hardware is available and
    fps > 30; otherwise the hybrid one iff complexity > 500 and
    hardware is available; otherwise the software one.  With
    complexity 1200, fps 45 and hardware available the choice is
    hardware; with complexity 1200 and fps 20 it is not. *)
Theorem auto_mode_choice (this : t) :
  renderMode (state this) = "auto" ->
  let hardware :=
    1000 < complexity this /\ isWebGLEnabled (state this) = true
    /\ 30 < fps this in
  let intermediate :=
    500 < complexity this /\ isWebGLEnabled (state this) = true in
  (getCurrentRenderer this = Some webgl <-> hardware)
  /\ (getCurrentRenderer this = Some hybrid <-> ~ hardware /\ intermediate)
  /\ (getCurrentRenderer this = Some canvas <-> ~ hardware /\ ~ intermediate)
  /\ (complexity this == 1200 -> fps this == 45 ->
      isWebGLEnabled (state this) = true ->
      getCurrentRenderer this = Some webgl)
  /\ (complexity this == 1200 -> fps this == 20 ->
      getCurrentRenderer this <> Some webgl).
Proof.
  intros Hmode. cbv zeta.
  unfold getCurrentRenderer, getOptimalRenderer. rewrite Hmode. cbn [String.eqb].
  change (if String.eqb "auto" "auto" then ?x else ?y) with x.
  destruct (Num.gtb (complexity this) 1000) eqn:E1;
    destruct (isWebGLEnabled (state this)) eqn:E2;
    destruct (Num.gtb (fps this) 30) eqn:E3;
    destruct (Num.gtb (complexity this) 500) eqn:E4;
    cbn [andb];
    try (apply gtb_gt in E1); try (apply gtb_le in E1);
    try (apply gtb_gt in E3); try (apply gtb_le in E3);
    try (apply gtb_gt in E4); try (apply gtb_le in E4);
    repeat split;
    try discriminate; try reflexivity; try tauto; try lra;
    try (intros; intuition (try discriminate; try lra)).
Qed.

Lemma auto_mode_choice_witness :
  let this := mk (mkState true "auto" true) 45 1200 in
  renderMode (state this) = "auto"
  /\ getCurrentRenderer this = Some webgl.
Proof.
  cbv zeta. split; [reflexivity |].
  apply (auto_mode_choice (mk (mkState true "auto" true) 45 1200) eq_refl);
    reflexivity.
Defined.

End RendererSelection.

(** ** Scene.queryRegion *)

(** Neither kind of spatial index has a method called [query]. *)
Lemma hasMethod_query (si : Store.SpatialIndex) :
  Scene.hasMethod si "query" = false.
Proof. destruct si; reflexivity. Qed.

(** C1. [queryRegion] does not return a collection of matching nodes:
    the spatial index of a scene is a [Map] (or, after [clear()], a
    [QuadTree]), neither of which has the method [query] that
    [queryRegion] calls, so for every world, box and option set the
    call raises a [TypeError], whatever a [query] method would have
    returned. *)
Theorem queryRegion_raises
    (queryResult : Store.SpatialIndex -> AABB.t -> list Store.ref)
    (w : Store.World) (bounds : AABB.t) (options : Scene.QueryOptions) :
  Scene.queryRegion queryResult w bounds options = JS.Throw JS.TypeError.
Proof.
  unfold Scene.queryRegion, Scene.callQuery.
  rewrite hasMethod_query. reflexivity.
Qed.

(** On the scene that the constructor builds, with no options. *)
Example queryRegion_fresh_scene :
  Scene.queryRegion (fun _ _ => []) Scene.emptyWorld (AABB.new 0 0 100 100)
                    Scene.noOptions
  = JS.Throw JS.TypeError.
Proof. reflexivity. Qed.

(** The filter itself raises for a [tag] option: a [SceneNode] has no
    [tags]. *)
Lemma nodeMatchesQuery_tag_raises (n : Store.Node) (tag : string) :
  tag <> EmptyString ->
  Scene.nodeMatchesQuery n
    (Scene.mkOptions JS.Undefined JS.Undefined (JS.Str tag) JS.Undefined)
  = JS.Throw JS.TypeError.
Proof.
  intros H. unfold Scene.nodeMatchesQuery. cbn.
  destruct (String.eqb tag EmptyString) eqn:E; [| reflexivity].
  apply String.eqb_eq in E. contradiction.
Qed.

(** ** QuadTree *)

Section QuadTreeFacts.
Import QuadTree.

(** A box that reaches the vertical midline of a node from both sides
    is given no quadrant at all. *)
Lemma getIndices_straddle_vertical (this : t) (ob : AABB.t) :
  let verticalMidpoint := AABB.minX (bounds this) + AABB.width (bounds this) / 2 in
  AABB.minX ob <= verticalMidpoint ->
  verticalMidpoint <= AABB.maxX ob ->
  getIndices this ob = [].
Proof.
  cbv zeta. intros H1 H2. unfold getIndices.
  apply gtb_le in H1. apply ltb_ge in H2. rewrite H1, H2.
  rewrite !andb_false_r. reflexivity.
Qed.

(** The same for the horizontal midline. *)
Lemma getIndices_straddle_horizontal (this : t) (ob : AABB.t) :
  let horizontalMidpoint := AABB.minY (bounds this) + AABB.height (bounds this) / 2 in
  AABB.minY ob <= horizontalMidpoint ->
  horizontalMidpoint <= AABB.maxY ob ->
  getIndices this ob = [].
Proof.
  cbv zeta. intros H1 H2. unfold getIndices.
  apply gtb_le in H1. apply ltb_ge in H2. rewrite H1, H2.
  rewrite !andb_false_r. reflexivity.
Qed.

(** A box of non-negative size is never given more than one
    quadrant. *)
Lemma getIndices_at_most_one (this : t) (ob : AABB.t) :
  0 <= AABB.width ob -> 0 <= AABB.height ob ->
  (length (getIndices this ob) <= 1)%nat.
Proof.
  unfold AABB.width, AABB.height. intros Hw Hh. unfold getIndices.
  set (vm := AABB.minX (bounds this) + AABB.width (bounds this) / 2).
  set (hm := AABB.minY (bounds this) + AABB.height (bounds this) / 2).
  destruct (Num.ltb (AABB.maxY ob) hm) eqn:N;
    destruct (Num.ltb (AABB.maxX ob) vm) eqn:W;
    destruct (Num.gtb (AABB.minX ob) vm) eqn:E;
    destruct (Num.gtb (AABB.minY ob) hm) eqn:S;
    cbn; try lia; exfalso;
    try (apply ltb_lt in N); try (apply ltb_lt in W);
    try (apply gtb_gt in E); try (apply gtb_gt in S);
    unfold AABB.maxX, AABB.maxY, AABB.minX, AABB.minY in *; lra.
Qed.

(** C5. [getIndices] does not return the quadrants that a box overlaps.
    The root over (0, 0, 100, 100) is split by eleven insertions.  The
    box (40, 10, 20, 20) lies inside the root and overlaps the
    top-right and the top-left quadrant, but [getIndices] returns no
    index for it, and [insert] on the split root places it into no
    child: the tree is returned as it was. *)
Theorem getIndices_misses_straddling_box :
  let tree0 := new_default (AABB.new 0 0 100 100) in
  let inserted := Scenarios.smallBoxes ++ [Scenarios.centreBox] in
  let object := mkObj 12 (AABB.new 40 10 20 20) in
  exists node,
    insertMany 8 tree0 inserted = JS.Return node
    /\ length (nodes node) = 4%nat
    /\ AABB.containsAABB (bounds node) (obounds object) = true
    /\ overlappedQuadrants node (obounds object) = [0%nat; 1%nat]
    /\ getIndices node (obounds object) = []
    /\ insert 8 node object = JS.Return node.
Proof.
  cbv zeta. eexists. split; [vm_compute; reflexivity |].
  repeat split; vm_compute; reflexivity.
Qed.

(** The same on a node that has just been split. *)
Example getIndices_fresh_split :
  let node := split (new_default (AABB.new 0 0 100 100)) in
  let object := mkObj 1 (AABB.new 40 10 20 20) in
  overlappedQuadrants node (obounds object) = [0%nat; 1%nat]
  /\ getIndices node (obounds object) = []
  /\ insert 5 node object = JS.Return node.
Proof. cbv zeta. repeat split. Qed.

(** C2. [retrieve] does not match the brute-force filter.  Eleven
    objects are inserted into a tree over (0, 0, 100, 100) with the
    default limits; the eleventh insertion splits the root, and the box
    across the centre is handed to no child.  The query
    (45, 45, 2, 2) intersects that box, yet [retrieve] returns the
    empty set. *)
Theorem retrieve_misses_inserted_object :
  let tree0 := new_default (AABB.new 0 0 100 100) in
  let inserted := Scenarios.smallBoxes ++ [Scenarios.centreBox] in
  let query := AABB.new 45 45 2 2 in
  exists tree,
    insertMany 8 tree0 inserted = JS.Return tree
    /\ retrieve 8 tree query [] = JS.Return []
    /\ bruteForce query inserted = [Scenarios.centreBox].
Proof.
  cbv zeta. eexists. split; [vm_compute; reflexivity |].
  split; vm_compute; reflexivity.
Qed.

(** Before a node is split, [retrieve] on it is the brute-force filter
    of its objects (with one entry per object). *)
Lemma retrieve_leaf (fuel : nat) (this : t) (query : AABB.t) :
  nodes this = [] ->
  retrieve (S fuel) this query []
  = JS.Return
      (fold_left
         (fun r o =>
            if AABB.intersectsAABB query (obounds o) then setAdd r o else r)
         (objects this) []).
Proof. intros H. cbn. rewrite H. reflexivity. Qed.

End QuadTreeFacts.

(** ** The node heap *)

Section HeapFacts.
Import Store Chain.

Lemma lookup_update (r r' : ref) (g : Node -> Node) (w : World) :
  heap (update r g w) !! r'
  = if decide (r = r') then g <$> heap w !! r' else heap w !! r'.
Proof.
  unfold update. cbn. rewrite lookup_alter.
  destruct (decide (r = r')) as [-> |]; reflexivity.
Qed.

Lemma lookup_update_eq (r : ref) (g : Node -> Node) (w : World) (n : Node) :
  heap w !! r = Some n -> heap (update r g w) !! r = Some (g n).
Proof.
  intros H. rewrite lookup_update. destruct (decide (r = r)); [| congruence].
  rewrite H. reflexivity.
Qed.

Lemma lookup_update_ne (r r' : ref) (g : Node -> Node) (w : World) :
  r <> r' -> heap (update r g w) !! r' = heap w !! r'.
Proof.
  intros H. rewrite lookup_update. destruct (decide (r = r')); congruence.
Qed.

Lemma theScene_update (r : ref) (g : Node -> Node) (w : World) :
  theScene (update r g w) = theScene w.
Proof. reflexivity. Qed.

Lemma markedFrom_refl m : markedFrom m m.
Proof. left. reflexivity. Qed.

Lemma markedFrom_fields m m' :
  markedFrom m m' ->
  transform m' = transform m /\ parent m' = parent m
  /\ worldTransform m' = worldTransform m /\ children m' = children m
  /\ id m' = id m
  /\ (isTransformDirty m = true -> isTransformDirty m' = true).
Proof. intros [-> | ->]; cbn; tauto. Qed.

Lemma markChildren_lookup (l : list ref) (w : World) (r : ref) (m : Node) :
  heap w !! r = Some m ->
  exists m',
    heap (fold_left (fun acc child => update child (set_isTransformDirty true) acc)
                    l w) !! r = Some m'
    /\ markedFrom m m'.
Proof.
  revert w m. induction l as [| x l IH]; intros w m H; cbn.
  - exists m. split; [exact H | apply markedFrom_refl].
  - destruct (decide (x = r)) as [-> | Hne].
    + destruct (IH (update r (set_isTransformDirty true) w)
                   (set_isTransformDirty true m)) as (m' & Hm' & Hrel).
      { apply lookup_update_eq. exact H. }
      exists m'. split; [exact Hm' |].
      destruct Hrel as [-> | ->]; right; reflexivity.
    + destruct (IH (update x (set_isTransformDirty true) w) m) as (m' & Hm' & Hrel).
      { rewrite lookup_update_ne by exact Hne. exact H. }
      exists m'. split; assumption.
Qed.

End HeapFacts.

(** ** SceneNode.updateTransform *)

Section UpdateTransformFacts.
Import Store Chain.

Lemma updateTransform_self (w : World) (this : ref) (n : Node) :
  heap w !! this = Some n ->
  isTransformDirty n = true ->
  exists n',
    heap (SceneNode.updateTransform this w) !! this = Some n'
    /\ transform n' = transform n /\ parent n' = parent n
    /\ worldTransform n' = composedWith w n.
Proof.
  intros H Hd. unfold SceneNode.updateTransform. rewrite H, Hd. cbn [negb].
  fold (composedWith w n).
  destruct (markChildren_lookup (children n)
              (update this (set_worldTransform (composedWith w n)) w) this
              (set_worldTransform (composedWith w n) n)) as (m' & Hm' & Hrel).
  { apply lookup_update_eq. exact H. }
  eexists. split.
  - apply lookup_update_eq. apply lookup_update_eq. exact Hm'.
  - apply markedFrom_fields in Hrel. cbn in Hrel. cbn. tauto.
Qed.

Lemma updateTransform_other (w : World) (this r : ref) (m : Node) :
  r <> this ->
  heap w !! r = Some m ->
  exists m',
    heap (SceneNode.updateTransform this w) !! r = Some m'
    /\ transform m' = transform m /\ parent m' = parent m
    /\ worldTransform m' = worldTransform m
    /\ (isTransformDirty m = true -> isTransformDirty m' = true).
Proof.
  intros Hne H. unfold SceneNode.updateTransform.
  destruct (heap w !! this) as [n |] eqn:Hn.
  2:{ exists m. tauto. }
  destruct (isTransformDirty n); cbn [negb].
  2:{ exists m. tauto. }
  fold (composedWith w n).
  destruct (markChildren_lookup (children n)
              (update this (set_worldTransform (composedWith w n)) w) r m)
    as (m' & Hm' & Hrel).
  { rewrite lookup_update_ne by congruence. exact H. }
  exists m'. split.
  - rewrite !lookup_update_ne by congruence. exact Hm'.
  - apply markedFrom_fields in Hrel. tauto.
Qed.

Lemma isTranslation_elim (T : Transform.t) (tx ty : Q) :
  isTranslation T tx ty = true ->
  Transform.a T == 1 /\ Transform.b T == 0 /\ Transform.c T == 0
  /\ Transform.d T == 1 /\ Transform.e T == tx /\ Transform.f T == ty.
Proof.
  unfold isTranslation, Num.eqb. rewrite !andb_true_iff, !Qeq_bool_iff. tauto.
Qed.

Lemma isTranslation_intro (T : Transform.t) (tx ty : Q) :
  Transform.a T == 1 -> Transform.b T == 0 -> Transform.c T == 0 ->
  Transform.d T == 1 -> Transform.e T == tx -> Transform.f T == ty ->
  isTranslation T tx ty = true.
Proof.
  unfold isTranslation, Num.eqb. rewrite !andb_true_iff, !Qeq_bool_iff. tauto.
Qed.

(** Copying a translation and multiplying it by a translation adds the
    offsets. *)
Lemma compose_translations (W T P : Transform.t) (tx ty px py : Q) :
  isTranslation T tx ty = true ->
  isTranslation P px py = true ->
  isTranslation (Transform.multiply (Transform.copy W T) P) (tx + px) (ty + py)
  = true.
Proof.
  intros HT HP.
  apply isTranslation_elim in HT. destruct HT as (Ha & Hb & Hc & Hd & He & Hf).
  apply isTranslation_elim in HP. destruct HP as (Pa & Pb & Pc & Pd & Pe & Pf).
  apply isTranslation_intro; cbn;
    rewrite ?Ha, ?Hb, ?Hc, ?Hd, ?He, ?Hf, ?Pa, ?Pb, ?Pc, ?Pd, ?Pe, ?Pf; ring.
Qed.

Lemma dirtyTranslated_elim (w : World) (r : ref) (p : option ref) (tx ty : Q) :
  dirtyTranslated w r p tx ty = true ->
  exists n, heap w !! r = Some n /\ parent n = p
            /\ isTranslation (transform n) tx ty = true
            /\ isTransformDirty n = true.
Proof.
  unfold dirtyTranslated. destruct (heap w !! r) as [n |]; [| discriminate].
  rewrite !andb_true_iff, bool_decide_eq_true. intros [[H1 H2] H3].
  exists n. tauto.
Qed.

(** One call on a dirty node whose parent's cached world transform is a
    translation: the node's world transform becomes the sum of the two
    translations. *)
Lemma updateTransform_child (w : World) (this p : ref) (tx ty px py : Q) :
  dirtyTranslated w this (Some p) tx ty = true ->
  (exists pn, heap w !! p = Some pn
              /\ isTranslation (worldTransform pn) px py = true) ->
  exists n', heap (SceneNode.updateTransform this w) !! this = Some n'
             /\ isTranslation (worldTransform n') (tx + px) (ty + py) = true.
Proof.
  intros H (pn & Hp & Hpt).
  apply dirtyTranslated_elim in H. destruct H as (n & Hn & Hpar & Ht & Hd).
  destruct (updateTransform_self w this n Hn Hd) as (n' & Hn' & _ & _ & Hw).
  exists n'. split; [exact Hn' |].
  rewrite Hw. unfold composedWith. rewrite Hpar, Hp.
  apply compose_translations; assumption.
Qed.

(** One call on a dirty node without parent: the world transform
    becomes the local one. *)
Lemma updateTransform_root (w : World) (this : ref) (tx ty : Q) :
  dirtyTranslated w this None tx ty = true ->
  exists n', heap (SceneNode.updateTransform this w) !! this = Some n'
             /\ isTranslation (worldTransform n') tx ty = true.
Proof.
  intros H.
  apply dirtyTranslated_elim in H. destruct H as (n & Hn & Hpar & Ht & Hd).
  destruct (updateTransform_self w this n Hn Hd) as (n' & Hn' & _ & _ & Hw).
  exists n'. split; [exact Hn' |].
  rewrite Hw. unfold composedWith. rewrite Hpar. exact Ht.
Qed.

(** A call on another node keeps a node dirty, translated and attached
    as it was. *)
Lemma updateTransform_keeps (w : World) (this r : ref) (p : option ref)
    (tx ty : Q) :
  r <> this ->
  dirtyTranslated w r p tx ty = true ->
  dirtyTranslated (SceneNode.updateTransform this w) r p tx ty = true.
Proof.
  intros Hne H.
  apply dirtyTranslated_elim in H. destruct H as (n & Hn & Hpar & Ht & Hd).
  destruct (updateTransform_other w this r n Hne Hn)
    as (m' & Hm' & Htr & Hp & _ & Hdirty).
  unfold dirtyTranslated. rewrite Hm', Htr, Hp, Ht, (Hdirty Hd).
  rewrite bool_decide_eq_true_2 by exact Hpar. reflexivity.
Qed.

(** C4, as stated, fails: in the chain root -> child -> grandchild of
    nodes as constructed, each translated by (10, 0) and all
    transform-dirty, [updateTransform] on the grandchild alone does not
    give a world X offset of 30 (it gives 10). *)
Lemma updateTransform_grandchild_counterexample :
  let w := Scenarios.chainWorld in
  let r := Scenarios.chainRoot in
  let c := Scenarios.chainChild in
  let g := Scenarios.chainGrandchild in
  dirtyTranslated w r None 10 0 = true
  /\ dirtyTranslated w c (Some r) 10 0 = true
  /\ dirtyTranslated w g (Some c) 10 0 = true
  /\ ~ worldX (SceneNode.updateTransform g w) g 30.
Proof.
  cbv zeta. repeat split; try (vm_compute; reflexivity).
  intros (n & Hn & He). vm_compute in Hn. injection Hn as <-.
  vm_compute in He. discriminate.
Qed.

(** C4 (amended). Given a chain root -> child -> grandchild where each
    node's local transform is a translation by (10, 0) and all nodes
    are transform-dirty, calling [updateTransform] on the root, then on
    the child, then on the grandchild yields a grandchild world
    transform whose X translation component equals 30: each call
    composes the local transform with the cached world transform of the
    parent and updates no ancestor.  Called on the grandchild alone,
    while the child's cached world transform is still the identity, it
    yields 10. *)
Theorem updateTransform_chain (w : World) (r c g : ref) :
  dirtyTranslated w r None 10 0 = true ->
  dirtyTranslated w c (Some r) 10 0 = true ->
  dirtyTranslated w g (Some c) 10 0 = true ->
  worldX (SceneNode.updateTransform g
            (SceneNode.updateTransform c (SceneNode.updateTransform r w))) g 30
  /\ (worldIsIdentity w c = true ->
      worldX (SceneNode.updateTransform g w) g 10).
Proof.
  intros Hr Hc Hg.
  assert (Hrc : c <> r).
  { intros ->. apply dirtyTranslated_elim in Hr, Hc.
    destruct Hr as (n1 & H1 & P1 & _). destruct Hc as (n2 & H2 & P2 & _).
    congruence. }
  assert (Hrg : g <> r).
  { intros ->. apply dirtyTranslated_elim in Hr, Hg.
    destruct Hr as (n1 & H1 & P1 & _). destruct Hg as (n2 & H2 & P2 & _).
    congruence. }
  assert (Hcg : g <> c).
  { intros ->. apply dirtyTranslated_elim in Hc, Hg.
    destruct Hc as (n1 & H1 & P1 & _). destruct Hg as (n2 & H2 & P2 & _).
    congruence. }
  split.
  - set (w1 := SceneNode.updateTransform r w).
    set (w2 := SceneNode.updateTransform c w1).
    destruct (updateTransform_root w r 10 0 Hr) as (nr & Hnr & Htr).
    fold w1 in Hnr.
    assert (Hc1 : dirtyTranslated w1 c (Some r) 10 0 = true)
      by (apply updateTransform_keeps; assumption).
    assert (Hg1 : dirtyTranslated w1 g (Some c) 10 0 = true)
      by (apply updateTransform_keeps; assumption).
    destruct (updateTransform_child w1 c r 10 0 10 0 Hc1) as (nc & Hnc & Htc).
    { exists nr. split; assumption. }
    fold w2 in Hnc.
    assert (Hg2 : dirtyTranslated w2 g (Some c) 10 0 = true)
      by (apply updateTransform_keeps; assumption).
    destruct (updateTransform_child w2 g c 10 0 (10 + 10) (0 + 0) Hg2)
      as (ng & Hng & Htg).
    { exists nc. split; assumption. }
    exists ng. split; [exact Hng |].
    apply isTranslation_elim in Htg. destruct Htg as (_ & _ & _ & _ & He & _).
    rewrite He. reflexivity.
  - intros Hid. unfold worldIsIdentity in Hid.
    destruct (heap w !! c) as [nc |] eqn:Hnc; [| discriminate].
    destruct (updateTransform_child w g c 10 0 0 0 Hg) as (ng & Hng & Htg).
    { exists nc. split; assumption. }
    exists ng. split; [exact Hng |].
    apply isTranslation_elim in Htg. destruct Htg as (_ & _ & _ & _ & He & _).
    rewrite He. reflexivity.
Qed.

Lemma updateTransform_chain_witness :
  let w := Scenarios.chainWorld in
  let r := Scenarios.chainRoot in
  let c := Scenarios.chainChild in
  let g := Scenarios.chainGrandchild in
  dirtyTranslated w r None 10 0 = true
  /\ dirtyTranslated w c (Some r) 10 0 = true
  /\ dirtyTranslated w g (Some c) 10 0 = true
  /\ worldX (SceneNode.updateTransform g
               (SceneNode.updateTransform c (SceneNode.updateTransform r w))) g 30.
Proof.
  cbv zeta.
  assert (Hr : dirtyTranslated Scenarios.chainWorld Scenarios.chainRoot None 10 0
               = true) by (vm_compute; reflexivity).
  assert (Hc : dirtyTranslated Scenarios.chainWorld Scenarios.chainChild
                 (Some Scenarios.chainRoot) 10 0 = true)
    by (vm_compute; reflexivity).
  assert (Hg : dirtyTranslated Scenarios.chainWorld Scenarios.chainGrandchild
                 (Some Scenarios.chainChild) 10 0 = true)
    by (vm_compute; reflexivity).
  repeat split; try assumption.
  exact (proj1 (updateTransform_chain _ _ _ _ Hr Hc Hg)).
Defined.

End UpdateTransformFacts.

(** ** Scene.removeNode *)

Section RemoveNodeFacts.
Import Store.

(** C9. For every node [n] registered in the scene, [removeNode(n)]
    removes exactly the entry of [n] from the id-map and clears the
    root reference iff [n] was the root; every other registered node,
    in particular every child of [n], is still registered
    afterwards. *)
Theorem removeNode_keeps_descendants (w : World) (n : ref) :
  Scene.registered w n ->
  let w' := Scene.removeNode n w in
  (exists nd, heap w !! n = Some nd
              /\ nodes (theScene w') = delete (id nd) (nodes (theScene w))
              /\ forall c, c ∈ children nd -> c <> n ->
                           Scene.registered w c -> Scene.registered w' c)
  /\ ~ Scene.registered w' n
  /\ root (theScene w')
     = (if bool_decide (root (theScene w) = Some n) then None
        else root (theScene w))
  /\ (forall c, c <> n -> Scene.registered w c -> Scene.registered w' c).
Proof.
  intros (nd & Hnd & Hreg). cbv zeta.
  set (w1 := if bool_decide (Some n = root (theScene w))
             then set_theScene (Scene.set_root None (theScene w)) w else w).
  assert (Hheap1 : heap w1 = heap w).
  { unfold w1. destruct (bool_decide _); reflexivity. }
  assert (Hnodes1 : nodes (theScene w1) = nodes (theScene w)).
  { unfold w1. destruct (bool_decide _); reflexivity. }
  assert (Hroot1 : root (theScene w1)
                   = if bool_decide (root (theScene w) = Some n) then None
                     else root (theScene w)).
  { unfold w1. destruct (bool_decide (Some n = root (theScene w))) eqn:E.
    - apply bool_decide_eq_true in E.
      rewrite bool_decide_eq_true_2 by congruence. reflexivity.
    - apply bool_decide_eq_false in E.
      rewrite bool_decide_eq_false_2 by congruence. reflexivity. }
  assert (Hrm : Scene.removeNode n w
                = Scene.onNodeRemoved n (update n (set_scene None) w1))
    by reflexivity.
  assert (Hn2 : heap (update n (set_scene None) w1) !! n
                = Some (set_scene None nd)).
  { apply lookup_update_eq. rewrite Hheap1. exact Hnd. }
  assert (Hnodes : nodes (theScene (Scene.removeNode n w))
                   = delete (id nd) (nodes (theScene w))).
  { rewrite Hrm. unfold Scene.onNodeRemoved. rewrite Hn2. cbn.
    rewrite Hnodes1. reflexivity. }
  assert (Hheap : forall c, c <> n ->
            heap (Scene.removeNode n w) !! c = heap w !! c).
  { intros c Hc. rewrite Hrm. unfold Scene.onNodeRemoved. rewrite Hn2. cbn.
    rewrite lookup_alter_ne by congruence. rewrite Hheap1. reflexivity. }
  assert (Hframe : forall c, c <> n -> Scene.registered w c ->
            Scene.registered (Scene.removeNode n w) c).
  { intros c Hc (nc & Hnc & Hregc). exists nc. split.
    - rewrite Hheap by exact Hc. exact Hnc.
    - rewrite Hnodes. rewrite lookup_delete_ne; [exact Hregc |].
      intros Heq. rewrite Heq in Hreg. congruence. }
  split; [| split; [| split]].
  - exists nd. split; [exact Hnd |]. split; [exact Hnodes |].
    intros c _ Hc Hr. apply Hframe; assumption.
  - intros (nd' & Hnd' & Hreg'). rewrite Hnodes in Hreg'.
    assert (Hid : id nd' = id nd).
    { rewrite Hrm in Hnd'. unfold Scene.onNodeRemoved in Hnd'.
      rewrite Hn2 in Hnd'. cbn in Hnd'.
      change (heap (update n (set_scene None) w1) !! n = Some nd') in Hnd'.
      rewrite Hn2 in Hnd'. injection Hnd' as <-. reflexivity. }
    rewrite Hid, lookup_delete_eq in Hreg'. discriminate.
  - rewrite Hrm. unfold Scene.onNodeRemoved. rewrite Hn2. cbn. exact Hroot1.
  - exact Hframe.
Qed.


Lemma removeNode_keeps_descendants_witness :
  let w := Scenarios.familyWorld in
  let r := Scenarios.familyRoot in
  let c := Scenarios.familyChild in
  Scene.registered w r
  /\ Scene.registered w c
  /\ root (theScene w) = Some r
  /\ Scene.registered (Scene.removeNode r w) c
  /\ ~ Scene.registered (Scene.removeNode r w) r
  /\ root (theScene (Scene.removeNode r w)) = None.
Proof.
  cbv zeta.
  assert (Hr : Scene.registered Scenarios.familyWorld Scenarios.familyRoot).
  { eexists. split; [vm_compute; reflexivity | vm_compute; reflexivity]. }
  assert (Hc : Scene.registered Scenarios.familyWorld Scenarios.familyChild).
  { eexists. split; [vm_compute; reflexivity | vm_compute; reflexivity]. }
  destruct (removeNode_keeps_descendants _ _ Hr) as (_ & Hgone & Hroot & Hframe).
  split; [exact Hr |]. split; [exact Hc |]. split; [reflexivity |].
  split; [apply Hframe; [discriminate | exact Hc] |].
  split; [exact Hgone |].
  rewrite Hroot. reflexivity.
Defined.

Example family_child_listed :
  children <$> heap Scenarios.familyWorld !! Scenarios.familyRoot
  = Some [Scenarios.familyChild].
Proof. vm_compute. reflexivity. Qed.

End RemoveNodeFacts.

(** ** SceneNode.clone *)

Section CloneFacts.
Import Store Heap.

Lemma sameCore_refl m : sameCore m m.
Proof. unfold sameCore. tauto. Qed.

Lemma sameCore_trans m1 m2 m3 :
  sameCore m1 m2 -> sameCore m2 m3 -> sameCore m1 m3.
Proof. unfold sameCore. intros (? & ? & ?) (? & ? & ?). repeat split; congruence. Qed.

Lemma touches_refl c w : touches c w w.
Proof.
  unfold touches. repeat split; try reflexivity.
  destruct (heap w !! c); constructor. apply sameCore_refl.
Qed.

Lemma touches_trans c w1 w2 w3 :
  touches c w1 w2 -> touches c w2 w3 -> touches c w1 w3.
Proof.
  intros (N1 & U1 & S1 & F1 & C1) (N2 & U2 & S2 & F2 & C2).
  unfold touches. repeat split; try congruence.
  - intros r Hr. rewrite F2, F1 by exact Hr. reflexivity.
  - destruct C1 as [m1 m2 H12 |]; inversion C2; subst; constructor.
    eapply sameCore_trans; eassumption.
Qed.

Lemma update_touches c (g : Node -> Node) w :
  (forall m, sameCore m (g m)) -> touches c w (update c g w).
Proof.
  intros Hg. unfold touches. repeat split.
  - intros r Hr. apply lookup_update_ne. congruence.
  - rewrite lookup_update. destruct (decide (c = c)); [| congruence].
    destruct (heap w !! c); constructor. apply Hg.
Qed.

(** Every setter used by the cloning code leaves id, parent and scene
    alone. *)
Ltac core := intros m; unfold sameCore; cbn; repeat split; reflexivity.

Lemma addEffect_touches c e w : touches c w (SceneNode.addEffect c e w).
Proof.
  unfold SceneNode.addEffect.
  eapply touches_trans; [| apply update_touches; core].
  eapply touches_trans; [| apply update_touches; core].
  apply update_touches; core.
Qed.

Lemma addConstraint_touches c k w : touches c w (SceneNode.addConstraint c k w).
Proof. unfold SceneNode.addConstraint. apply update_touches; core. Qed.

Lemma setLayout_touches c l w : touches c w (SceneNode.setLayout c l w).
Proof. unfold SceneNode.setLayout. apply update_touches; core. Qed.

Lemma fold_touches {A : Type} c (step : World -> A -> World) (l : list A) w :
  (forall x v, touches c v (step v x)) ->
  touches c w (fold_left step l w).
Proof.
  intros Hstep. revert w. induction l as [| x l IH]; intros w; cbn.
  - apply touches_refl.
  - eapply touches_trans; [apply Hstep | apply IH].
Qed.

Lemma touches_wf c w w' :
  (c < nextRef w)%nat -> touches c w w' -> wf w -> wf w'.
Proof.
  intros Hc (N & _ & _ & F & _) Hwf r Hr. rewrite N in Hr.
  rewrite F by lia. apply Hwf. exact Hr.
Qed.

Lemma treeDepth_eq (d : nat) (w : World) (r : ref) :
  treeDepth d w r
  = match heap w !! r with
    | None => false
    | Some n =>
        match d with
        | O => bool_decide (children n = [])
        | S d' => forallb (treeDepth d' w) (children n)
        end
    end.
Proof. destruct d; reflexivity. Qed.

Lemma wf_live (w : World) (r : ref) (n : Node) :
  wf w -> heap w !! r = Some n -> (r < nextRef w)%nat.
Proof.
  intros Hwf Hn.
  destruct (Nat.lt_ge_cases r (nextRef w)) as [L | G]; [exact L |].
  rewrite (Hwf r G) in Hn. discriminate.
Qed.

(** The subtree below a node only depends on the nodes that were
    allocated before. *)
Lemma treeDepth_frame (d : nat) (w w' : World) (r : ref) :
  wf w ->
  (forall r' : ref, (r' < nextRef w)%nat -> heap w' !! r' = heap w !! r') ->
  treeDepth d w r = true -> treeDepth d w' r = true.
Proof.
  intros Hwf Hframe. revert r. induction d as [| d IH]; intros r H;
    rewrite treeDepth_eq in H; rewrite treeDepth_eq;
    destruct (heap w !! r) as [n |] eqn:Hn; try discriminate;
    rewrite (Hframe r (wf_live w r n Hwf Hn)), Hn.
  - exact H.
  - rewrite forallb_forall in *. intros x Hx. apply IH. apply H. exact Hx.
Qed.

(** [addChild] on a clone [c] and a child clone [cc] that has no parent
    yet, while [c] is in no scene: only the two clones change. *)
Lemma addChild_fresh (c cc : ref) (w : World) (nc ncc : Node) :
  c <> cc ->
  heap w !! c = Some nc -> scene nc = None ->
  heap w !! cc = Some ncc -> parent ncc = None ->
  SceneNode.addChild c cc w
  = update c (set_isBoundsDirty true)
      (update cc (set_isTransformDirty true)
         (update c (fun m => set_children (children m ++ [cc]) m)
            (update cc (set_parent (Some c)) w))).
Proof.
  intros Hne Hc Hsc Hcc Hp. unfold SceneNode.addChild.
  rewrite Hcc, Hp.
  set (w5 := update c (set_isBoundsDirty true) _).
  assert (H5 : exists n5, heap w5 !! c = Some n5 /\ scene n5 = None).
  { unfold w5. eexists. split.
    - apply lookup_update_eq. rewrite lookup_update_ne by congruence.
      apply lookup_update_eq. rewrite lookup_update_ne by congruence.
      exact Hc.
    - cbn. exact Hsc. }
  destruct H5 as (n5 & Hn5 & Hs5). rewrite Hn5, Hs5. reflexivity.
Qed.

Lemma update_wf (r : ref) (g : Node -> Node) (w : World) :
  wf w -> wf (update r g w).
Proof.
  intros Hwf r' Hr'. rewrite lookup_update.
  change (nextRef (update r g w)) with (nextRef w) in Hr'.
  rewrite (Hwf r' Hr'). destruct (decide (r = r')); reflexivity.
Qed.

(** The loop over the children, given that each child can be cloned. *)
Lemma clone_children (fuel : nat) (w : World) (n : Node) (c : ref)
    (l : list ref) :
  c = nextRef w ->
  (forall ch wa, ch ∈ l -> cloning w n c wa ->
     exists wa' cc, SceneNode.clone fuel ch true wa = JS.Return (wa', cc)
                    /\ cloned wa ch wa' cc) ->
  forall wa, cloning w n c wa ->
  exists w7,
    fold_left
      (fun acc child =>
         wa ← acc;
         r ← SceneNode.clone fuel child true wa;
         JS.Return (SceneNode.addChild c (snd r) (fst r)))
      l (JS.Return wa) = JS.Return w7
    /\ cloning w n c w7.
Proof.
  intros Hc. induction l as [| ch l IH]; intros Hch wa Hinv; cbn [fold_left].
  - exists wa. split; [reflexivity | exact Hinv].
  - destruct (Hch ch wa) as (wa' & cc & Hclone & Hcl);
      [apply list_elem_of_here | exact Hinv |].
    destruct Hinv as (Hwf & Hnext & Hscene & Hframe & nc & Hnc & Hid & Hpar & Hsc).
    destruct Hcl as (Hcc & Hwf' & Hnext' & Hscene' & Hframe' &
                     nch & ncc & Hnch & Hncc & _ & Hparcc & _).
    assert (Hne : c <> cc) by lia.
    assert (Hnc' : heap wa' !! c = Some nc).
    { rewrite Hframe' by lia. exact Hnc. }
    pose proof (addChild_fresh c cc wa' nc ncc Hne Hnc' Hsc Hncc Hparcc) as Hadd.
    set (w8 := SceneNode.addChild c cc wa') in *.
    assert (Hinv8 : cloning w n c w8).
    { unfold cloning. rewrite Hadd. repeat split.
      - repeat apply update_wf. exact Hwf'.
      - cbn. lia.
      - cbn. congruence.
      - intros r Hr.
        rewrite !lookup_update_ne by lia.
        rewrite Hframe' by lia. apply Hframe. exact Hr.
      - eexists. split.
        + apply lookup_update_eq. rewrite lookup_update_ne by congruence.
          apply lookup_update_eq. rewrite lookup_update_ne by congruence.
          exact Hnc'.
        + cbn. tauto. }
    destruct (IH (fun ch' wb Hin => Hch ch' wb (list_elem_of_further _ _ _ Hin)) w8 Hinv8)
      as (w7 & Hfold & Hinv7).
    exists w7. split; [| exact Hinv7].
    cbn. unfold mbind, outcome_bind. cbn. rewrite Hclone. cbn.
    exact Hfold.
Qed.

Lemma cloneable_live (d : nat) (w : World) (this : ref) (deep : bool) :
  cloneable d w this deep = true -> exists n, heap w !! this = Some n.
Proof.
  unfold cloneable. destruct deep.
  - rewrite treeDepth_eq. destruct (heap w !! this) as [n |]; [eauto | discriminate].
  - rewrite bool_decide_eq_true. intros [n Hn]. eauto.
Qed.

(** [clone] returns, and its result is a clone in the sense of
    [cloned]. *)
Lemma clone_spec (d : nat) :
  forall (this : ref) (deep : bool) (w : World),
    wf w -> cloneable d w this deep = true ->
    exists w' c, SceneNode.clone (S d) this deep w = JS.Return (w', c)
                 /\ cloned w this w' c.
Proof.
  induction d as [d IHd] using lt_wf_ind.
  intros this deep w Hwf Hcl.
  destruct (cloneable_live d w this deep Hcl) as (n & Hn).
  cbn [SceneNode.clone]. rewrite Hn.
  unfold SceneNode.new.
  set (c := nextRef w).
  set (n0 := {| id := id n; name := EmptyString; type := JS.Undefined;
                transform := Transform.new_default; parent := None;
                children := []; visible := true; scene := None;
                bounds := AABB.new 0 0 0 0;
                properties := SceneNode.coreProperties;
                worldTransform := Transform.new_default;
                worldBounds := AABB.new 0 0 0 0;
                layer := JS.Number 0; zIndex := 0; effects := [];
                constraints := []; layout := None; isDirty := true;
                isTransformDirty := true; isBoundsDirty := true |}).
  set (w1 := {| heap := <[c := n0]> (heap w); nextRef := S c;
                uuids := uuids w; theScene := theScene w |}).
  set (w5 := fold_left _ (constraints n) _).
  set (w6 := match layout n with
             | Some l => SceneNode.setLayout c (Some (SceneNode.cloneLayout l)) w5
             | None => w5
             end).
  assert (Ht : touches c w1 w6).
  { unfold w6, w5.
    eapply touches_trans;
      [| destruct (layout n); [apply setLayout_touches | apply touches_refl]].
    eapply touches_trans;
      [| apply fold_touches; intros; apply addConstraint_touches].
    eapply touches_trans;
      [| apply fold_touches; intros; apply addEffect_touches].
    eapply touches_trans; [| apply update_touches; core].
    apply update_touches; core. }
  destruct Ht as (Hnext & _ & Hscene & Hframe & Hcore).
  assert (Hinv : cloning w n c w6).
  { unfold cloning. repeat split.
    - intros r Hr. rewrite Hnext in Hr. cbn in Hr.
      rewrite Hframe by lia. cbn. rewrite lookup_insert_ne by lia.
      apply Hwf. unfold c in Hr. lia.
    - rewrite Hnext. cbn. lia.
    - rewrite Hscene. reflexivity.
    - intros r Hr. rewrite Hframe by lia. cbn.
      apply lookup_insert_ne. lia.
    - assert (H1 : heap w1 !! c = Some n0) by (cbn; apply lookup_insert_eq).
      rewrite H1 in Hcore. inversion Hcore as [m m' Hmm Ha Hb |]; subst.
      exists m'. destruct Hmm as (Hi & Hp & Hs). cbn in Hi, Hp, Hs. tauto. }
  assert (Hdone : forall w7, cloning w n c w7 -> cloned w this w7 c).
  { intros w7 (Hwf7 & Hnext7 & Hscene7 & Hframe7 & nc & Hnc & Hid & Hp & Hs).
    unfold cloned. repeat split; try assumption.
    exists n, nc. tauto. }
  destruct deep.
  - destruct (clone_children d w n c (children n) eq_refl) with (wa := w6)
      as (w7 & Hfold & Hinv7).
    + intros ch wa Hin (Hwfa & Hnexta & _ & Hframea & _).
      unfold cloneable in Hcl. rewrite treeDepth_eq, Hn in Hcl.
      destruct d as [| d'].
      * apply bool_decide_eq_true in Hcl. rewrite Hcl in Hin.
        apply elem_of_nil in Hin. contradiction.
      * apply (IHd d' (Nat.lt_succ_diag_r d') ch true wa Hwfa).
        unfold cloneable. rewrite forallb_forall in Hcl.
        apply (treeDepth_frame d' w wa ch Hwf); [exact Hframea |].
        apply Hcl. apply list_elem_of_In. exact Hin.
    + exact Hinv.
    + exists w7, c. split; [| apply Hdone; exact Hinv7].
      unfold mbind, outcome_bind in *. cbn in *. rewrite Hfold. reflexivity.
  - exists w6, c. split; [reflexivity | apply Hdone; exact Hinv].
Qed.

(** C8, as stated, fails: a node is constructed (it receives the first
    UUID) and cloned; the clone is another object, and it carries the
    same id. *)
Lemma clone_id_counterexample :
  let w := fst (SceneNode.new None Scene.emptyWorld) in
  let n := snd (SceneNode.new None Scene.emptyWorld) in
  exists w' c,
    SceneNode.clone 1 n true w = JS.Return (w', c)
    /\ c <> n
    /\ id <$> heap w' !! n = Some (Uuid 0)
    /\ id <$> heap w' !! c = Some (Uuid 0).
Proof.
  cbv zeta. eexists. eexists. split; [vm_compute; reflexivity |].
  split; [discriminate |]. split; vm_compute; reflexivity.
Qed.

(** The constructor: the id is the argument when one is passed, and
    the next UUID otherwise. *)
Lemma new_id (idArg : option Id) (w : World) :
  let '(w', r) := SceneNode.new idArg w in
  id <$> heap w' !! r
  = Some (match idArg with Some i => i | None => Uuid (uuids w) end).
Proof.
  unfold SceneNode.new. destruct idArg; cbn; rewrite lookup_insert_eq; reflexivity.
Qed.

(** C8 (amended). A node receives its id at construction: the id
    passed to the constructor, or a new UUID when none is passed.  For
    every node [n], [n.clone(deep)] returns a node object distinct from
    [n] and from every existing node, whose id equals the id of [n];
    the existing nodes and the scene are left as they were, so two
    distinct live nodes share an id. *)
Theorem clone_keeps_id (d : nat) (w : World) (this : ref) (deep : bool) :
  wf w -> cloneable d w this deep = true ->
  (forall idArg : option Id,
     id <$> heap (fst (SceneNode.new idArg w)) !! snd (SceneNode.new idArg w)
     = Some (match idArg with Some i => i | None => Uuid (uuids w) end))
  /\ exists w' c n nc,
       SceneNode.clone (S d) this deep w = JS.Return (w', c)
       /\ c <> this /\ heap w !! c = None
       /\ heap w !! this = Some n /\ heap w' !! c = Some nc
       /\ id nc = id n
       /\ (forall (r : ref) (m : Node),
             heap w !! r = Some m -> heap w' !! r = Some m)
       /\ theScene w' = theScene w.
Proof.
  intros Hwf Hcl. split.
  { intros idArg. pose proof (new_id idArg w) as H.
    destruct (SceneNode.new idArg w). exact H. }
  destruct (clone_spec d this deep w Hwf Hcl) as (w' & c & Hclone & Hcloned).
  destruct Hcloned as (Hc & _ & _ & Hscene & Hframe & n & nc & Hn & Hnc & Hid & _).
  pose proof (wf_live w this n Hwf Hn) as Hlt.
  exists w', c, n, nc. repeat split; try assumption.
  - lia.
  - apply Hwf. lia.
  - intros r m Hm. rewrite Hframe by exact (wf_live w r m Hwf Hm). exact Hm.
Qed.

(** The allocator invariant holds of the empty world and is kept by
    the constructor. *)
Lemma emptyWorld_wf : wf Scene.emptyWorld.
Proof. intros r _. apply lookup_empty. Qed.

Lemma new_wf (idArg : option Id) (w : World) :
  wf w -> wf (fst (SceneNode.new idArg w)).
Proof.
  intros Hwf r Hr. unfold SceneNode.new in *.
  destruct idArg; cbn in *; (rewrite lookup_insert_ne by lia); apply Hwf; lia.
Qed.

Lemma wfb_wf (w : World) : wfb w = true -> wf w.
Proof.
  unfold wfb. rewrite forallb_forall. intros H r Hr.
  destruct (heap w !! r) as [n |] eqn:Hn; [| reflexivity].
  apply elem_of_map_to_list in Hn. apply list_elem_of_In in Hn.
  apply H in Hn. cbn in Hn. apply Nat.ltb_lt in Hn. lia.
Qed.

Lemma clone_keeps_id_witness :
  let w := Scenarios.chainWorld in
  let this := Scenarios.chainRoot in
  wf w /\ cloneable 2 w this true = true
  /\ exists w' c n nc,
       SceneNode.clone 3 this true w = JS.Return (w', c)
       /\ c <> this /\ heap w !! c = None
       /\ heap w !! this = Some n /\ heap w' !! c = Some nc
       /\ id nc = id n
       /\ (forall (r : ref) (m : Node),
             heap w !! r = Some m -> heap w' !! r = Some m)
       /\ theScene w' = theScene w.
Proof.
  cbv zeta.
  assert (Hwf : wf Scenarios.chainWorld) by (apply wfb_wf; vm_compute; reflexivity).
  assert (Hcl : cloneable 2 Scenarios.chainWorld Scenarios.chainRoot true = true)
    by (vm_compute; reflexivity).
  split; [exact Hwf |]. split; [exact Hcl |].
  exact (proj2 (clone_keeps_id 2 _ _ true Hwf Hcl)).
Defined.

(** The deep clone of the chain: three new nodes, carrying the ids of
    the three nodes they were cloned from. *)
Example clone_chain_ids :
  exists w' c,
    SceneNode.clone 3 Scenarios.chainRoot true Scenarios.chainWorld
    = JS.Return (w', c)
    /\ map (fun r => id <$> heap w' !! r) [0; 1; 2; 3; 4; 5]%nat
       = [Some (Uuid 0); Some (Uuid 1); Some (Uuid 2);
          Some (Uuid 0); Some (Uuid 1); Some (Uuid 2)].
Proof.
  eexists. eexists. split; vm_compute; reflexivity.
Qed.

End CloneFacts.

(** ** LayerManager.getBatchedNodes *)

Section BatchFacts.
Import Store LayerManager.

(** The sort is stable: elements with equal keys keep their order. *)
Example sortBy_stable :
  sortBy fst [(1, "a"); (0, "b"); (1, "c"); (0, "d")]
  = [(0, "b"); (0, "d"); (1, "a"); (1, "c")].
Proof. reflexivity. Qed.

(** The manager as constructed: three layers in z order, no node. *)
Example new_sorted_layers :
  map (fun en => lid (slayer en)) (fst (getSortedNodes LayerManager.new))
  = ["background"; "default"; "ui"].
Proof. vm_compute. reflexivity. Qed.

Lemma fold_step_map (layer : Layer) (ns : list Node) acc :
  fold_left (fun bs node => addToBatches bs layer node) ns acc
  = fold_left step (map (fun n => (layer, n)) ns) acc.
Proof.
  revert acc. induction ns as [| n ns IH]; intros acc; cbn; [reflexivity |].
  apply IH.
Qed.

(** The two nested loops walk the stream. *)
Lemma batchesOf_stream (sorted : list SortedEntry) :
  batchesOf sorted = fold_left step (stream sorted) [].
Proof.
  unfold batchesOf. generalize (@nil (string * Batch)) as acc.
  induction sorted as [| en rest IH]; intros acc; cbn; [reflexivity |].
  rewrite fold_left_app, <- fold_step_map. apply IH.
Qed.

Lemma paintOrder_stream (sorted : list SortedEntry) :
  flat_map snodes sorted = map snd (stream sorted).
Proof.
  induction sorted as [| en rest IH]; cbn; [reflexivity |].
  rewrite map_app, map_map, IH. cbn. rewrite map_id. reflexivity.
Qed.

Section MapFacts.
Context {V : Type}.
Implicit Types (m : list (string * V)) (k : string).

Lemma mapHas_In k m : mapHas k m = true <-> In k (map fst m).
Proof.
  unfold mapHas. induction m as [| [k0 v0] m IH]; cbn.
  - split; [discriminate | tauto].
  - destruct (String.eqb k0 k) eqn:E.
    + apply String.eqb_eq in E. tauto.
    + apply String.eqb_neq in E. rewrite IH. tauto.
Qed.

Lemma mapSet_fresh k (v : V) m :
  ~ In k (map fst m) -> mapSet k v m = m ++ [(k, v)].
Proof.
  induction m as [| [k0 v0] m IH]; cbn; intros H; [reflexivity |].
  destruct (String.eqb k0 k) eqn:E.
  - apply String.eqb_eq in E. tauto.
  - rewrite IH by tauto. reflexivity.
Qed.

Lemma mapAlter_fresh (g : V -> V) k m m' :
  ~ In k (map fst m) -> mapAlter g k (m ++ m') = m ++ mapAlter g k m'.
Proof.
  induction m as [| [k0 v0] m IH]; cbn; intros H; [reflexivity |].
  destruct (String.eqb k0 k) eqn:E.
  - apply String.eqb_eq in E. tauto.
  - rewrite IH by tauto. reflexivity.
Qed.

Lemma mapAlter_absent (g : V -> V) k m :
  ~ In k (map fst m) -> mapAlter g k m = m.
Proof.
  intros H. rewrite <- (app_nil_r m) at 1. rewrite mapAlter_fresh by exact H.
  cbn. apply app_nil_r.
Qed.

Lemma mapAlter_NoDup (g : V -> V) k m :
  NoDup (map fst m) ->
  mapAlter g k m
  = map (fun kv => if String.eqb (fst kv) k then (fst kv, g (snd kv)) else kv) m.
Proof.
  induction m as [| [k0 v0] m IH]; cbn; intros H; [reflexivity |].
  apply NoDup_cons in H. destruct H as [Hnotin Hnd].
  destruct (String.eqb k0 k) eqn:E.
  - apply String.eqb_eq in E. subst k0. f_equal.
    rewrite <- (mapAlter_absent g k m) at 1
      by (rewrite <- list_elem_of_In; exact Hnotin).
    apply IH. exact Hnd.
  - f_equal. apply IH. exact Hnd.
Qed.

End MapFacts.

Lemma firstKeys_In (k : string) (ks : list string) :
  In k (firstKeys ks) <-> In k ks.
Proof.
  induction ks as [| k0 ks IH]; cbn; [tauto |].
  assert (Hf : In k (filter (fun k' => k' <> k0) (firstKeys ks))
               <-> k <> k0 /\ In k ks).
  { rewrite <- IH, <- !list_elem_of_In.
    apply (list_elem_of_filter (fun k' : string => k' <> k0)). }
  rewrite Hf. destruct (decide (k0 = k)) as [-> | Hne]; [tauto |].
  split; [tauto |]. intros [H | H]; [tauto |]. right. split; [congruence | exact H].
Qed.

Lemma firstKeys_NoDup (ks : list string) : NoDup (firstKeys ks).
Proof.
  induction ks as [| k0 ks IH]; cbn; [constructor |].
  apply NoDup_cons. split.
  - rewrite list_elem_of_filter. tauto.
  - apply NoDup_filter. exact IH.
Qed.

Lemma firstKeys_snoc (k : string) (ks : list string) :
  firstKeys (ks ++ [k])
  = if decide (k ∈ ks) then firstKeys ks else firstKeys ks ++ [k].
Proof.
  induction ks as [| k0 ks IH]; cbn [app firstKeys].
  - rewrite decide_False by apply not_elem_of_nil. reflexivity.
  - rewrite IH. destruct (decide (k ∈ ks)) as [Hin | Hnin].
    + rewrite decide_True by (apply list_elem_of_further; exact Hin). reflexivity.
    + rewrite filter_app, filter_singleton by exact [].
      repeat case_decide; rewrite ?app_nil_r; try reflexivity; exfalso;
        repeat match goal with
               | H : _ ∈ _ :: _ |- _ => apply elem_of_cons in H
               | H : _ ∉ _ :: _ |- _ => apply not_elem_of_cons in H
               end; intuition congruence.
Qed.

Lemma nodesWithKey_snoc (s : list (Layer * Node)) (x : Layer * Node) (k : string) :
  nodesWithKey (s ++ [x]) k
  = nodesWithKey s k ++ (if decide (keyOf x = k) then [snd x] else []).
Proof.
  unfold nodesWithKey. rewrite filter_app, map_app, filter_singleton by exact [].
  destruct (decide (keyOf x = k)); reflexivity.
Qed.

Lemma nodesWithKey_absent (s : list (Layer * Node)) (k : string) :
  ~ In k (map keyOf s) -> nodesWithKey s k = [].
Proof.
  unfold nodesWithKey. induction s as [| y s IH]; intros H; [reflexivity |].
  cbn in H. rewrite filter_cons_False by tauto. apply IH. tauto.
Qed.

(** The batches built from a stream: one batch per key, in the order
    in which the keys first occur, holding all the nodes of the stream
    with that key in stream order. *)
Lemma fold_step_view (s : list (Layer * Node)) :
  view (fold_left step s [])
  = map (fun k => (k, nodesWithKey s k)) (firstKeys (map keyOf s)).
Proof.
  induction s as [| x s IH] using rev_ind; [reflexivity |].
  rewrite fold_left_app. cbn [fold_left].
  set (bs := fold_left step s []) in *.
  assert (Hkeys : map fst bs = firstKeys (map keyOf s)).
  { transitivity (map fst (view bs)).
    - unfold view. rewrite map_map. reflexivity.
    - rewrite IH, map_map. cbn [fst]. apply map_id. }
  rewrite map_app. cbn [map]. rewrite firstKeys_snoc.
  unfold step, addToBatches. fold (keyOf x).
  destruct (decide (keyOf x ∈ map keyOf s)) as [Hin | Hnin];
    rewrite list_elem_of_In in Hin || rewrite list_elem_of_In in Hnin.
  - assert (Hhas : mapHas (keyOf x) bs = true).
    { apply mapHas_In. rewrite Hkeys. apply (proj2 (firstKeys_In _ _)). exact Hin. }
    rewrite Hhas. cbn [negb].
    rewrite mapAlter_NoDup by (rewrite Hkeys; apply firstKeys_NoDup).
    unfold view in *. rewrite map_map.
    transitivity
      (map (fun kn : string * list Node =>
              if String.eqb (fst kn) (keyOf x) then (fst kn, snd kn ++ [snd x])
              else kn)
           (map (fun kb : string * Batch => (fst kb, bnodes (snd kb))) bs)).
    { rewrite map_map. apply map_ext. intros [k b]. cbn [fst snd bnodes].
      destruct (String.eqb k (keyOf x)); reflexivity. }
    rewrite IH, map_map. apply map_ext. intros k. cbn [fst snd].
    rewrite nodesWithKey_snoc.
    destruct (String.eqb k (keyOf x)) eqn:E.
    + apply String.eqb_eq in E. subst k.
      rewrite decide_True by reflexivity. reflexivity.
    + apply String.eqb_neq in E.
      rewrite decide_False by congruence. rewrite app_nil_r. reflexivity.
  - assert (Hhas : mapHas (keyOf x) bs = false).
    { destruct (mapHas (keyOf x) bs) eqn:E; [| reflexivity].
      apply mapHas_In in E. rewrite Hkeys in E. apply (proj1 (firstKeys_In _ _)) in E.
      contradiction. }
    assert (Hfresh : ~ In (keyOf x) (map fst bs)).
    { rewrite Hkeys, firstKeys_In. exact Hnin. }
    rewrite Hhas. cbn [negb].
    rewrite mapSet_fresh by exact Hfresh.
    rewrite mapAlter_fresh by exact Hfresh.
    cbn [mapAlter]. rewrite String.eqb_refl.
    unfold view in *. rewrite !map_app. cbn [map fst snd bnodes].
    rewrite IH. f_equal.
    + apply map_ext_in. intros k Hk. apply (proj1 (firstKeys_In _ _)) in Hk.
      rewrite nodesWithKey_snoc.
      rewrite decide_False by (intros Heq; subst k; contradiction).
      rewrite app_nil_r. reflexivity.
    + rewrite nodesWithKey_snoc, nodesWithKey_absent by exact Hnin.
      rewrite decide_True by reflexivity. reflexivity.
Qed.

Lemma nodesWithKey_cons (x : Layer * Node) (s : list (Layer * Node)) (k : string) :
  nodesWithKey (x :: s) k
  = (if decide (keyOf x = k) then [snd x] else []) ++ nodesWithKey s k.
Proof.
  unfold nodesWithKey. rewrite filter_cons.
  destruct (decide (keyOf x = k)); reflexivity.
Qed.

Lemma filter_all {A : Type} (P : A -> Prop) `{forall x, Decision (P x)}
    (l : list A) :
  (forall x, In x l -> P x) -> filter P l = l.
Proof.
  induction l as [| y l IH]; intros Hall; [reflexivity |].
  rewrite filter_cons_True by (apply Hall; left; reflexivity).
  f_equal. apply IH. intros x Hx. apply Hall. right. exact Hx.
Qed.

(** Merging adjacent runs never changes the order of the nodes. *)
Lemma mergeAdjacentRuns_order (s : list (Layer * Node)) :
  flat_map snd (mergeAdjacentRuns s) = map snd s.
Proof.
  induction s as [| x s IH]; [reflexivity |].
  cbn [mergeAdjacentRuns map].
  destruct (mergeAdjacentRuns s) as [| [k ns] runs].
  - cbn in IH. rewrite <- IH. reflexivity.
  - destruct (String.eqb (keyOf x) k); cbn [flat_map snd app] in *;
      rewrite <- IH; reflexivity.
Qed.

Lemma mergeAdjacentRuns_keys (s : list (Layer * Node)) (k : string) :
  In k (map fst (mergeAdjacentRuns s)) -> In k (map keyOf s).
Proof.
  revert k. induction s as [| x s IH]; intros k; [cbn; tauto |].
  cbn [mergeAdjacentRuns map].
  destruct (mergeAdjacentRuns s) as [| [k1 ns] runs].
  - cbn. tauto.
  - destruct (String.eqb (keyOf x) k1) eqn:E; cbn [map fst In] in *.
    + intros [H | H]; right; apply IH; [left | right]; assumption.
    + intros [H | H]; [left; exact H | right; apply IH; exact H].
Qed.

Lemma existsb_eqb_In (k : string) (ks : list string) :
  existsb (String.eqb k) ks = true <-> In k ks.
Proof.
  rewrite existsb_exists. split.
  - intros (y & Hy & E). apply String.eqb_eq in E. subst. exact Hy.
  - intros H. exists k. split; [exact H | apply String.eqb_refl].
Qed.

(** When no key comes back after another key, the batches of the code
    are the adjacent runs of the specification. *)
Lemma adjacent_runs (s : list (Layer * Node)) :
  keysAdjacent (map keyOf s) = true ->
  mergeAdjacentRuns s
  = map (fun k => (k, nodesWithKey s k)) (firstKeys (map keyOf s)).
Proof.
  induction s as [| x s IH]; intros Hadj; [reflexivity |].
  assert (Hadj' : keysAdjacent (map keyOf s) = true).
  { cbn [map keysAdjacent] in Hadj. destruct (map keyOf s); [reflexivity |].
    apply andb_true_iff in Hadj. tauto. }
  specialize (IH Hadj').
  assert (Hrest : forall l : list string,
            ~ In (keyOf x) l ->
            map (fun k => (k, nodesWithKey (x :: s) k)) l
            = map (fun k => (k, nodesWithKey s k)) l).
  { intros l Hl. apply map_ext_in. intros k Hk. rewrite nodesWithKey_cons.
    rewrite decide_False by (intros Heq; subst k; contradiction). reflexivity. }
  destruct (decide (keyOf x ∈ map keyOf s)) as [Hin | Hnin].
  - (* the key of [x] occurs later: it is the key of the next node *)
    destruct s as [| y s']; [apply elem_of_nil in Hin; contradiction |].
    assert (Hk : keyOf x = keyOf y).
    { cbn [map keysAdjacent] in Hadj.
      apply andb_true_iff in Hadj. destruct Hadj as [Hadj _].
      apply orb_true_iff in Hadj. destruct Hadj as [E | E].
      - apply String.eqb_eq in E. exact E.
      - apply negb_true_iff in E. apply list_elem_of_In in Hin.
        apply existsb_eqb_In in Hin. cbn [map] in Hin. congruence. }
    cbn [mergeAdjacentRuns]. cbn [mergeAdjacentRuns] in IH.
    rewrite IH. cbn [map firstKeys]. rewrite Hk, String.eqb_refl.
    set (rest := filter (fun k' => k' <> keyOf y) (firstKeys (map keyOf s'))).
    assert (Hnotin : forall k, In k rest -> k <> keyOf y).
    { intros k Hkin. apply list_elem_of_In in Hkin. unfold rest in Hkin.
      apply (list_elem_of_filter (fun k' : string => k' <> keyOf y)) in Hkin.
      tauto. }
    rewrite filter_cons_False by tauto.
    rewrite (filter_all (fun k' => k' <> keyOf y) rest Hnotin).
    cbn [map]. f_equal.
    + rewrite (nodesWithKey_cons x). rewrite decide_True by exact Hk. reflexivity.
    + symmetry. apply Hrest. rewrite Hk. intros Hkin.
      apply (Hnotin _ Hkin). reflexivity.
  - (* the key of [x] does not occur later: [x] is a run of its own *)
    rewrite list_elem_of_In in Hnin.
    assert (Hmerge : mergeAdjacentRuns (x :: s)
                     = (keyOf x, [snd x]) :: mergeAdjacentRuns s).
    { cbn [mergeAdjacentRuns].
      destruct (mergeAdjacentRuns s) as [| [k1 ns] runs] eqn:E; [reflexivity |].
      destruct (String.eqb (keyOf x) k1) eqn:Ek; [| reflexivity].
      apply String.eqb_eq in Ek. exfalso. apply Hnin.
      apply mergeAdjacentRuns_keys. rewrite E. left. symmetry. exact Ek. }
    rewrite Hmerge, IH. cbn [map firstKeys].
    rewrite (filter_all (fun k' => k' <> keyOf x)).
    2:{ intros k Hkin Heq. subst k. apply Hnin.
        apply (proj1 (firstKeys_In _ _)). exact Hkin. }
    cbn [map]. f_equal.
    + rewrite nodesWithKey_cons, decide_True by reflexivity.
      rewrite nodesWithKey_absent by exact Hnin. reflexivity.
    + symmetry. apply Hrest. intros Hkin. apply Hnin.
      apply (proj1 (firstKeys_In _ _)). exact Hkin.
Qed.

Lemma flat_map_view (bs : list (string * Batch)) :
  flat_map bnodes (map snd bs) = flat_map snd (view bs).
Proof.
  unfold view. induction bs as [| [k b] bs IH]; cbn; [reflexivity |].
  rewrite IH. reflexivity.
Qed.

Lemma getBatchedNodes_fst (this : t) :
  fst (getBatchedNodes this) = map snd (batchesOf (fst (getSortedNodes this))).
Proof.
  unfold getBatchedNodes. destruct (getSortedNodes this). reflexivity.
Qed.

(** C3, as stated, fails: with a red, a blue and a red node from back
    to front on one layer, the batches list the second red node before
    the blue node that is painted before it. *)
Lemma getBatchedNodes_order_counterexample :
  let lm := Scenarios.interleavedLayers in
  map name (paintOrder lm) = ["A"; "B"; "C"]
  /\ map name (batchOrder lm) = ["A"; "C"; "B"]
  /\ batchOrder lm <> paintOrder lm.
Proof.
  cbv zeta. split; [vm_compute; reflexivity |].
  split; [vm_compute; reflexivity |].
  intros H. apply (f_equal (map name)) in H. vm_compute in H. discriminate.
Qed.

(** C3 (amended). [getBatchedNodes] merges all the nodes of the
    [getSortedNodes] stream that share a batch key into one batch,
    adjacent or not: there is one batch per key, the batches come in
    the order in which their keys first occur in the stream, and each
    batch lists its nodes in stream order.  The concatenation of the
    batches is the layer/z paint order whenever no key comes back
    after a node with another key, that is, when the nodes that share
    a key are adjacent in the stream. *)
Theorem getBatchedNodes_groups_by_key (this : t) :
  let s := stream (fst (getSortedNodes this)) in
  map bnodes (fst (getBatchedNodes this))
  = map (nodesWithKey s) (firstKeys (map keyOf s))
  /\ (keysAdjacent (map keyOf s) = true -> batchOrder this = paintOrder this).
Proof.
  cbv zeta.
  pose proof (fold_step_view (stream (fst (getSortedNodes this)))) as Hview.
  rewrite <- batchesOf_stream in Hview.
  split.
  - rewrite getBatchedNodes_fst.
    transitivity (map snd (view (batchesOf (fst (getSortedNodes this))))).
    + unfold view. rewrite !map_map. reflexivity.
    + rewrite Hview, map_map. reflexivity.
  - intros Hadj. unfold batchOrder, paintOrder.
    rewrite getBatchedNodes_fst, flat_map_view, Hview.
    rewrite <- (adjacent_runs _ Hadj), mergeAdjacentRuns_order.
    symmetry. apply paintOrder_stream.
Qed.

Lemma getBatchedNodes_groups_by_key_witness :
  let this := Scenarios.groupedLayers in
  keysAdjacent (map keyOf (stream (fst (getSortedNodes this)))) = true
  /\ batchOrder this = paintOrder this
  /\ map name (paintOrder this) = ["A"; "C"; "B"].
Proof.
  cbv zeta.
  assert (H : keysAdjacent
                (map keyOf (stream (fst (getSortedNodes Scenarios.groupedLayers))))
              = true) by (vm_compute; reflexivity).
  split; [exact H |].
  split; [exact (proj2 (getBatchedNodes_groups_by_key _) H) |].
  vm_compute. reflexivity.
Defined.

End BatchFacts.

(** * Further properties of the code *)

(** ** Transform: composition, inversion, cloning *)

Section TransformAlgebra.
Import Transform.



(** X3. [invert()] on a singular matrix does not fail: it resets the
    matrix to the identity, so the result maps every point to
    itself. *)
Theorem invert_singular (T : t) (P : Point) :
  det T == 0 ->
  is_identity (invert T) /\ point_eq (transformPoint (invert T) P) P.
Proof.
  intros Hdet. unfold det in Hdet. unfold invert, Num.eqb.
  apply Qeq_bool_iff in Hdet. rewrite Hdet.
  unfold is_identity, point_eq, transformPoint, identity. cbn.
  repeat split; try reflexivity; ring.
Qed.

Lemma invert_singular_witness :
  let T := mk 0 0 0 1 1 2 4 1 2 7 9 None false in
  let P := mkPoint 3 5 in
  det T == 0
  /\ is_identity (invert T) /\ point_eq (transformPoint (invert T) P) P.
Proof.
  cbv zeta.
  assert (H : det (mk 0 0 0 1 1 2 4 1 2 7 9 None false) == 0) by reflexivity.
  split; [exact H | exact (invert_singular _ _ H)].
Defined.



(** [clone()] copies the fields [x], [y], [rotation], [scaleX]
    and [scaleY] but not the matrix: whatever the matrix of the
    original, the clone maps every point to itself. *)
Theorem clone_drops_matrix (T : t) (P : Point) :
  x (clone T) = x T /\ y (clone T) = y T /\ rotation (clone T) = rotation T
  /\ scaleX (clone T) = scaleX T /\ scaleY (clone T) = scaleY T
  /\ is_identity (clone T)
  /\ point_eq (transformPoint (clone T) P) P.
Proof.
  unfold clone, new, is_identity, point_eq, transformPoint. cbn.
  repeat split; try reflexivity; ring.
Qed.

(** [scale] acts in the local frame and [translate] in the parent
    frame: a scaled transform maps a point as the original maps the
    scaled point, and a translated transform maps a point to the
    shifted image. *)
Theorem scale_translate_action (T : t) (sx sy dx dy : Q) (P : Point) :
  point_eq (transformPoint (scale T sx sy) P)
           (transformPoint T (mkPoint (sx * px P) (sy * py P)))
  /\ point_eq (transformPoint (translate T dx dy) P)
              (mkPoint (px (transformPoint T P) + dx)
                       (py (transformPoint T P) + dy)).
Proof.
  unfold point_eq, transformPoint, scale, translate. cbn.
  repeat split; ring.
Qed.

(** The determinant is multiplicative. *)
Lemma det_multiply (A B : t) : det (multiply A B) == det A * det B.
Proof. unfold det, multiply. cbn. ring. Qed.

End TransformAlgebra.

(** ** AABB: union, intersection, point sets *)

Section BoxAlgebra.
Import AABB.

(** Case analysis on every [Qmin] and [Qmax] in sight. *)
Ltac minmax :=
  repeat match goal with
         | |- context [Qmax ?p ?q] =>
             let m := fresh "m" in
             let H := fresh "H" in
             pose proof (Q.max_spec p q) as H;
             set (m := Qmax p q) in *; clearbody m;
             destruct H as [[? ?] | [? ?]]
         | |- context [Qmin ?p ?q] =>
             let m := fresh "m" in
             let H := fresh "H" in
             pose proof (Q.min_spec p q) as H;
             set (m := Qmin p q) in *; clearbody m;
             destruct H as [[? ?] | [? ?]]
         | H0 : context [Qmax ?p ?q] |- _ =>
             let m := fresh "m" in
             let H := fresh "H" in
             pose proof (Q.max_spec p q) as H;
             set (m := Qmax p q) in *; clearbody m;
             destruct H as [[? ?] | [? ?]]
         | H0 : context [Qmin ?p ?q] |- _ =>
             let m := fresh "m" in
             let H := fresh "H" in
             pose proof (Q.min_spec p q) as H;
             set (m := Qmin p q) in *; clearbody m;
             destruct H as [[? ?] | [? ?]]
         end.

Lemma leb_le p q : Num.leb p q = true <-> p <= q.
Proof. apply Qle_bool_iff. Qed.

Lemma geb_ge p q : Num.geb p q = true <-> q <= p.
Proof. apply Qle_bool_iff. Qed.


Lemma containsPoint_spec (A : t) (x y : Q) :
  containsPoint A x y = true <->
  _x A <= x /\ x <= _x A + _width A /\ _y A <= y /\ y <= _y A + _height A.
Proof.
  unfold containsPoint. rewrite !andb_true_iff, !leb_le, !geb_ge. tauto.
Qed.





(** When the minimum corner of [A] is left of that of [B], the result
    can reach outside [A]: (0, 0, 10, 10) intersected with
    (5, 0, 10, 10) is (5, 0, 10, 10). *)
Example intersect_outside_receiver :
  let A := new 0 0 10 10 in
  let B := new 5 0 10 10 in
  box_eq (intersect A B) (new 5 0 10 10)
  /\ containsAABB A (intersect A B) = false.
Proof. cbv zeta. split; [repeat split | reflexivity]. Qed.




(** A box of width zero inside another box counts as intersecting it,
    with an intersection area of zero. *)
Example getIntersectionArea_flat_box :
  let A := new 5 5 0 2 in
  let B := new 0 0 10 10 in
  intersectsAABB A B = true /\ getIntersectionArea A B == 0.
Proof. cbv zeta. split; reflexivity. Qed.








(** X12. For a box of non-negative size, the closest point lies in
    the box, and it is the point itself when the box contains the
    point. *)
Theorem getClosestPoint_in_box (A : t) (x y : Q) :
  0 <= _width A -> 0 <= _height A ->
  containsPoint A (Transform.px (getClosestPoint A x y))
                  (Transform.py (getClosestPoint A x y)) = true
  /\ (containsPoint A x y = true ->
      Transform.point_eq (getClosestPoint A x y) (Transform.mkPoint x y)).
Proof.
  intros Hw Hh. split.
  - apply containsPoint_spec. unfold getClosestPoint.
    cbn [Transform.px Transform.py]. repeat split; minmax; lra.
  - intros H. apply containsPoint_spec in H. destruct H as (H1 & H2 & H3 & H4).
    unfold Transform.point_eq, getClosestPoint.
    cbn [Transform.px Transform.py]. split; minmax; lra.
Qed.

Lemma getClosestPoint_in_box_witness :
  let A := new 0 0 10 10 in
  0 <= _width A /\ 0 <= _height A
  /\ containsPoint A (Transform.px (getClosestPoint A 15 (-3)))
                     (Transform.py (getClosestPoint A 15 (-3))) = true.
Proof.
  cbv zeta.
  assert (Hw : 0 <= _width (new 0 0 10 10)) by (cbn; lra).
  assert (Hh : 0 <= _height (new 0 0 10 10)) by (cbn; lra).
  split; [exact Hw |]. split; [exact Hh |].
  exact (proj1 (getClosestPoint_in_box _ 15 (-3) Hw Hh)).
Defined.

End BoxAlgebra.

(** ** QuadTree: queries and removal *)

Section QuadTreeMore.
Import QuadTree.

(** A loop over an array that threads an outcome keeps an invariant
    that each of its turns keeps. *)
Lemma fold_outcome_stuck {A B : Type} (step : A -> B -> JS.Outcome A)
    (l : list B) (m : JS.Outcome A) :
  (forall v, m <> JS.Return v) ->
  forall r, fold_left (fun acc b => x ← acc; step x b) l m <> JS.Return r.
Proof.
  revert m. induction l as [| b l IH]; intros m Hm r; cbn; [apply Hm |].
  apply IH. intros v. destruct m as [v0 | err |]; cbn.
  - exfalso. apply (Hm v0). reflexivity.
  - unfold mbind, outcome_bind. cbn. discriminate.
  - unfold mbind, outcome_bind. cbn. discriminate.
Qed.

Lemma fold_outcome_inv {A B : Type} (I : A -> Prop)
    (step : A -> B -> JS.Outcome A) (l : list B) :
  (forall v b v', In b l -> I v -> step v b = JS.Return v' -> I v') ->
  forall v r, I v ->
    fold_left (fun acc b => x ← acc; step x b) l (JS.Return v) = JS.Return r ->
    I r.
Proof.
  induction l as [| b l IH]; intros Hstep v r Hv Hfold; cbn in Hfold.
  - injection Hfold as <-. exact Hv.
  - unfold mbind, outcome_bind in Hfold. cbn in Hfold.
    destruct (step v b) as [v' | err |] eqn:E.
    + apply (IH (fun v0 b0 v1 Hin => Hstep v0 b0 v1 (or_intror Hin)) v' r).
      * apply (Hstep v b v'); [left; reflexivity | exact Hv | exact E].
      * exact Hfold.
    + exfalso. revert Hfold.
      apply (fold_outcome_stuck step l (JS.Throw err)). discriminate.
    + exfalso. revert Hfold.
      apply (fold_outcome_stuck step l JS.OutOfFuel). discriminate.
Qed.





Lemma spliceObject_last (o : Obj) (l : list Obj) :
  (forall y, In y l -> oid y <> oid o) ->
  spliceObject o (l ++ [o]) = l.
Proof.
  induction l as [| y l IH]; intros H; cbn.
  - rewrite Nat.eqb_refl. reflexivity.
  - destruct (Nat.eqb (oid y) (oid o)) eqn:E.
    + apply Nat.eqb_eq in E. exfalso. apply (H y); [left; reflexivity | exact E].
    + f_equal. apply IH. intros z Hz. apply H. right. exact Hz.
Qed.

Lemma existsb_oid_false (k : nat) (keys : list nat) :
  ~ In k keys -> existsb (Nat.eqb k) keys = false.
Proof.
  intros H. destruct (existsb (Nat.eqb k) keys) eqn:E; [| reflexivity].
  apply existsb_exists in E. destruct E as (y & Hy & Ey).
  apply Nat.eqb_eq in Ey. subst. contradiction.
Qed.

Lemma existsb_oid_true (k : nat) (keys : list nat) :
  In k keys -> existsb (Nat.eqb k) keys = true.
Proof.
  intros H. apply existsb_exists. exists k. split; [exact H | apply Nat.eqb_refl].
Qed.

Lemma insert_hasRoom (fuel : nat) (this : t) (o : Obj) :
  hasRoom this ->
  insert (S fuel) this o
  = JS.Return {| bounds := bounds this; maxObjects := maxObjects this;
                 maxLevels := maxLevels this; level := level this;
                 objects := objects this ++ [o]; nodes := [];
                 objectsMap := mapSet (objectsMap this) o |}.
Proof.
  intros [Hn Hroom]. destruct this as [b mo ml lv os ns keys].
  cbn [nodes objects maxObjects maxLevels level] in *. subst ns.
  assert (E : ((mo <? length (os ++ [o]))%nat && (lv <? ml)%nat) = false).
  { apply andb_false_iff. rewrite length_app. cbn [length].
    destruct Hroom as [H | H]; [left | right]; apply Nat.ltb_ge; lia. }
  cbn. cbn in E. rewrite E. reflexivity.
Qed.

(** X14. On a node that has not been split and has room, inserting an
    object that is not stored yet and removing it again gives the node
    back. *)
Theorem insert_remove_round_trip (fuel : nat) (this : t) (o : Obj) :
  hasRoom this ->
  ~ In (oid o) (objectsMap this) ->
  (forall y, In y (objects this) -> oid y <> oid o) ->
  (this1 ← insert (S fuel) this o; remove (S fuel) this1 o) = JS.Return this.
Proof.
  intros Hroom Hkey Hobj.
  rewrite (insert_hasRoom fuel this o Hroom).
  unfold mbind, outcome_bind. cbn [JS.bind].
  cbn [remove objectsMap objects bounds maxObjects maxLevels level nodes].
  unfold mapSet. rewrite (existsb_oid_false _ _ Hkey).
  rewrite (existsb_oid_true (oid o) (objectsMap this ++ [oid o]))
    by (apply in_or_app; right; left; reflexivity).
  rewrite existsb_app. cbn [existsb]. rewrite Nat.eqb_refl.
  cbn [orb]. rewrite orb_true_r.
  rewrite spliceObject_last by exact Hobj.
  unfold mapDelete. rewrite filter_app.
  rewrite (filter_all (fun k => k <> oid o) (objectsMap this))
    by (intros k Hk Heq; subst; contradiction).
  rewrite filter_cons_False by tauto. rewrite filter_nil, app_nil_r.
  destruct Hroom as [Hn _]. destruct this; cbn in *. subst. reflexivity.
Qed.

Lemma insert_remove_round_trip_witness :
  let this := new_default (AABB.new 0 0 100 100) in
  let o := mkObj 7 (AABB.new 40 40 20 20) in
  hasRoom this
  /\ (this1 ← insert 1 this o; remove 1 this1 o) = JS.Return this.
Proof.
  cbv zeta.
  assert (H : hasRoom (new_default (AABB.new 0 0 100 100))).
  { split; [reflexivity | left; cbn; lia]. }
  split; [exact H |].
  apply (insert_remove_round_trip 0 _ _ H).
  - intros [].
  - intros y [].
Defined.

Lemma insertMany_leaf (fuel : nat) (os : list Obj) :
  forall this : t,
    nodes this = [] ->
    (length (objects this) + length os <= maxObjects this)%nat ->
    exists tree,
      insertMany (S fuel) this os = JS.Return tree
      /\ nodes tree = [] /\ objects tree = objects this ++ os.
Proof.
  induction os as [| o os IH]; intros this Hn Hlen.
  - exists this. cbn. rewrite app_nil_r. tauto.
  - cbn [length] in Hlen.
    assert (Hroom : hasRoom this) by (split; [exact Hn | left; lia]).
    unfold insertMany. cbn [fold_left].
    unfold mbind at 2, outcome_bind at 2. cbn [JS.bind].
    rewrite (insert_hasRoom fuel this o Hroom).
    match goal with
    | |- context [JS.Return ?t1] =>
        match t1 with
        | {| objects := objects this ++ [o] |} =>
            destruct (IH t1) as (tree & Htree & Hnodes & Hobjs);
            [reflexivity | cbn; rewrite length_app; cbn; lia |]
        end
    end.
    exists tree. split; [exact Htree |]. split; [exact Hnodes |].
    rewrite Hobjs. cbn. rewrite <- app_assoc. reflexivity.
Qed.

Lemma fold_setAdd_filter (q : AABB.t) (os : list Obj) :
  forall acc : list Obj,
    (forall o y, In o os -> In y acc -> oid y <> oid o) ->
    NoDup (map oid os) ->
    fold_left
      (fun r o => if AABB.intersectsAABB q (obounds o) then setAdd r o else r)
      os acc
    = acc ++ bruteForce q os.
Proof.
  unfold bruteForce.
  induction os as [| o os IH]; intros acc Hdis Hnd; cbn [fold_left].
  - rewrite filter_nil, app_nil_r. reflexivity.
  - cbn [map] in Hnd. apply NoDup_cons in Hnd. destruct Hnd as [Hnotin Hnd].
    rewrite filter_cons.
    destruct (AABB.intersectsAABB q (obounds o)) eqn:E.
    + rewrite decide_True by reflexivity.
      assert (Eadd : setAdd acc o = acc ++ [o]).
      { unfold setAdd.
        destruct (existsb (fun r => Nat.eqb (oid r) (oid o)) acc) eqn:Ex;
          [| reflexivity].
        apply existsb_exists in Ex. destruct Ex as (y & Hy & Ey).
        apply Nat.eqb_eq in Ey. exfalso.
        apply (Hdis o y); [left; reflexivity | exact Hy | exact Ey]. }
      rewrite Eadd, IH; [rewrite <- app_assoc; reflexivity | | exact Hnd].
      intros o' y Ho' Hy. apply in_app_or in Hy. destruct Hy as [Hy | [<- | []]].
      * apply Hdis; [right; exact Ho' | exact Hy].
      * intros Heq. apply Hnotin. rewrite Heq.
        apply list_elem_of_In. apply in_map. exact Ho'.
    + rewrite decide_False by discriminate.
      apply IH; [| exact Hnd].
      intros o' y Ho' Hy. apply Hdis; [right; exact Ho' | exact Hy].
Qed.

(** X15. Until the root is split, the tree is exact: after inserting
    at most [maxObjects] distinct objects into a new tree, [retrieve]
    returns exactly the inserted objects whose box intersects the
    query, in insertion order. *)
Theorem retrieve_exact_before_split (fuel : nat) (b q : AABB.t)
    (mo ml : nat) (os : list Obj) :
  NoDup (map oid os) ->
  (length os <= mo)%nat ->
  exists tree,
    insertMany (S fuel) (new b mo ml 0) os = JS.Return tree
    /\ retrieve (S fuel) tree q [] = JS.Return (bruteForce q os).
Proof.
  intros Hnd Hlen.
  destruct (insertMany_leaf fuel os (new b mo ml 0)) as (tree & Ht & Hn & Ho);
    [reflexivity | cbn; lia |].
  exists tree. split; [exact Ht |].
  rewrite (retrieve_leaf fuel tree q Hn). f_equal.
  rewrite Ho. cbn [new objects app].
  rewrite (fold_setAdd_filter q os []); [reflexivity | | exact Hnd].
  intros o y _ [].
Qed.

Lemma retrieve_exact_before_split_witness :
  let os := Scenarios.smallBoxes in
  let q := AABB.new 0 0 5 5 in
  NoDup (map oid os) /\ (length os <= 10)%nat
  /\ exists tree,
       insertMany 1 (new (AABB.new 0 0 100 100) 10 5 0) os = JS.Return tree
       /\ retrieve 1 tree q [] = JS.Return (bruteForce q os).
Proof.
  cbv zeta.
  assert (Hnd : NoDup (map oid Scenarios.smallBoxes)).
  { refine (@bool_decide_unpack (NoDup (map oid Scenarios.smallBoxes)) _ _).
    vm_compute. exact I. }
  assert (Hlen : (length Scenarios.smallBoxes <= 10)%nat) by (cbn; lia).
  split; [exact Hnd |]. split; [exact Hlen |].
  exact (retrieve_exact_before_split 0 _ _ 10 5 _ Hnd Hlen).
Defined.

(** The bound on the indices, on a box that lies in one quadrant. *)
Lemma getIndices_at_most_one_witness :
  let this := new_default (AABB.new 0 0 100 100) in
  let ob := AABB.new 10 10 5 5 in
  0 <= AABB.width ob /\ 0 <= AABB.height ob
  /\ (length (getIndices this ob) <= 1)%nat.
Proof.
  cbv zeta.
  assert (Hw : 0 <= AABB.width (AABB.new 10 10 5 5)) by (cbn; lra).
  assert (Hh : 0 <= AABB.height (AABB.new 10 10 5 5)) by (cbn; lra).
  split; [exact Hw |]. split; [exact Hh |].
  exact (getIndices_at_most_one _ _ Hw Hh).
Defined.

End QuadTreeMore.

(** ** The scene graph: SceneNode and Scene *)

Section SceneGraphMore.
Import Store Chain.

Lemma heap_onNodeRemoved (node : ref) (w : World) :
  heap (Scene.onNodeRemoved node w) = heap w.
Proof. unfold Scene.onNodeRemoved. destruct (heap w !! node); reflexivity. Qed.

Lemma heap_onNodeAdded (node : ref) (w : World) :
  heap (Scene.onNodeAdded node w) = heap w.
Proof. unfold Scene.onNodeAdded. destruct (heap w !! node); reflexivity. Qed.

Lemma updateTransform_clean (w : World) (this : ref) (n : Node) :
  heap w !! this = Some n ->
  isTransformDirty n = true ->
  exists n',
    heap (SceneNode.updateTransform this w) !! this = Some n'
    /\ isTransformDirty n' = false.
Proof.
  intros H Hd. unfold SceneNode.updateTransform. rewrite H, Hd. cbn [negb].
  fold (composedWith w n).
  destruct (markChildren_lookup (children n)
              (update this (set_worldTransform (composedWith w n)) w) this
              (set_worldTransform (composedWith w n) n)) as (m' & Hm' & _).
  { apply lookup_update_eq. exact H. }
  eexists. split.
  - apply lookup_update_eq. apply lookup_update_eq. exact Hm'.
  - reflexivity.
Qed.

(** X16. A second [updateTransform()] on the same node changes
    nothing: the first call leaves the node's own transform flag
    cleared, also when the node lists itself among its children. *)
Theorem updateTransform_idempotent (w : World) (this : ref) :
  SceneNode.updateTransform this (SceneNode.updateTransform this w)
  = SceneNode.updateTransform this w.
Proof.
  destruct (heap w !! this) as [n |] eqn:Hn.
  - destruct (isTransformDirty n) eqn:Hd.
    + destruct (updateTransform_clean w this n Hn Hd) as (n' & Hn' & Hc).
      set (w' := SceneNode.updateTransform this w) in *.
      unfold SceneNode.updateTransform. rewrite Hn', Hc. reflexivity.
    + assert (E : SceneNode.updateTransform this w = w).
      { unfold SceneNode.updateTransform. rewrite Hn, Hd. reflexivity. }
      rewrite !E. reflexivity.
  - assert (E : SceneNode.updateTransform this w = w).
    { unfold SceneNode.updateTransform. rewrite Hn. reflexivity. }
    rewrite !E. reflexivity.
Qed.

Lemma markChildren_marks (l : list ref) (w : World) (c : ref) (m : Node) :
  c ∈ l ->
  heap w !! c = Some m ->
  exists m',
    heap (fold_left (fun acc child => update child (set_isTransformDirty true) acc)
                    l w) !! c = Some m'
    /\ isTransformDirty m' = true
    /\ worldTransform m' = worldTransform m.
Proof.
  revert w m. induction l as [| x l IH]; intros w m Hin H.
  - inversion Hin.
  - cbn. destruct (decide (x = c)) as [-> | Hne].
    + destruct (markChildren_lookup l (update c (set_isTransformDirty true) w) c
                  (set_isTransformDirty true m)) as (m' & Hm' & Hrel).
      { apply lookup_update_eq. exact H. }
      exists m'. split; [exact Hm' |].
      apply markedFrom_fields in Hrel. cbn in Hrel.
      destruct Hrel as (_ & _ & Hw & _ & _ & Hd).
      split; [apply Hd; reflexivity | exact Hw].
    + apply elem_of_cons in Hin as [-> | Hin]; [congruence |].
      apply IH; [exact Hin |].
      rewrite lookup_update_ne by exact Hne. exact H.
Qed.

(** X17. [updateTransform()] on a transform-dirty node marks every
    child transform-dirty and leaves the child's cached world transform
    as it was: the children are recomputed only by their own later
    calls. *)
Theorem updateTransform_marks_children (w : World) (this c : ref) (n m : Node) :
  heap w !! this = Some n ->
  isTransformDirty n = true ->
  c ∈ children n ->
  c <> this ->
  heap w !! c = Some m ->
  exists m',
    heap (SceneNode.updateTransform this w) !! c = Some m'
    /\ isTransformDirty m' = true
    /\ worldTransform m' = worldTransform m.
Proof.
  intros Hn Hd Hin Hne Hm. unfold SceneNode.updateTransform.
  rewrite Hn, Hd. cbn [negb]. fold (composedWith w n).
  destruct (markChildren_marks (children n)
              (update this (set_worldTransform (composedWith w n)) w) c m Hin)
    as (m' & Hm' & Hd' & Hw').
  { rewrite lookup_update_ne by congruence. exact Hm. }
  exists m'. split; [| tauto].
  rewrite !lookup_update_ne by congruence. exact Hm'.
Qed.

Lemma updateTransform_marks_children_witness :
  exists n m,
    heap Scenarios.chainWorld !! Scenarios.chainRoot = Some n
    /\ heap Scenarios.chainWorld !! Scenarios.chainChild = Some m
    /\ exists m',
         heap (SceneNode.updateTransform Scenarios.chainRoot Scenarios.chainWorld)
           !! Scenarios.chainChild = Some m'
         /\ isTransformDirty m' = true
         /\ worldTransform m' = worldTransform m.
Proof.
  eexists. eexists.
  split; [vm_compute; reflexivity |].
  split; [vm_compute; reflexivity |].
  eapply updateTransform_marks_children.
  - vm_compute. reflexivity.
  - vm_compute. reflexivity.
  - apply list_elem_of_In. vm_compute. left. reflexivity.
  - discriminate.
  - vm_compute. reflexivity.
Defined.

Lemma heap_removeChild (this child : ref) (w : World) (n : Node) :
  heap w !! this = Some n ->
  heap (SceneNode.removeChild this child w)
  = if bool_decide (child ∈ children n) then
      heap (update this (set_isBoundsDirty true)
             (update child (set_parent None)
               (update this
                  (fun m => set_children
                              (SceneNode.removeFirst child (children m)) m) w)))
    else heap w.
Proof.
  intros H. unfold SceneNode.removeChild. rewrite H.
  destruct (bool_decide (child ∈ children n)); [| reflexivity].
  destruct (scene n) as [[] |]; [apply heap_onNodeRemoved | reflexivity].
Qed.

Lemma heap_addChild (this child : ref) (w : World) :
  heap (SceneNode.addChild this child w)
  = heap (update this (set_isBoundsDirty true)
           (update child (set_isTransformDirty true)
             (update this (fun m => set_children (children m ++ [child]) m)
               (update child (set_parent (Some this))
                  match heap w !! child with
                  | Some c =>
                      match parent c with
                      | Some p => SceneNode.removeChild p child w
                      | None => w
                      end
                  | None => w
                  end)))).
Proof.
  unfold SceneNode.addChild. cbv zeta.
  match goal with
  | |- heap (match ?o with _ => _ end) = _ => destruct o as [n0 |]
  end; [| reflexivity].
  destruct (scene n0) as [[] |]; [apply heap_onNodeAdded | reflexivity].
Qed.

Lemma removeFirst_absent (x : ref) (l : list ref) :
  x ∉ l -> SceneNode.removeFirst x l = l.
Proof.
  induction l as [| y l IH]; intros Hx; cbn; [reflexivity |].
  apply not_elem_of_cons in Hx as [Hne Hx].
  rewrite bool_decide_eq_false_2 by congruence.
  rewrite IH by exact Hx. reflexivity.
Qed.

Lemma removeFirst_NoDup (x : ref) (l : list ref) :
  NoDup l -> x ∉ SceneNode.removeFirst x l.
Proof.
  induction l as [| y l IH]; intros Hnd; cbn.
  - apply not_elem_of_nil.
  - apply NoDup_cons in Hnd as [Hy Hnd].
    destruct (bool_decide (y = x)) eqn:E.
    + apply bool_decide_eq_true in E. subst y. exact Hy.
    + apply bool_decide_eq_false in E.
      apply not_elem_of_cons. split; [congruence | apply IH; exact Hnd].
Qed.

(** X18. [addChild(child)] moves a child that has another parent: the
    child is taken out of the old parent's list, appended to the new
    parent's list, points to the new parent and is transform-dirty. *)
Theorem addChild_reparents (w : World) (p q c : ref) (np nq nc : Node) :
  heap w !! p = Some np ->
  heap w !! q = Some nq ->
  heap w !! c = Some nc ->
  parent nc = Some q ->
  NoDup (children nq) ->
  p <> q -> p <> c -> q <> c ->
  let w' := SceneNode.addChild p c w in
  exists np' nq' nc',
    heap w' !! p = Some np' /\ heap w' !! q = Some nq' /\ heap w' !! c = Some nc'
    /\ children np' = children np ++ [c]
    /\ children nq' = SceneNode.removeFirst c (children nq)
    /\ (c ∉ children nq')
    /\ parent nc' = Some p
    /\ isTransformDirty nc' = true.
Proof.
  intros Hp Hq Hc Hpar Hnd Hpq Hpc Hqc. cbv zeta.
  rewrite heap_addChild, Hc, Hpar.
  set (w1 := SceneNode.removeChild q c w).
  assert (H1 : heap w1 !! p = Some np
               /\ (exists nq', heap w1 !! q = Some nq'
                     /\ children nq' = SceneNode.removeFirst c (children nq))
               /\ (exists nc', heap w1 !! c = Some nc')).
  { unfold w1. rewrite (heap_removeChild q c w nq Hq).
    destruct (bool_decide (c ∈ children nq)) eqn:E.
    - rewrite !lookup_update.
      repeat (destruct (decide _); try congruence).
      rewrite Hp, Hq, Hc. cbn. split; [reflexivity |].
      split; eexists; [split; reflexivity | reflexivity].
    - apply bool_decide_eq_false in E.
      split; [exact Hp |]. split.
      + exists nq. split; [exact Hq |]. symmetry. apply removeFirst_absent, E.
      + exists nc. exact Hc. }
  destruct H1 as (Hp1 & (nq' & Hq1 & Hch) & (nc' & Hc1)).
  rewrite !lookup_update.
  repeat (destruct (decide _); try congruence).
  rewrite Hp1, Hq1, Hc1. cbn.
  do 3 eexists. split; [reflexivity |]. split; [reflexivity |].
  split; [reflexivity |]. cbn.
  split; [reflexivity |]. split; [exact Hch |].
  split; [rewrite Hch; apply removeFirst_NoDup, Hnd |].
  split; reflexivity.
Qed.


Lemma addChild_reparents_witness :
  let w := Scenarios.chainWorld in
  let p := Scenarios.chainRoot in
  let q := Scenarios.chainChild in
  let c := Scenarios.chainGrandchild in
  exists np nq nc,
    heap w !! p = Some np /\ heap w !! q = Some nq /\ heap w !! c = Some nc
    /\ exists np' nq' nc',
         heap (SceneNode.addChild p c w) !! p = Some np'
         /\ heap (SceneNode.addChild p c w) !! q = Some nq'
         /\ heap (SceneNode.addChild p c w) !! c = Some nc'
         /\ children np' = children np ++ [c]
         /\ children nq' = SceneNode.removeFirst c (children nq)
         /\ (c ∉ children nq')
         /\ parent nc' = Some p
         /\ isTransformDirty nc' = true.
Proof.
  cbv zeta. do 3 eexists.
  split; [vm_compute; reflexivity |].
  split; [vm_compute; reflexivity |].
  split; [vm_compute; reflexivity |].
  eapply (addChild_reparents Scenarios.chainWorld Scenarios.chainRoot
            Scenarios.chainChild Scenarios.chainGrandchild).
  - vm_compute. reflexivity.
  - vm_compute. reflexivity.
  - vm_compute. reflexivity.
  - vm_compute. reflexivity.
  - vm_compute. apply NoDup_singleton.
  - discriminate.
  - discriminate.
  - discriminate.
Defined.

(** X19. [addNode(node, parent)] always registers the node under its
    id and sets its scene, whatever the parent argument; on a scene
    without a root the node becomes the root. *)
Theorem addNode_registers (w : World) (node : ref) (parentArg : option (option ref))
    (n : Node) :
  heap w !! node = Some n ->
  let w' := Scene.addNode node parentArg w in
  Scene.registered w' node
  /\ Scene.getNodeById (id n) w' = Some node
  /\ (exists n', heap w' !! node = Some n' /\ scene n' = Some TheScene)
  /\ (root (theScene w) = None -> root (theScene w') = Some node).
Proof.
  intros Hn. cbv zeta. unfold Scene.addNode. cbv zeta.
  match goal with
  | |- context [update node (set_scene (Some TheScene)) ?w0] => set (w1 := w0)
  end.
  assert (H1 : exists n1, heap w1 !! node = Some n1 /\ id n1 = id n).
  { unfold w1. destruct (root (theScene w)) as [r |].
    - destruct (default (Some r) parentArg) as [p |].
      2:{ exists n. split; [exact Hn | reflexivity]. }
      destruct (bool_decide (p ≠ node)) eqn:E.
      2:{ exists n. split; [exact Hn | reflexivity]. }
      apply bool_decide_eq_true in E.
      destruct (heap w !! p) as [pn |] eqn:Hp.
      2:{ exists n. split; [exact Hn | reflexivity]. }
      destruct (bool_decide (node ∈ children pn)).
      { exists n. split; [exact Hn | reflexivity]. }
      eexists. split.
      + apply lookup_update_eq. rewrite lookup_update_ne by exact E. exact Hn.
      + reflexivity.
    - exists n. split; [exact Hn | reflexivity]. }
  destruct H1 as (n1 & Hn1 & Hid).
  assert (H2 : heap (update node (set_scene (Some TheScene)) w1) !! node
               = Some (set_scene (Some TheScene) n1)).
  { apply lookup_update_eq. exact Hn1. }
  rewrite H2. cbn [heap theScene set_theScene nodes Scene.set_nodes root].
  change (id (set_scene (Some TheScene) n1)) with (id n1). rewrite Hid.
  split; [| split; [| split]].
  - exists (set_scene (Some TheScene) n1). split; [exact H2 |].
    cbn. rewrite Hid. apply lookup_insert_eq.
  - unfold Scene.getNodeById. cbn. apply lookup_insert_eq.
  - exists (set_scene (Some TheScene) n1). split; [exact H2 | reflexivity].
  - intros Hr. cbn. unfold w1. rewrite Hr. reflexivity.
Qed.


Lemma addNode_registers_witness :
  let w := fst (SceneNode.new None Scene.emptyWorld) in
  let node := snd (SceneNode.new None Scene.emptyWorld) in
  exists n,
    heap w !! node = Some n
    /\ Scene.registered (Scene.addNode node (Some None) w) node
    /\ Scene.getNodeById (id n) (Scene.addNode node (Some None) w) = Some node
    /\ (exists n', heap (Scene.addNode node (Some None) w) !! node = Some n'
                   /\ scene n' = Some TheScene)
    /\ (root (theScene w) = None ->
        root (theScene (Scene.addNode node (Some None) w)) = Some node).
Proof.
  cbv zeta. eexists. split; [vm_compute; reflexivity |].
  eapply (addNode_registers (fst (SceneNode.new None Scene.emptyWorld))
            (snd (SceneNode.new None Scene.emptyWorld)) (Some None)).
  vm_compute. reflexivity.
Defined.

(** X20. [addNode(node, parent)] never detaches the node from a parent
    it already has: a node listed by [p1] and added under another
    parent [p2] is afterwards listed by both, while its parent pointer
    names [p2] only. *)
Theorem addNode_keeps_old_parent (w : World) (node p1 p2 r : ref)
    (n n1 n2 : Node) :
  root (theScene w) = Some r ->
  heap w !! node = Some n ->
  heap w !! p1 = Some n1 ->
  heap w !! p2 = Some n2 ->
  node ∈ children n1 ->
  node ∉ children n2 ->
  p1 <> p2 -> p1 <> node -> p2 <> node ->
  let w' := Scene.addNode node (Some (Some p2)) w in
  exists n' n1' n2',
    heap w' !! node = Some n' /\ heap w' !! p1 = Some n1'
    /\ heap w' !! p2 = Some n2'
    /\ node ∈ children n1'
    /\ node ∈ children n2'
    /\ parent n' = Some p2.
Proof.
  intros Hr Hn H1 H2 Hin Hout H12 H1n H2n. cbv zeta.
  unfold Scene.addNode. cbv zeta. rewrite Hr.
  change (default (Some r) (Some (Some p2))) with (Some p2). cbv iota beta.
  rewrite bool_decide_eq_true_2 by exact H2n. rewrite H2.
  rewrite bool_decide_eq_false_2 by exact Hout.
  match goal with
  | |- context [update node (set_scene (Some TheScene)) ?w0] => set (w1 := w0)
  end.
  assert (Hn1 : heap w1 !! node = Some (set_parent (Some p2) n)).
  { unfold w1. apply lookup_update_eq.
    rewrite lookup_update_ne by exact H2n. exact Hn. }
  assert (Hn2 : heap (update node (set_scene (Some TheScene)) w1) !! node
                = Some (set_scene (Some TheScene) (set_parent (Some p2) n))).
  { apply lookup_update_eq. exact Hn1. }
  rewrite Hn2. cbn [heap set_theScene].
  change (heap (update node (set_scene (Some TheScene)) w1))
    with (alter (set_scene (Some TheScene)) node (heap w1)).
  do 3 eexists. split; [exact Hn2 |].
  split.
  { rewrite lookup_alter_ne by congruence. unfold w1.
    rewrite !lookup_update_ne by congruence. exact H1. }
  split.
  { rewrite lookup_alter_ne by congruence. unfold w1.
    rewrite lookup_update_ne by congruence.
    apply lookup_update_eq. exact H2. }
  split; [exact Hin |]. split; [| reflexivity].
  cbn. apply elem_of_app. right. apply list_elem_of_singleton. reflexivity.
Qed.

Lemma addNode_keeps_old_parent_witness :
  let w := Scenarios.familyWorld in
  let w0 := fst (SceneNode.new None w) in
  let p2 := snd (SceneNode.new None w) in
  let node := Scenarios.familyChild in
  let p1 := Scenarios.familyRoot in
  let w' := Scene.addNode node (Some (Some p2)) w0 in
  exists n' n1' n2',
    heap w' !! node = Some n' /\ heap w' !! p1 = Some n1'
    /\ heap w' !! p2 = Some n2'
    /\ node ∈ children n1'
    /\ node ∈ children n2'
    /\ parent n' = Some p2.
Proof.
  cbv zeta.
  eapply (addNode_keeps_old_parent (fst (SceneNode.new None Scenarios.familyWorld))
            Scenarios.familyChild Scenarios.familyRoot
            (snd (SceneNode.new None Scenarios.familyWorld)) Scenarios.familyRoot).
  - vm_compute. reflexivity.
  - vm_compute. reflexivity.
  - vm_compute. reflexivity.
  - vm_compute. reflexivity.
  - apply list_elem_of_In. vm_compute. left. reflexivity.
  - vm_compute. apply not_elem_of_nil.
  - vm_compute. discriminate.
  - discriminate.
  - vm_compute. discriminate.
Defined.

(** X21. [removeNode(node)] unlinks nothing: every node, the removed
    one included, keeps its parent pointer and its list of children,
    so the removed node stays listed by its parent. *)
Theorem removeNode_keeps_links (w : World) (node r : ref) :
  parent <$> heap (Scene.removeNode node w) !! r = parent <$> heap w !! r
  /\ children <$> heap (Scene.removeNode node w) !! r = children <$> heap w !! r.
Proof.
  unfold Scene.removeNode. cbv zeta. rewrite heap_onNodeRemoved.
  rewrite lookup_update.
  assert (E : heap (if bool_decide (Some node = root (theScene w))
                    then set_theScene (Scene.set_root None (theScene w)) w
                    else w) = heap w).
  { destruct (bool_decide _); reflexivity. }
  rewrite E.
  destruct (decide (node = r)) as [-> |]; [| split; reflexivity].
  destruct (heap w !! r); split; reflexivity.
Qed.

(** [removeNode(node)] takes the node out of the selection and
    leaves the rest of the selection as it was. *)
Theorem removeNode_deselects (w : World) (node : ref) (n : Node) :
  heap w !! node = Some n ->
  selectedNodes (theScene (Scene.removeNode node w))
  = Scene.setDelete node (selectedNodes (theScene w))
  /\ (node ∉ selectedNodes (theScene (Scene.removeNode node w)))
  /\ (forall r, r <> node ->
        r ∈ selectedNodes (theScene (Scene.removeNode node w))
        <-> r ∈ selectedNodes (theScene w)).
Proof.
  intros Hn.
  assert (E : selectedNodes (theScene (Scene.removeNode node w))
              = Scene.setDelete node (selectedNodes (theScene w))).
  { unfold Scene.removeNode. cbv zeta. unfold Scene.onNodeRemoved.
    match goal with
    | |- context [update node (set_scene None) ?w0] => set (w1 := w0)
    end.
    assert (H1 : heap w1 = heap w /\ selectedNodes (theScene w1)
                                    = selectedNodes (theScene w)).
    { unfold w1. destruct (bool_decide _); split; reflexivity. }
    destruct H1 as [Hh Hs].
    rewrite (lookup_update_eq node (set_scene None) w1 n)
      by (rewrite Hh; exact Hn).
    cbn. rewrite Hs. reflexivity. }
  rewrite E. unfold Scene.setDelete. split; [reflexivity |]. split.
  - intros Hin. apply list_elem_of_filter in Hin as [Hne _]. congruence.
  - intros r Hr. split.
    + intros Hin. apply list_elem_of_filter in Hin as [_ Hin]. exact Hin.
    + intros Hin. apply list_elem_of_filter. split; [exact Hr | exact Hin].
Qed.

Lemma removeNode_deselects_witness :
  let w := Scene.selectNode Scenarios.familyRoot
             (Scene.selectNode Scenarios.familyChild Scenarios.familyWorld) in
  let node := Scenarios.familyChild in
  selectedNodes (theScene w) = [Scenarios.familyChild; Scenarios.familyRoot]
  /\ selectedNodes (theScene (Scene.removeNode node w)) = [Scenarios.familyRoot].
Proof.
  cbv zeta. split; [vm_compute; reflexivity |].
  assert (Hn : exists n,
            heap (Scene.selectNode Scenarios.familyRoot
                    (Scene.selectNode Scenarios.familyChild Scenarios.familyWorld))
              !! Scenarios.familyChild = Some n)
    by (eexists; vm_compute; reflexivity).
  destruct Hn as [n Hn].
  rewrite (proj1 (removeNode_deselects _ _ n Hn)). vm_compute. reflexivity.
Defined.

(** Selecting a node that is not selected and deselecting it
    again restores the selection; selecting a selected node changes
    nothing. *)
Theorem select_deselect_round_trip (w : World) (node : ref) :
  node ∉ selectedNodes (theScene w) ->
  selectedNodes (theScene (Scene.deselectNode node (Scene.selectNode node w)))
  = selectedNodes (theScene w)
  /\ Scene.selectNode node (Scene.selectNode node w) = Scene.selectNode node w.
Proof.
  intros Hout.
  assert (Hsel : selectedNodes (theScene (Scene.selectNode node w))
                 = selectedNodes (theScene w) ++ [node]).
  { unfold Scene.selectNode. rewrite bool_decide_eq_false_2 by exact Hout.
    reflexivity. }
  assert (Hin : node ∈ selectedNodes (theScene (Scene.selectNode node w))).
  { rewrite Hsel. apply elem_of_app. right. apply list_elem_of_singleton.
    reflexivity. }
  split.
  - unfold Scene.deselectNode. rewrite bool_decide_eq_true_2 by exact Hin.
    cbn [theScene set_theScene selectedNodes Scene.set_selectedNodes].
    rewrite Hsel. unfold Scene.setDelete. rewrite filter_app.
    rewrite (filter_all (fun r : ref => r <> node) (selectedNodes (theScene w))).
    + cbn. rewrite decide_False by (intros H; apply H; reflexivity).
      apply app_nil_r.
    + intros r Hr Heq. subst r. apply Hout. apply list_elem_of_In. exact Hr.
  - unfold Scene.selectNode at 1. rewrite bool_decide_eq_true_2 by exact Hin.
    reflexivity.
Qed.

Lemma select_deselect_round_trip_witness :
  let w := Scene.selectNode Scenarios.familyRoot Scenarios.familyWorld in
  let node := Scenarios.familyChild in
  selectedNodes (theScene (Scene.deselectNode node (Scene.selectNode node w)))
  = selectedNodes (theScene w)
  /\ Scene.selectNode node (Scene.selectNode node w) = Scene.selectNode node w.
Proof.
  cbv zeta. apply select_deselect_round_trip.
  vm_compute. intros H. apply list_elem_of_In in H.
  destruct H as [H | []]. discriminate H.
Defined.






Lemma fold_left_pointwise {A B : Type} (g h : A -> B -> A) (l : list B) (a : A) :
  (forall x b, In b l -> g x b = h x b) ->
  fold_left g l a = fold_left h l a.
Proof.
  revert a. induction l as [| b l IH]; intros a Hgh; cbn; [reflexivity |].
  rewrite (Hgh a b) by (left; reflexivity).
  apply IH. intros x b' Hb'. apply Hgh. right. exact Hb'.
Qed.

(** [maxDepth: 0] sets no limit: zero is falsy in the depth test,
    so the traversal is the one without [maxDepth]. *)
Theorem traverseNode_maxDepth_zero (fuel : nat) (w : World)
    (vo : bool) (d : Q) (node : ref) (depth : nat) :
  d == 0 ->
  Scene.traverseNode fuel w (Scene.mkTraverseOptions vo (Some d)) node depth
  = Scene.traverseNode fuel w (Scene.mkTraverseOptions vo None) node depth.
Proof.
  intros Hz. revert node depth.
  induction fuel as [| fuel IH]; intros node depth; [reflexivity |].
  cbn. destruct (heap w !! node) as [n |]; [| reflexivity].
  destruct (vo && negb (visible n)); [reflexivity |].
  unfold Scene.beyondMaxDepth. cbn [Scene.maxDepth].
  unfold Num.eqb. rewrite (proj2 (Qeq_bool_iff d 0) Hz). cbn [negb andb].
  apply fold_left_pointwise. intros x b _. rewrite IH. reflexivity.
Qed.

Lemma traverseNode_maxDepth_zero_witness :
  Scene.traverseNode 3 Scenarios.chainWorld
    (Scene.mkTraverseOptions false (Some 0)) Scenarios.chainRoot 0
  = Scene.traverseNode 3 Scenarios.chainWorld
      (Scene.mkTraverseOptions false None) Scenarios.chainRoot 0.
Proof.
  apply traverseNode_maxDepth_zero. reflexivity.
Defined.





(** The chain whose nodes were translated with [translate(10, 0)]: the
    cached world transform of the grandchild carries 30 after the
    top-down updates, and [getWorldTransform()] reports 0, since
    [translate] writes the matrix and [getWorldTransform] reads [x]. *)
Example getWorldTransform_ignores_matrix :
  exists Tn,
    SceneNode.getWorldTransform 2 Scenarios.chainGrandchild Scenarios.chainWorld
    = JS.Return Tn
    /\ Transform.x Tn == 0 /\ Transform.e Tn == 0.
Proof. eexists. split; [vm_compute; reflexivity |]. split; reflexivity. Qed.


End SceneGraphMore.

(** ** LayerManager: the cache, the render order and the layers *)

Section LayerManagerMore.
Import Store LayerManager Session.

Lemma cacheValid_bump (ls : list (string * Layer))
    (nbl : list (string * list Node)) (c : option (list SortedEntry))
    (sv v : nat) :
  (sv <= v)%nat -> cacheValid (LayerManager.mk ls nbl c sv (S v)).
Proof.
  intros H. split; cbn; [lia |]. intros cached _ E. lia.
Qed.

Lemma cacheValid_createLayer (id0 : string) (options : LayerOptions) (this : t) :
  cacheValid this -> cacheValid (createLayer id0 options this).
Proof. intros [H _]. apply cacheValid_bump. exact H. Qed.

Lemma cacheValid_addNode (node : Node) (this : t) :
  cacheValid this -> cacheValid (addNode node this).
Proof.
  intros H. unfold addNode. destruct (layerIdOf node) as [l |]; [| exact H].
  destruct (mapGet l (nodesByLayer this)); [| exact H].
  apply cacheValid_bump. exact (proj1 H).
Qed.

Lemma cacheValid_deleteLayer (id0 : string) (this this' : t) :
  cacheValid this -> deleteLayer id0 this = JS.Return this' -> cacheValid this'.
Proof.
  intros H. unfold deleteLayer.
  destruct (mapGet "default" (nodesByLayer this)); [| discriminate].
  intros E. injection E as <-. apply cacheValid_bump. exact (proj1 H).
Qed.

Lemma cacheValid_clear (this : t) : cacheValid this -> cacheValid (clear this).
Proof.
  intros [H _]. unfold clear, initializeDefaultLayers.
  do 3 apply cacheValid_createLayer.
  split; cbn; [lia | intros cached E; discriminate E].
Qed.

Lemma getSortedNodes_cases (this : t) :
  cacheValid this ->
  fst (getSortedNodes this) = computeSortedNodes this
  /\ layers (snd (getSortedNodes this)) = layers this
  /\ nodesByLayer (snd (getSortedNodes this)) = nodesByLayer this
  /\ _sortedNodes (snd (getSortedNodes this)) = Some (computeSortedNodes this)
  /\ _sortedNodesVersion (snd (getSortedNodes this)) = _currentVersion this
  /\ _currentVersion (snd (getSortedNodes this)) = _currentVersion this.
Proof.
  intros [Hle Hc]. unfold getSortedNodes.
  destruct (_sortedNodes this) as [cached |] eqn:E.
  - destruct (_sortedNodesVersion this =? _currentVersion this)%nat eqn:Ev.
    + apply Nat.eqb_eq in Ev. rewrite (Hc cached eq_refl Ev). cbn.
      rewrite E, (Hc cached eq_refl Ev), Ev. tauto.
    + cbn. tauto.
  - cbn. tauto.
Qed.

Lemma cacheValid_getSortedNodes (this : t) :
  cacheValid this -> cacheValid (snd (getSortedNodes this)).
Proof.
  intros H. destruct (getSortedNodes_cases this H) as (_ & Hl & Hn & Hs & Hv & Hcv).
  split; [lia |]. intros cached E _. rewrite Hs in E. injection E as <-.
  unfold computeSortedNodes. rewrite Hl, Hn. reflexivity.
Qed.

Lemma getBatchedNodes_snd (this : t) :
  snd (getBatchedNodes this) = snd (getSortedNodes this).
Proof. unfold getBatchedNodes. destruct (getSortedNodes this). reflexivity. Qed.

Lemma cacheValid_new : cacheValid LayerManager.new.
Proof. split; [cbn; lia | intros cached E; discriminate E]. Qed.

Lemma run_cacheValid (cs : list Call) (this : t) :
  run cs = JS.Return this -> cacheValid this.
Proof.
  unfold run.
  apply (fold_outcome_inv cacheValid (fun this0 c => call c this0) cs);
    [| exact cacheValid_new].
  intros v c v' _ Hv Hstep. destruct c; cbn in Hstep.
  - injection Hstep as <-. apply cacheValid_createLayer, Hv.
  - exact (cacheValid_deleteLayer _ _ _ Hv Hstep).
  - injection Hstep as <-. apply cacheValid_addNode, Hv.
  - injection Hstep as <-. apply cacheValid_getSortedNodes, Hv.
  - injection Hstep as <-. rewrite getBatchedNodes_snd.
    apply cacheValid_getSortedNodes, Hv.
  - injection Hstep as <-. apply cacheValid_clear, Hv.
Qed.

(** X24. The cache of [getSortedNodes()] is never stale: after any
    sequence of [createLayer], [deleteLayer], [addNode],
    [getSortedNodes], [getBatchedNodes] and [clear] calls on a new
    manager, [getSortedNodes()] returns the list computed from the
    current layers and nodes, and an immediate second call returns the
    same list. *)
Theorem getSortedNodes_never_stale (cs : list Call) (this : t) :
  run cs = JS.Return this ->
  fst (getSortedNodes this) = computeSortedNodes this
  /\ fst (getSortedNodes (snd (getSortedNodes this))) = fst (getSortedNodes this).
Proof.
  intros Hrun. pose proof (run_cacheValid cs this Hrun) as Hv.
  destruct (getSortedNodes_cases this Hv) as (H1 & Hl & Hn & _).
  split; [exact H1 |].
  destruct (getSortedNodes_cases _ (cacheValid_getSortedNodes this Hv))
    as (H2 & _).
  rewrite H2, H1. unfold computeSortedNodes. rewrite Hl, Hn. reflexivity.
Qed.

Lemma getSortedNodes_never_stale_witness :
  run sessionCalls = JS.Return sessionManager
  /\ fst (getSortedNodes sessionManager) = computeSortedNodes sessionManager
  /\ fst (getSortedNodes (snd (getSortedNodes sessionManager)))
     = fst (getSortedNodes sessionManager).
Proof.
  assert (H : run sessionCalls = JS.Return sessionManager)
    by (vm_compute; reflexivity).
  split; [exact H |].
  exact (getSortedNodes_never_stale sessionCalls sessionManager H).
Defined.

Lemma flat_map_nodesWithKey_absent (x : Layer * Node) (s : list (Layer * Node))
    (ks : list string) :
  keyOf x ∉ ks ->
  flat_map (nodesWithKey (x :: s)) ks = flat_map (nodesWithKey s) ks.
Proof.
  induction ks as [| k ks IH]; intros Hx; cbn [flat_map]; [reflexivity |].
  apply not_elem_of_cons in Hx as [Hne Hx].
  rewrite nodesWithKey_cons, decide_False by exact Hne.
  rewrite IH by exact Hx. reflexivity.
Qed.

Lemma flat_map_nodesWithKey_present (x : Layer * Node) (s : list (Layer * Node))
    (ks : list string) :
  NoDup ks ->
  keyOf x ∈ ks ->
  flat_map (nodesWithKey (x :: s)) ks ≡ₚ snd x :: flat_map (nodesWithKey s) ks.
Proof.
  induction ks as [| k ks IH]; intros Hnd Hx; [inversion Hx |].
  apply NoDup_cons in Hnd as [Hk Hnd]. cbn [flat_map].
  rewrite nodesWithKey_cons. destruct (decide (keyOf x = k)) as [E | E].
  - rewrite flat_map_nodesWithKey_absent by (rewrite E; exact Hk).
    reflexivity.
  - apply elem_of_cons in Hx as [Hx | Hx]; [congruence |].
    cbn [app]. rewrite (IH Hnd Hx). symmetry. apply Permutation_middle.
Qed.

Lemma flat_map_nodesWithKey_nil (ks : list string) :
  flat_map (nodesWithKey []) ks = [].
Proof. induction ks as [| k ks IH]; [reflexivity | exact IH]. Qed.

Lemma flat_map_nodesWithKey (s : list (Layer * Node)) (ks : list string) :
  NoDup ks ->
  (forall x, x ∈ s -> keyOf x ∈ ks) ->
  flat_map (nodesWithKey s) ks ≡ₚ map snd s.
Proof.
  intros Hnd. induction s as [| x s IH]; intros Hall.
  - rewrite flat_map_nodesWithKey_nil. reflexivity.
  - rewrite flat_map_nodesWithKey_present; [| exact Hnd | apply Hall; left].
    cbn. constructor. apply IH. intros y Hy. apply Hall. right. exact Hy.
Qed.

(** X25. Batching neither loses nor repeats a node: the nodes listed
    by the batches of [getBatchedNodes()] are a permutation of the
    nodes of [getSortedNodes()]. *)
Theorem getBatchedNodes_permutation (this : t) :
  batchOrder this ≡ₚ paintOrder this.
Proof.
  unfold batchOrder, paintOrder.
  rewrite getBatchedNodes_fst, flat_map_view, batchesOf_stream, fold_step_view.
  rewrite paintOrder_stream.
  set (s := stream (fst (getSortedNodes this))).
  rewrite flat_map_concat_map, map_map. cbn [snd].
  rewrite <- flat_map_concat_map.
  apply flat_map_nodesWithKey; [apply firstKeys_NoDup |].
  intros x Hx. apply list_elem_of_In. apply (proj2 (firstKeys_In _ _)).
  apply in_map. apply list_elem_of_In. exact Hx.
Qed.


Section SortFacts.
Context {A : Type}.
Variable key : A -> Q.





End SortFacts.



Lemma Forall_map_pre {B C : Type} (g : B -> C) (P : C -> Prop) (l : list B) :
  Forall P (map g l) <-> Forall (fun b => P (g b)) l.
Proof.
  induction l as [| x l IH]; cbn; split; intros H;
    inversion H; subst; constructor; tauto.
Qed.



Section MapDeleteFacts.
Context {V : Type}.
Implicit Types (m : list (string * V)) (k : string).

Lemma mapGet_mapDelete_eq k m : mapGet k (mapDelete k m) = None.
Proof.
  induction m as [| [k0 v0] m IH]; cbn; [reflexivity |].
  destruct (String.eqb k0 k) eqn:E; [exact IH |].
  cbn. rewrite E. exact IH.
Qed.

Lemma mapGet_mapDelete_ne k k' m :
  k <> k' -> mapGet k' (mapDelete k m) = mapGet k' m.
Proof.
  intros Hne. induction m as [| [k0 v0] m IH]; cbn; [reflexivity |].
  destruct (String.eqb k0 k) eqn:E.
  - apply String.eqb_eq in E. subst k0.
    rewrite (proj2 (String.eqb_neq k k')) by exact Hne. exact IH.
  - cbn. rewrite IH. reflexivity.
Qed.

Lemma mapGet_mapAlter_eq (g : V -> V) k m (v : V) :
  mapGet k m = Some v -> mapGet k (mapAlter g k m) = Some (g v).
Proof.
  induction m as [| [k0 v0] m IH]; cbn; [discriminate |].
  destruct (String.eqb k0 k) eqn:E; cbn; rewrite E.
  - intros H. injection H as <-. reflexivity.
  - exact IH.
Qed.

Lemma mapGet_mapAlter_ne (g : V -> V) k k' m :
  k <> k' -> mapGet k' (mapAlter g k m) = mapGet k' m.
Proof.
  intros Hne. induction m as [| [k0 v0] m IH]; cbn; [reflexivity |].
  destruct (String.eqb k0 k) eqn:E; cbn.
  - apply String.eqb_eq in E. subst k0.
    rewrite (proj2 (String.eqb_neq k k')) by exact Hne. reflexivity.
  - rewrite IH. reflexivity.
Qed.

End MapDeleteFacts.

(** X27. [deleteLayer(id)] of a layer other than ['default'] moves the
    nodes of that layer to the end of the default layer with their
    [layer] set to ['default'], and removes the layer and its node
    list. *)
Theorem deleteLayer_moves_nodes (id0 : string) (this : t)
    (ns ds : list Node) :
  id0 <> "default" ->
  mapGet id0 (nodesByLayer this) = Some ns ->
  mapGet "default" (nodesByLayer this) = Some ds ->
  exists this',
    deleteLayer id0 this = JS.Return this'
    /\ mapGet "default" (nodesByLayer this')
       = Some (ds ++ map (set_layer (JS.Str "default")) ns)
    /\ mapGet id0 (nodesByLayer this') = None
    /\ getLayer id0 this' = None
    /\ (forall k, k <> id0 -> getLayer k this' = getLayer k this)
    /\ (forall k, k <> id0 -> k <> "default" ->
          mapGet k (nodesByLayer this') = mapGet k (nodesByLayer this))
    /\ Forall (fun n => layerIdOf n = Some "default")
              (map (set_layer (JS.Str "default")) ns).
Proof.
  intros Hne Hns Hds. unfold deleteLayer. rewrite Hns, Hds.
  change (default [] (Some ns)) with ns.
  eexists. split; [reflexivity |]. cbn [nodesByLayer layers]. unfold getLayer.
  cbn [layers].
  split.
  { rewrite mapGet_mapDelete_ne by exact Hne.
    rewrite (mapGet_mapAlter_eq _ _ _ ds Hds). reflexivity. }
  split; [apply mapGet_mapDelete_eq |].
  split; [apply mapGet_mapDelete_eq |].
  split.
  { intros k Hk. apply mapGet_mapDelete_ne. congruence. }
  split.
  { intros k Hk Hkd. rewrite mapGet_mapDelete_ne by congruence.
    apply mapGet_mapAlter_ne. congruence. }
  apply (proj2 (Forall_map_pre _ _ ns)). apply Forall_forall.
  intros n _. reflexivity.
Qed.

Lemma deleteLayer_moves_nodes_witness :
  let this :=
    addNode (set_layer (JS.Str "ui") (Scenarios.paintedNode 1 "B" "blue" 1))
      (addNode (Scenarios.paintedNode 0 "A" "red" 0) LayerManager.new) in
  exists this',
    deleteLayer "ui" this = JS.Return this'
    /\ map name <$> mapGet "default" (nodesByLayer this') = Some ["A"; "B"]
    /\ mapGet "ui" (nodesByLayer this') = None.
Proof.
  cbv zeta.
  destruct (deleteLayer_moves_nodes "ui"
              (addNode (set_layer (JS.Str "ui") (Scenarios.paintedNode 1 "B" "blue" 1))
                 (addNode (Scenarios.paintedNode 0 "A" "red" 0) LayerManager.new))
              [set_layer (JS.Str "ui") (Scenarios.paintedNode 1 "B" "blue" 1)]
              [Scenarios.paintedNode 0 "A" "red" 0])
    as (this' & Hd & Hdef & Hui & _).
  - discriminate.
  - reflexivity.
  - reflexivity.
  - exists this'. split; [exact Hd |]. split; [| exact Hui].
    rewrite Hdef. reflexivity.
Defined.

(** X28. Deleting the ['default'] layer succeeds and drops the nodes
    of that layer; from then on every [deleteLayer] raises a TypeError
    and [addNode] ignores every node that belongs to the default
    layer. *)
Theorem deleteLayer_default_breaks (this : t) (ds : list Node) :
  mapGet "default" (nodesByLayer this) = Some ds ->
  exists this',
    deleteLayer "default" this = JS.Return this'
    /\ mapGet "default" (nodesByLayer this') = None
    /\ (forall id0, deleteLayer id0 this' = JS.Throw JS.TypeError)
    /\ (forall node, layerIdOf node = Some "default" ->
          addNode node this' = this').
Proof.
  intros Hds. unfold deleteLayer at 1. rewrite Hds.
  change (default [] (Some ds)) with ds.
  eexists. split; [reflexivity |].
  assert (Hnone : mapGet "default"
                    (mapDelete "default"
                       (mapAlter
                          (fun ns => ns ++ map (set_layer (JS.Str "default")) ds)
                          "default" (nodesByLayer this))) = None)
    by apply mapGet_mapDelete_eq.
  split; [exact Hnone |]. split.
  - intros id0. unfold deleteLayer. cbn [nodesByLayer]. rewrite Hnone.
    reflexivity.
  - intros node Hl. unfold addNode. rewrite Hl. cbn [nodesByLayer].
    rewrite Hnone. reflexivity.
Qed.

Lemma deleteLayer_default_breaks_witness :
  exists this',
    deleteLayer "default" LayerManager.new = JS.Return this'
    /\ mapGet "default" (nodesByLayer this') = None
    /\ (forall id0, deleteLayer id0 this' = JS.Throw JS.TypeError)
    /\ (forall node, layerIdOf node = Some "default" ->
          addNode node this' = this').
Proof.
  apply (deleteLayer_default_breaks LayerManager.new []). reflexivity.
Defined.


End LayerManagerMore.

(** ** RenderingEngine: the frame and the event handlers *)

Section RenderingEngineMore.
Import RenderingEngine.

Lemma bind_Return {A B : Type} (m : JS.Outcome A) (k : A -> JS.Outcome B) (v : B) :
  (x ← m; k x) = JS.Return v -> exists a, m = JS.Return a /\ k a = JS.Return v.
Proof.
  destruct m as [a | err |]; cbn; intros H; try discriminate H.
  exists a. split; [reflexivity | exact H].
Qed.

Lemma callMethod_apply (renderer : Strategy) :
  callMethod stateTransform "apply" renderer = JS.Throw JS.TypeError.
Proof. reflexivity. Qed.

(** X29. [beginBatch()] never completes, and so neither does
    [render()]: [this.state.transform] is a plain object without an
    [apply] method, so the call raises a TypeError once the renderer
    and the viewport have done their part, and the pipeline and
    [endBatch()] are never reached. *)
Theorem render_never_completes
    (rendererBeginBatch viewportApply : Strategy -> JS.Outcome unit)
    (pipelineExecute : option Strategy -> JS.Outcome unit)
    (rendererEndBatch : Strategy -> JS.Outcome unit) (this : t) :
  (forall v, beginBatch rendererBeginBatch viewportApply this <> JS.Return v)
  /\ (forall v, render rendererBeginBatch viewportApply pipelineExecute
                  rendererEndBatch this <> JS.Return v)
  /\ (forall renderer,
        getCurrentRenderer this = Some renderer ->
        rendererBeginBatch renderer = JS.Return tt ->
        viewportApply renderer = JS.Return tt ->
        render rendererBeginBatch viewportApply pipelineExecute
          rendererEndBatch this = JS.Throw JS.TypeError)
  /\ (forall pipelineExecute' rendererEndBatch',
        render rendererBeginBatch viewportApply pipelineExecute'
          rendererEndBatch' this
        = render rendererBeginBatch viewportApply pipelineExecute
            rendererEndBatch this).
Proof.
  assert (Hb : forall v,
            beginBatch rendererBeginBatch viewportApply this <> JS.Return v).
  { intros v H. unfold beginBatch in H.
    destruct (getCurrentRenderer this) as [r |]; [| discriminate H].
    apply bind_Return in H as (_ & _ & H).
    apply bind_Return in H as (_ & _ & H).
    rewrite callMethod_apply in H. discriminate H. }
  split; [exact Hb |]. split; [| split].
  - intros v H. unfold render in H. apply bind_Return in H as (u & H & _).
    exact (Hb u H).
  - intros r Hr Hrb Hva. unfold render, beginBatch.
    rewrite Hr, Hrb. cbn. rewrite Hva. reflexivity.
  - intros pe re. unfold render.
    destruct (beginBatch rendererBeginBatch viewportApply this) as [u | err |] eqn:E;
      [exfalso; exact (Hb u eq_refl) | reflexivity | reflexivity].
Qed.

Lemma render_never_completes_witness :
  let this := mk (mkState false "canvas" true) 60 0 in
  render (fun _ => JS.Return tt) (fun _ => JS.Return tt)
         (fun _ => JS.Return tt) (fun _ => JS.Return tt) this
  = JS.Throw JS.TypeError.
Proof.
  cbv zeta.
  apply (proj1 (proj2 (proj2
           (render_never_completes (fun _ => JS.Return tt) (fun _ => JS.Return tt)
              (fun _ => JS.Return tt) (fun _ => JS.Return tt)
              (mk (mkState false "canvas" true) 60 0)))) canvas).
  - reflexivity.
  - reflexivity.
  - reflexivity.
Defined.


Lemma bindMethod_handleContextRestore :
  bindMethod "handleContextRestore" = JS.Throw JS.TypeError.
Proof. reflexivity. Qed.

(** X30. [setupEventHandling()] never completes: the class declares no
    [handleContextRestore], so [this.handleContextRestore.bind(this)]
    raises a TypeError once the event manager, [debounce] and the
    first three listeners have succeeded, whatever adding the listener
    for ['webglcontextrestored'] would do. *)
Theorem setupEventHandling_raises (newEventManager debounce : JS.Outcome unit)
    (addEventListener : string -> JS.Outcome unit) :
  (forall v,
     setupEventHandling newEventManager debounce addEventListener <> JS.Return v)
  /\ (newEventManager = JS.Return tt ->
      debounce = JS.Return tt ->
      (forall type0, type0 <> "webglcontextrestored" ->
                     addEventListener type0 = JS.Return tt) ->
      setupEventHandling newEventManager debounce addEventListener
      = JS.Throw JS.TypeError).
Proof.
  split.
  - intros v H. unfold setupEventHandling in H.
    do 7 (apply bind_Return in H as (_ & _ & H)).
    apply bind_Return in H as (name0 & H & _).
    rewrite bindMethod_handleContextRestore in H. discriminate H.
  - intros Hn Hd Ha. unfold setupEventHandling. rewrite Hn, Hd.
    rewrite (Ha "resize"), (Ha "visibilitychange"), (Ha "webglcontextlost")
      by discriminate.
    reflexivity.
Qed.

Lemma setupEventHandling_raises_witness :
  setupEventHandling (JS.Return tt) (JS.Return tt) (fun _ => JS.Return tt)
  = JS.Throw JS.TypeError.
Proof.
  apply (proj2 (setupEventHandling_raises (JS.Return tt) (JS.Return tt)
                  (fun _ => JS.Return tt))).
  - reflexivity.
  - reflexivity.
  - intros type0 _. reflexivity.
Defined.

(** After a context loss whose restore fails, the frame loop is
    left cancelled, WebGL is off and the engine selects the canvas
    renderer whatever the frame rate and the complexity are; after a
    successful restore the loop runs again, WebGL is on and the render
    mode is as before. *)
Theorem handleContextLoss_outcomes (l : Loop) :
  (let l' := handleContextLoss false l in
   frameRequest l' = false
   /\ isWebGLEnabled (state (engine l')) = false
   /\ forall fps0 complexity0,
        getCurrentRenderer (mk (state (engine l')) fps0 complexity0)
        = Some canvas)
  /\ (let l' := handleContextLoss true l in
      frameRequest l' = true
      /\ isWebGLEnabled (state (engine l')) = true
      /\ renderMode (state (engine l')) = renderMode (state (engine l))).
Proof.
  unfold handleContextLoss, tryRestoreContext, pause, resume, set_state.
  destruct l as [[st f0 c0] fr]. destruct fr; cbn; repeat split; reflexivity.
Qed.

End RenderingEngineMore.
